(** * Security-group validation suite: shallow embedding and properties

    Three Python programs are embedded here:
    - [Validate_post_deployment.py]  (module [PostDeploy]):  comparison of
      the deployed security group with the expected configuration;
    - [Validate_terraform.py]        (module [ConfigCheck]): static checks
      of the rule specification;
    - [Run_all_tests.py]             (module [Runner]):      the phase
      orchestrator.

    Python dictionaries read with [.get] become records of [option]
    fields; [self.validation_results] becomes an explicit state that is
    threaded through the validation steps; exceptions are values of a sum
    type; external processes and files are read from a [World] record. *)

From Stdlib Require Import ZArith.
From stdpp Require Import gmap strings list fin_maps pretty.

Open Scope Z_scope.

(** ** Python helpers shared by the three programs *)

(** [sub in s] on Python strings. *)
Fixpoint py_in (sub s : string) : bool :=
  String.prefix sub s ||
  match s with
  | EmptyString => false
  | String _ s' => py_in sub s'
  end.

(** Truthiness of an optional string ([None] and [''] are falsy). *)
Definition truthy_str (o : option string) : bool :=
  match o with
  | Some s => negb (bool_decide (s = ""%string))
  | None => false
  end.

(** Truthiness of an optional integer ([None] and [0] are falsy). *)
Definition truthy_int (o : option Z) : bool :=
  match o with
  | Some z => negb (z =? 0)
  | None => false
  end.

(** [set(xs) == set(ys)] on lists of strings. *)
Definition same_set (xs ys : list string) : bool :=
  bool_decide (list_to_set xs =@{gset string} list_to_set ys).

(** Exceptions that the embedded code can raise by itself. *)
Inductive exn :=
  | KeyError (key : string)
  | TypeError (what : string).

(** ** Validate_post_deployment.py *)

Module PostDeploy.

(** One entry of [IpPermissions] / [IpPermissionsEgress] as returned by
    [describe_security_groups]; [IpRanges] holds the [CidrIp] of each
    range, in order. *)
Record IpPermission := {
  IpProtocol : option string;
  FromPort : option Z;
  ToPort : option Z;
  IpRanges : list string
}.

(** One expected rule of the configuration (a JSON object). *)
Record ExpectedRule := {
  protocol : option string;
  from_port : option Z;
  to_port : option Z;
  cidr_blocks : option (list string);
  description : option string
}.

(** [self.sg_details]. *)
Record SgDetails := {
  VpcId : option string;
  GroupName : option string;
  Description : option string;
  IpPermissions : list IpPermission;
  IpPermissionsEgress : list IpPermission;
  Tags : list (string * string)
}.

(** [expected_config]; the tags keep the insertion order of the dict. *)
Record ExpectedConfig := {
  vpc_id : option string;
  security_group_name : option string;
  cfg_description : option string;
  ingress_rules : option (list ExpectedRule);
  egress_rules : option (list ExpectedRule);
  tags : option (list (string * string))
}.

(** The entries appended to [self.validation_results]; each constructor
    stands for one f-string of the source and carries the interpolated
    values. *)
Inductive message :=
  | VpcMatches (actual : option string)
  | VpcMismatch (expected : string) (actual : option string)
  | NameMatches (actual : string)
  | NameMismatch (expected actual : string)
  | DescriptionMatches
  | DescriptionDiffers (expected : string) (actual : option string)
  | IngressRuleFound (n : nat) (proto : string) (fromp top : Z)
  | IngressRuleNotFound (n : nat) (rule : ExpectedRule)
  | AdditionalIngressRules (diff : nat)
  | EgressRuleFound (n : nat)
  | EgressRuleNotFound (n : nat) (rule : ExpectedRule)
  | TagMatches (key : string)
  | TagDiffers (key expected actual : string)
  | TagMissing (key : string)
  | OpenToInternet (service : string) (port : Z)
  | AllProtocolsFromInternet
  | BestPracticesValidated
  | OutputsFileNotFound (file : string)
  | OutputIdMatches
  | OutputIdMismatch
  | OutputNameMatches
  | OutputNameMismatch
  | OutputArnValid
  | ErrorReadingOutputs (e : string).

(** [self.validation_results]. *)
Record validation_results := {
  passed : list message;
  failed : list message;
  warnings : list message
}.

Definition initial_results : validation_results :=
  {| passed := []; failed := []; warnings := [] |}.

Definition add_passed (m : message) (st : validation_results) :=
  {| passed := passed st ++ [m]; failed := failed st; warnings := warnings st |}.
Definition add_failed (m : message) (st : validation_results) :=
  {| passed := passed st; failed := failed st ++ [m]; warnings := warnings st |}.
Definition add_warning (m : message) (st : validation_results) :=
  {| passed := passed st; failed := failed st; warnings := warnings st ++ [m] |}.
Definition add_warnings (ms : list message) (st : validation_results) :=
  {| passed := passed st; failed := failed st; warnings := warnings st ++ ms |}.

(** [len(self.validation_results['failed']) == 0] *)
Definition no_failures (st : validation_results) : bool :=
  match failed st with [] => true | _ :: _ => false end.

(** Result of a step that may raise: the exception, or the returned value
    together with the updated results. *)
Definition step (A : Type) : Type := exn + (A * validation_results).

(** *** validate_basic_properties *)

Definition validate_basic_properties (sg : SgDetails) (cfg : ExpectedConfig)
    (st : validation_results) : step bool :=
  let st1 :=
    match vpc_id cfg with
    | Some expected_vpc =>
        if bool_decide (Some expected_vpc = VpcId sg)
        then add_passed (VpcMatches (VpcId sg)) st
        else add_failed (VpcMismatch expected_vpc (VpcId sg)) st
    | None => st
    end in
  let st2 :=
    match security_group_name cfg with
    | Some expected_name =>
        match GroupName sg with
        | Some actual_name =>
            if py_in expected_name actual_name || py_in actual_name expected_name
            then inr (add_passed (NameMatches actual_name) st1)
            else inr (add_failed (NameMismatch expected_name actual_name) st1)
        | None => inl (TypeError "argument of type 'NoneType' is not iterable")
        end
    | None => inr st1
    end in
  match st2 with
  | inl e => inl e
  | inr st2 =>
      let st3 :=
        match cfg_description cfg with
        | Some expected_desc =>
            if bool_decide (Some expected_desc = Description sg)
            then add_passed DescriptionMatches st2
            else add_warning (DescriptionDiffers expected_desc (Description sg)) st2
        | None => st2
        end in
      inr (no_failures st3, st3)
  end.

(** *** _find_matching_ingress_rule / _find_matching_egress_rule *)

Fixpoint _find_matching_ingress_rule (expected : ExpectedRule)
    (actual_rules : list IpPermission) : bool :=
  match actual_rules with
  | [] => false
  | rule :: rest =>
      if negb (bool_decide (IpProtocol rule = protocol expected))
      then _find_matching_ingress_rule expected rest
      else if negb (bool_decide (FromPort rule = from_port expected))
      then _find_matching_ingress_rule expected rest
      else if negb (bool_decide (ToPort rule = to_port expected))
      then _find_matching_ingress_rule expected rest
      else
        match cidr_blocks expected with
        | Some expected_cidrs =>
            if same_set (IpRanges rule) expected_cidrs then true
            else _find_matching_ingress_rule expected rest
        | None => true
        end
  end.

Fixpoint _find_matching_egress_rule (expected : ExpectedRule)
    (actual_rules : list IpPermission) : bool :=
  match actual_rules with
  | [] => false
  | rule :: rest =>
      if negb (bool_decide (IpProtocol rule = protocol expected))
      then _find_matching_egress_rule expected rest
      else if negb (bool_decide (FromPort rule = from_port expected))
      then _find_matching_egress_rule expected rest
      else if negb (bool_decide (ToPort rule = to_port expected))
      then _find_matching_egress_rule expected rest
      else
        match cidr_blocks expected with
        | Some expected_cidrs =>
            if same_set (IpRanges rule) expected_cidrs then true
            else _find_matching_egress_rule expected rest
        | None => true
        end
  end.

(** *** validate_ingress_rules *)

(** [expected_rule[key]]: raises [KeyError] when the key is absent. *)
Definition subscript {A} (key : string) (o : option A) : exn + A :=
  match o with
  | Some v => inr v
  | None => inl (KeyError key)
  end.

(** The f-string of the "found" branch reads [protocol], [from_port] and
    [to_port] with subscripts, in this order. *)
Definition ingress_found_message (n : nat) (r : ExpectedRule) : exn + message :=
  match subscript "protocol" (protocol r) with
  | inl e => inl e
  | inr p =>
      match subscript "from_port" (from_port r) with
      | inl e => inl e
      | inr f =>
          match subscript "to_port" (to_port r) with
          | inl e => inl e
          | inr t => inr (IngressRuleFound n p f t)
          end
      end
  end.

(** The loop [for idx, expected_rule in enumerate(expected_rules)], started
    at index [idx]. *)
Fixpoint check_ingress_rules (idx : nat) (expected_rules : list ExpectedRule)
    (actual_rules : list IpPermission) (st : validation_results)
    : exn + validation_results :=
  match expected_rules with
  | [] => inr st
  | expected_rule :: rest =>
      if _find_matching_ingress_rule expected_rule actual_rules
      then
        match ingress_found_message (S idx) expected_rule with
        | inl e => inl e
        | inr m => check_ingress_rules (S idx) rest actual_rules (add_passed m st)
        end
      else
        check_ingress_rules (S idx) rest actual_rules
          (add_failed (IngressRuleNotFound (S idx) expected_rule) st)
  end.

Definition validate_ingress_rules (sg : SgDetails)
    (expected_rules : list ExpectedRule) (st : validation_results) : step bool :=
  let actual_rules := IpPermissions sg in
  match check_ingress_rules 0 expected_rules actual_rules st with
  | inl e => inl e
  | inr st1 =>
      let st2 :=
        if (length expected_rules <? length actual_rules)%nat
        then add_warning
               (AdditionalIngressRules (length actual_rules - length expected_rules)) st1
        else st1 in
      inr (no_failures st2, st2)
  end.

(** *** validate_egress_rules *)

Fixpoint check_egress_rules (idx : nat) (expected_rules : list ExpectedRule)
    (actual_rules : list IpPermission) (st : validation_results)
    : validation_results :=
  match expected_rules with
  | [] => st
  | expected_rule :: rest =>
      if _find_matching_egress_rule expected_rule actual_rules
      then check_egress_rules (S idx) rest actual_rules
             (add_passed (EgressRuleFound (S idx)) st)
      else check_egress_rules (S idx) rest actual_rules
             (add_failed (EgressRuleNotFound (S idx) expected_rule) st)
  end.

Definition validate_egress_rules (sg : SgDetails)
    (expected_rules : list ExpectedRule) (st : validation_results) : step bool :=
  let st1 := check_egress_rules 0 expected_rules (IpPermissionsEgress sg) st in
  inr (no_failures st1, st1).

(** *** validate_tags *)

(** [{tag['Key']: tag['Value'] for tag in ...}]: a later entry overrides an
    earlier one with the same key. *)
Definition actual_tags_of (ts : list (string * string)) : gmap string string :=
  foldl (λ m t, <[t.1 := t.2]> m) ∅ ts.

(** Body of [for key, expected_value in expected_tags.items()]. *)
Definition check_tag (actual_tags : gmap string string)
    (st : validation_results) (kv : string * string) : validation_results :=
  let '(key, expected_value) := kv in
  let actual_value := actual_tags !! key in
  if bool_decide (actual_value = Some expected_value)
  then add_passed (TagMatches key) st
  else
    match actual_value with
    | Some actual =>
        if truthy_str actual_value
        then add_warning (TagDiffers key expected_value actual) st
        else add_failed (TagMissing key) st
    | None => add_failed (TagMissing key) st
    end.

Definition validate_tags (sg : SgDetails) (expected_tags : list (string * string))
    (st : validation_results) : step bool :=
  let actual_tags := actual_tags_of (Tags sg) in
  let st1 := foldl (check_tag actual_tags) st expected_tags in
  inr (no_failures st1, st1).

(** *** validate_security_best_practices *)

(** [sensitive_ports.items()], in the insertion order of the literal. *)
Definition sensitive_ports : list (Z * string) :=
  [ (22, "SSH"); (3389, "RDP"); (3306, "MySQL"); (5432, "PostgreSQL");
    (27017, "MongoDB"); (6379, "Redis"); (1433, "MSSQL") ]%string.

Definition internet : string := "0.0.0.0/0".

(** The warnings appended for one sensitive port by the innermost loop
    [for ip_range in rule.get('IpRanges', [])]. *)
Definition open_ranges (m : message) (ranges : list string) : list message :=
  flat_map (λ cidr, if bool_decide (cidr = internet) then [m] else []) ranges.

(** The warnings appended by the first loop for one rule. *)
Definition sensitive_port_warnings (rule : IpPermission) : list message :=
  if truthy_int (FromPort rule) && truthy_int (ToPort rule)
  then
    match FromPort rule, ToPort rule with
    | Some from_p, Some to_p =>
        flat_map (λ ps : Z * string,
                    if (from_p <=? ps.1) && (ps.1 <=? to_p)
                    then open_ranges (OpenToInternet ps.2 ps.1) (IpRanges rule)
                    else [])
                 sensitive_ports
    | _, _ => []
    end
  else [].

(** The warnings appended by the second loop for one rule. *)
Definition all_protocol_warnings (rule : IpPermission) : list message :=
  if bool_decide (IpProtocol rule = Some "-1"%string)
  then open_ranges AllProtocolsFromInternet (IpRanges rule)
  else [].

Definition best_practice_warnings (ingress : list IpPermission) : list message :=
  flat_map sensitive_port_warnings ingress ++ flat_map all_protocol_warnings ingress.

(** The local flag [passed] is cleared exactly when a warning is appended;
    the function returns [True] in every case. *)
Definition validate_security_best_practices (sg : SgDetails)
    (st : validation_results) : step bool :=
  let ws := best_practice_warnings (IpPermissions sg) in
  let st1 := add_warnings ws st in
  let st2 :=
    match ws with
    | [] => add_passed BestPracticesValidated st1
    | _ :: _ => st1
    end in
  inr (true, st2).

(** *** validate_terraform_outputs *)

(** [outputs.get(name, {}).get('value')]: it raises when the document or
    the entry is not an object; otherwise it yields the value, if any. *)
Inductive lookup :=
  | LookupRaises (e : string)
  | LookupValue (v : option string).

Record Outputs := {
  out_security_group_id : lookup;
  out_security_group_name : lookup;
  out_security_group_arn : lookup
}.

(** What [os.path.exists] and [json.load] see of the outputs file. *)
Inductive outputs_file :=
  | FileMissing
  | FileUnreadable (e : string)
  | FileParsed (o : Outputs).

(** The body of the [try] block; [inl] carries the text of the exception
    and the results as they are when it is raised. *)
Definition read_outputs (security_group_id : string) (sg : SgDetails)
    (o : Outputs) (st : validation_results)
    : (string * validation_results) + validation_results :=
  match out_security_group_id o with
  | LookupRaises e => inl (e, st)
  | LookupValue output_id =>
      let st1 :=
        if bool_decide (output_id = Some security_group_id)
        then add_passed OutputIdMatches st
        else add_failed OutputIdMismatch st in
      match out_security_group_name o with
      | LookupRaises e => inl (e, st1)
      | LookupValue output_name =>
          let st2 :=
            if bool_decide (output_name = GroupName sg)
            then add_passed OutputNameMatches st1
            else add_failed OutputNameMismatch st1 in
          match out_security_group_arn o with
          | LookupRaises e => inl (e, st2)
          | LookupValue output_arn =>
              match output_arn with
              | Some arn =>
                  if truthy_str output_arn && py_in security_group_id arn
                  then inr (add_passed OutputArnValid st2)
                  else inr st2
              | None => inr st2
              end
          end
      end
  end.

Definition default_outputs_file : string := "outputs.json".

Definition validate_terraform_outputs (security_group_id : string)
    (sg : SgDetails) (file : outputs_file) (st : validation_results) : step bool :=
  match file with
  | FileMissing =>
      inr (true, add_warning (OutputsFileNotFound default_outputs_file) st)
  | FileUnreadable e =>
      let st1 := add_warning (ErrorReadingOutputs e) st in
      inr (no_failures st1, st1)
  | FileParsed o =>
      let st1 :=
        match read_outputs security_group_id sg o st with
        | inl (e, st') => add_warning (ErrorReadingOutputs e) st'
        | inr st' => st'
        end in
      inr (no_failures st1, st1)
  end.

(** *** run_all_validations and main *)

(** What [fetch_security_group] obtains from the cloud API. *)
Inductive fetch_result :=
  | ClientError
  | Fetched (sg : SgDetails).

(** Everything outside the program that a run reads. *)
Record World := {
  w_fetch : fetch_result;
  w_outputs : outputs_file
}.

(** The list [validations], applied to the fetched group. *)
Definition validations (security_group_id : string) (w : World) (sg : SgDetails)
    (cfg : ExpectedConfig) : list (validation_results → step bool) :=
  [ validate_basic_properties sg cfg;
    validate_ingress_rules sg (default [] (ingress_rules cfg));
    validate_egress_rules sg (default [] (egress_rules cfg));
    validate_tags sg (default [] (tags cfg));
    validate_security_best_practices sg;
    validate_terraform_outputs security_group_id sg (w_outputs w) ].

(** [results = [validation() for validation in validations]] *)
Fixpoint run_validations (vs : list (validation_results → step bool))
    (st : validation_results) : exn + (list bool * validation_results) :=
  match vs with
  | [] => inr ([], st)
  | v :: rest =>
      match v st with
      | inl e => inl e
      | inr (b, st1) =>
          match run_validations rest st1 with
          | inl e => inl e
          | inr (bs, st2) => inr (b :: bs, st2)
          end
      end
  end.

(** [all(results)] *)
Definition all (bs : list bool) : bool := forallb id bs.

(** A finished run: the value returned, the list [results] and the final
    [validation_results]. *)
Record Run := {
  success : bool;
  results : list bool;
  report : validation_results
}.

Definition run_all_validations (security_group_id : string) (w : World)
    (cfg : ExpectedConfig) : exn + Run :=
  match w_fetch w with
  | ClientError =>
      inr {| success := false; results := []; report := initial_results |}
  | Fetched sg =>
      match run_validations (validations security_group_id w sg cfg)
                            initial_results with
      | inl e => inl e
      | inr (bs, st) => inr {| success := all bs; results := bs; report := st |}
      end
  end.

(** [sys.exit(0 if success else 1)]; an uncaught exception ends the process
    with status 1 as well. *)
Definition exit_code (r : exn + Run) : Z :=
  match r with
  | inr run => if success run then 0 else 1
  | inl _ => 1
  end.

(** *** Scenarios *)

Definition tcp_rule (port : Z) (cidrs : list string) : IpPermission :=
  {| IpProtocol := Some "tcp"%string; FromPort := Some port; ToPort := Some port;
     IpRanges := cidrs |}.

Definition expect_tcp (port : Z) (cidrs : list string) : ExpectedRule :=
  {| protocol := Some "tcp"%string; from_port := Some port; to_port := Some port;
     cidr_blocks := Some cidrs; description := None |}.

Definition group (ingress : list IpPermission) (ts : list (string * string))
    : SgDetails :=
  {| VpcId := Some "vpc-1"%string; GroupName := Some "web"%string;
     Description := Some "web tier"%string;
     IpPermissions := ingress; IpPermissionsEgress := []; Tags := ts |}.

Definition expect (ingress : list ExpectedRule) (ts : list (string * string))
    : ExpectedConfig :=
  {| vpc_id := None; security_group_name := None; cfg_description := None;
     ingress_rules := Some ingress; egress_rules := Some []; tags := Some ts |}.

Definition world (sg : SgDetails) : World :=
  {| w_fetch := Fetched sg; w_outputs := FileMissing |}.

(** *** Vocabulary of the properties *)

(** [app_results st d]: the results [st] followed by the entries of [d]. *)
Definition app_results (st d : validation_results) : validation_results :=
  {| passed := passed st ++ passed d;
     failed := failed st ++ failed d;
     warnings := warnings st ++ warnings d |}.

(** How a step computes the value it returns: from the failures recorded
    so far by all steps, or constantly [True]. *)
Inductive verdict_rule := Cumulative | AlwaysTrue.

Definition verdict (rule : verdict_rule) (st : validation_results) : bool :=
  match rule with
  | Cumulative => no_failures st
  | AlwaysTrue => true
  end.

(** The rule of [validate_terraform_outputs], which returns early when the
    outputs file does not exist. *)
Definition outputs_rule (file : outputs_file) : verdict_rule :=
  match file with
  | FileMissing => AlwaysTrue
  | _ => Cumulative
  end.

(** A step started in [st], expressed by the same step started in the empty
    results. *)
Definition replay (rule : verdict_rule) (st : validation_results)
    (res : step bool) : step bool :=
  match res with
  | inl e => inl e
  | inr (_, d) => inr (verdict rule (app_results st d), app_results st d)
  end.

(** The condition under which the loop of [_find_matching_ingress_rule]
    returns [True] at [rule]. *)
Definition hit (e : ExpectedRule) (rule : IpPermission) : Prop :=
  IpProtocol rule = protocol e ∧ FromPort rule = from_port e ∧
  ToPort rule = to_port e ∧
  ∀ cs, cidr_blocks e = Some cs → ∀ c, c ∈ IpRanges rule ↔ c ∈ cs.

(** The value returned by a step that returns is [True] exactly when no
    failure is recorded, by this step or before it; the step keeps every
    failure recorded before it. *)
Definition cumulative_step (f : validation_results → step bool) : Prop :=
  ∀ st b st', f st = inr (b, st') →
    (b = true ↔ failed st' = []) ∧
    failed st `prefix_of` failed st' ∧
    (failed st ≠ [] → b = false).

(** The step returns (it does not raise) from every state. *)
Definition returns (f : validation_results → step bool) : Prop :=
  ∀ st, ∃ b st', f st = inr (b, st').

(** [m] is the report "Ingress rule n found" of an expected rule that has a
    match among [actual]; [n] counts from [idx + 1]. *)
Definition found_report (idx : nat) (expected : list ExpectedRule)
    (actual : list IpPermission) (m : message) : Prop :=
  ∃ i e p f t, expected !! i = Some e ∧
    _find_matching_ingress_rule e actual = true ∧
    protocol e = Some p ∧ from_port e = Some f ∧ to_port e = Some t ∧
    m = IngressRuleFound (S (idx + i)) p f t.

(** [m] is the report "Ingress rule n not found", carrying the rule, of an
    expected rule without a match among [actual]. *)
Definition missing_report (idx : nat) (expected : list ExpectedRule)
    (actual : list IpPermission) (m : message) : Prop :=
  ∃ i e, expected !! i = Some e ∧
    _find_matching_ingress_rule e actual = false ∧
    m = IngressRuleNotFound (S (idx + i)) e.

(** The same entries, the warnings possibly in another order. *)
Definition results_equiv (st st' : validation_results) : Prop :=
  passed st = passed st' ∧ failed st = failed st' ∧ warnings st ≡ₚ warnings st'.

(** Two calls end alike: with the same exception, or with the same value and
    equivalent results. *)
Definition outcome_equiv {A} (r r' : exn + (A * validation_results)) : Prop :=
  match r, r' with
  | inl x, inl x' => x = x'
  | inr (a, st), inr (a', st') => a = a' ∧ results_equiv st st'
  | _, _ => False
  end.

Definition step_equiv (f g : validation_results → step bool) : Prop :=
  ∀ st st', results_equiv st st' → outcome_equiv (f st) (g st').

(** Two runs end alike: with the same exception, or with the same verdict,
    the same value of every step, the same entries in [passed] and in
    [failed], and the same warnings up to their order (hence equally many
    entries of each kind). *)
Definition same_outcome (r r' : exn + Run) : Prop :=
  match r, r' with
  | inl x, inl x' => x = x'
  | inr a, inr a' =>
      success a = success a' ∧ results a = results a' ∧
      passed (report a) = passed (report a') ∧
      failed (report a) = failed (report a') ∧
      warnings (report a) ≡ₚ warnings (report a') ∧
      length (warnings (report a)) = length (warnings (report a'))
  | _, _ => False
  end.

(** Wherever [f] returns [True], [g] returns [True] as well, and both
    leave the same failures, when started with the same failures. *)
Definition step_mono (f g : validation_results → step bool) : Prop :=
  ∀ st st' s, failed st = failed st' → f st = inr (true, s) →
    ∃ s', g st' = inr (true, s') ∧ failed s = failed s'.

(** The deployed group with other rule lists. *)
Definition with_rules (sg : SgDetails) (ingress egress : list IpPermission)
    : SgDetails :=
  {| VpcId := VpcId sg; GroupName := GroupName sg; Description := Description sg;
     IpPermissions := ingress; IpPermissionsEgress := egress; Tags := Tags sg |}.

Definition with_group (w : World) (sg : SgDetails) : World :=
  {| w_fetch := Fetched sg; w_outputs := w_outputs w |}.

(** An expected rule with another description. *)
Definition with_description (d : option string) (e : ExpectedRule) : ExpectedRule :=
  {| protocol := protocol e; from_port := from_port e; to_port := to_port e;
     cidr_blocks := cidr_blocks e; description := d |}.

(** The expected rule has the three keys that the report of a found
    ingress rule reads with subscripts. *)
Definition reportable (e : ExpectedRule) : Prop :=
  is_Some (protocol e) ∧ is_Some (from_port e) ∧ is_Some (to_port e).

(** *** Vocabulary of further properties *)

(** [x] is a contiguous part of [y]. *)
Definition part_of (x y : string) : Prop :=
  ∃ pre post, y = (pre ++ x ++ post)%string.

(** The rule admits [0.0.0.0/0] for all protocols, or for a port range
    that starts and ends above 0 and covers a sensitive port. *)
Definition exposed (rule : IpPermission) : Prop :=
  internet ∈ IpRanges rule ∧
  (IpProtocol rule = Some "-1"%string ∨
   ∃ f t ps, FromPort rule = Some f ∧ ToPort rule = Some t ∧
             f ≠ 0 ∧ t ≠ 0 ∧ ps ∈ sensitive_ports ∧ f ≤ ps.1 ≤ t).

(** Two calls end with the same exception, or with the same value and the
    same failures. *)
Definition same_verdict (r r' : step bool) : Prop :=
  match r, r' with
  | inl x, inl x' => x = x'
  | inr (b, st), inr (b', st') => b = b' ∧ failed st = failed st'
  | _, _ => False
  end.

(** *** print_summary *)

(** The last line that [print_summary] prints. *)
Inductive closing_line :=
  | AllPassed
  | PassedWithWarnings
  | ValidationFailed.

(** What [print_summary] prints: the three totals, the failures and the
    warnings it lists (a list is printed only when it is not empty), and
    the closing line. *)
Record summary := {
  total_passed : nat;
  total_failed : nat;
  total_warnings : nat;
  listed_failures : list message;
  listed_warnings : list message;
  closing : closing_line
}.

Definition print_summary (st : validation_results) : summary :=
  let total_passed := length (passed st) in
  let total_failed := length (failed st) in
  let total_warnings := length (warnings st) in
  {| total_passed := total_passed;
     total_failed := total_failed;
     total_warnings := total_warnings;
     listed_failures := if (0 <? total_failed)%nat then failed st else [];
     listed_warnings := if (0 <? total_warnings)%nat then warnings st else [];
     closing :=
       if (total_failed =? 0)%nat && (total_warnings =? 0)%nat then AllPassed
       else if (total_failed =? 0)%nat then PassedWithWarnings
       else ValidationFailed |}.

(** The summary that a call of [run_all_validations] prints: none when the
    group cannot be fetched or a step raises. *)
Definition printed_summary (security_group_id : string) (w : World)
    (cfg : ExpectedConfig) : option summary :=
  match w_fetch w with
  | ClientError => None
  | Fetched _ =>
      match run_all_validations security_group_id w cfg with
      | inl _ => None
      | inr run => Some (print_summary (report run))
      end
  end.

(** *** load_config_from_tfvars and main *)

(** A JSON object read as expected configuration: the keys that the
    validator knows, and whether the object has any other key. *)
Record Dict := {
  known : ExpectedConfig;
  other_keys : bool
}.

Definition no_expectations : ExpectedConfig :=
  {| vpc_id := None; security_group_name := None; cfg_description := None;
     ingress_rules := None; egress_rules := None; tags := None |}.

(** [{}] *)
Definition empty_dict : Dict := {| known := no_expectations; other_keys := false |}.

(** [not expected_config]: a dict is falsy when it has no key. *)
Definition is_empty (d : Dict) : bool :=
  negb (other_keys d) &&
  match vpc_id (known d), security_group_name (known d), cfg_description (known d),
        ingress_rules (known d), egress_rules (known d), tags (known d) with
  | None, None, None, None, None, None => true
  | _, _, _, _, _, _ => false
  end.

(** What [os.path.exists] and [json.load] see of the configuration file. *)
Inductive tfvars :=
  | TfvarsMissing
  | TfvarsUnreadable (e : string)
  | TfvarsParsed (d : Dict).

(** [tfvars_file.endswith('.json')] *)
Definition is_json (tfvars_file : string) : bool :=
  String.prefix (String.rev ".json") (String.rev tfvars_file).

(** [inl] carries the text of the exception that [json.load] raises. *)
Definition load_config_from_tfvars (tfvars_file : string) (file : tfvars)
    : string + Dict :=
  match file with
  | TfvarsMissing => inr empty_dict
  | TfvarsUnreadable e => if is_json tfvars_file then inl e else inr empty_dict
  | TfvarsParsed d => if is_json tfvars_file then inr d else inr empty_dict
  end.

(** The configuration that [main] builds when none is loaded. *)
Definition minimal_config : ExpectedConfig :=
  {| vpc_id := None; security_group_name := None; cfg_description := None;
     ingress_rules := Some []; egress_rules := Some []; tags := Some [] |}.

(** [main], from the parsed arguments [--sg-id] and [--config] to the exit
    status; an exception that leaves [main] ends the process with 1. *)
Definition main (sg_id config : string) (file : tfvars) (w : World) : Z :=
  match load_config_from_tfvars config file with
  | inl _ => 1
  | inr d =>
      let expected_config := if is_empty d then minimal_config else known d in
      exit_code (run_all_validations sg_id w expected_config)
  end.

End PostDeploy.

(** ** Validate_terraform.py: SecurityGroupConfigValidator *)

Module ConfigCheck.

(** One rule of the specification (a dict); an absent key is [None]. *)
Record Rule := {
  from_port : option Z;
  to_port : option Z;
  protocol : option string;
  cidr_blocks : option (list string);
  description : option string
}.

(** The entries appended to [self.errors] and [self.warnings]. *)
Inductive message :=
  | MissingFields (rule_num : nat) (missing : list string)
  | PortOrder (rule_num : nat) (fromp top : Z)
  | UnusualProtocol (rule_num : nat) (proto : string)
  | PortOpenToInternet (rule_num : nat) (port : Z)
  | NoDescription (rule_num : nat)
  | EgressMissingFields (rule_num : nat) (missing : list string)
  | NoEgressRules.

Record validator := {
  errors : list message;
  warnings : list message
}.

Definition initial : validator := {| errors := []; warnings := [] |}.

Definition add_error (m : message) (v : validator) : validator :=
  {| errors := errors v ++ [m]; warnings := warnings v |}.
Definition add_warning (m : message) (v : validator) : validator :=
  {| errors := errors v; warnings := warnings v ++ [m] |}.
Definition add_warnings (ms : list message) (v : validator) : validator :=
  {| errors := errors v; warnings := warnings v ++ ms |}.

Definition no_errors (v : validator) : bool :=
  match errors v with [] => true | _ :: _ => false end.

Definition absent {A} (name : string) (o : option A) : list string :=
  match o with Some _ => [] | None => [name] end.

(** [[f for f in required_fields if f not in rule]] *)
Definition missing_fields (rule : Rule) : list string :=
  absent "from_port" (from_port rule) ++ absent "to_port" (to_port rule) ++
  absent "protocol" (protocol rule) ++ absent "cidr_blocks" (cidr_blocks rule).

Definition valid_protocols : list string := ["tcp"; "udp"; "icmp"; "-1"]%string.

Definition sensitive_ports : list Z := [22; 3389; 3306; 5432; 27017].

Definition internet : string := "0.0.0.0/0".

(** The body of the loop of [validate_ingress_rules] for the rule numbered
    [rule_num]. *)
Definition check_ingress_rule (rule_num : nat) (rule : Rule) (v : validator)
    : validator :=
  match from_port rule, to_port rule, protocol rule, cidr_blocks rule with
  | Some from_p, Some to_p, Some proto, Some cidrs =>
      let v1 :=
        if to_p <? from_p then add_error (PortOrder rule_num from_p to_p) v else v in
      let v2 :=
        if bool_decide (proto ∈ valid_protocols) then v1
        else add_warning (UnusualProtocol rule_num proto) v1 in
      let v3 :=
        if bool_decide (internet ∈ cidrs)
        then add_warnings
               (flat_map (λ port, if (from_p <=? port) && (port <=? to_p)
                                  then [PortOpenToInternet rule_num port] else [])
                         sensitive_ports) v2
        else v2 in
      if truthy_str (description rule) then v3
      else add_warning (NoDescription rule_num) v3
  | _, _, _, _ => add_error (MissingFields rule_num (missing_fields rule)) v
  end.

Fixpoint check_ingress_rules (idx : nat) (rules : list Rule) (v : validator)
    : validator :=
  match rules with
  | [] => v
  | rule :: rest => check_ingress_rules (S idx) rest (check_ingress_rule (S idx) rule v)
  end.

Definition validate_ingress_rules (rules : list Rule) (v : validator)
    : bool * validator :=
  match rules with
  | [] => (true, v)
  | _ :: _ =>
      let v1 := check_ingress_rules 0 rules v in
      (no_errors v1, v1)
  end.

Definition check_egress_rule (rule_num : nat) (rule : Rule) (v : validator)
    : validator :=
  match missing_fields rule with
  | [] => v
  | missing => add_error (EgressMissingFields rule_num missing) v
  end.

Fixpoint check_egress_rules (idx : nat) (rules : list Rule) (v : validator)
    : validator :=
  match rules with
  | [] => v
  | rule :: rest => check_egress_rules (S idx) rest (check_egress_rule (S idx) rule v)
  end.

Definition validate_egress_rules (rules : list Rule) (v : validator)
    : bool * validator :=
  match rules with
  | [] => (true, add_warning NoEgressRules v)
  | _ :: _ =>
      let v1 := check_egress_rules 0 rules v in
      (no_errors v1, v1)
  end.

(** *** Vocabulary of the properties *)

(** [m] is an error that the loop records for the rule [rule] numbered
    [n]: a required field is missing, or all are there and the port range
    is reversed. *)
Definition rule_error (n : nat) (rule : Rule) (m : message) : Prop :=
  (missing_fields rule ≠ [] ∧ m = MissingFields n (missing_fields rule)) ∨
  (∃ f t, from_port rule = Some f ∧ to_port rule = Some t ∧
          is_Some (protocol rule) ∧ is_Some (cidr_blocks rule) ∧
          t < f ∧ m = PortOrder n f t).

(** *** Scenarios *)

Definition rule_with_protocol (proto : string) : Rule :=
  {| from_port := Some 80; to_port := Some 80; protocol := Some proto;
     cidr_blocks := Some ["10.0.0.0/8"%string];
     description := Some "application"%string |}.

End ConfigCheck.

(** ** Run_all_tests.py: TestRunner *)

Module Runner.

Inductive status := pending | passed | failed | skipped.

Global Instance status_eq_dec : EqDecision status.
Proof. solve_decision. Defined.

Record PhaseResult := {
  phase_status : status;
  details : list string
}.

(** [self.results], one entry per key. *)
Record Results := {
  pre_deployment : PhaseResult;
  terraform_test : PhaseResult;
  integration_test : PhaseResult;
  post_deployment : PhaseResult
}.

(** The recognized options of [self.config]; an absent key is [None]. *)
Record Config := {
  run_pre_deployment : option bool;
  run_terraform_tests : option bool;
  run_integration_tests : option bool;
  run_post_deployment : option bool;
  cleanup_enabled : option bool;
  fail_fast : option bool
}.

(** [self.config.get(key, d)] *)
Definition config_get (o : option bool) (d : bool) : bool := default d o.

(** The external processes that the runner starts. *)
Inductive command :=
  | ValidateTerraform
  | TerraformTest
  | TerraformInit
  | TerraformPlan
  | TerraformApply
  | TerraformOutput
  | Pytest
  | ValidatePostDeployment
  | TerraformDestroy.

Global Instance command_eq_dec : EqDecision command.
Proof. solve_decision. Defined.

(** How [subprocess.run] ends inside [run_command]. *)
Inductive proc_result :=
  | Completed (returncode : Z) (stdout stderr : string)
  | TimeoutExpired
  | ProcException (e : string).

(** Everything outside the program that a run reads. *)
Record World := {
  w_proc : command → proc_result;
  (** [os.listdir('tests')]: the exception text, or the file names *)
  w_listdir : string + list string;
  (** [json.loads(stdout)] followed by
      [outputs.get('security_group_id', {}).get('value')] *)
  w_parse_outputs : string → string + option string;
  (** the exception raised while writing [outputs.json], if any *)
  w_write_outputs : option string;
  (** the exception raised by the direct [subprocess.run] of pytest, if any *)
  w_pytest : option string;
  (** [report['summary'].get('failed', 0)]; [None] when reading the report
      raises, which the bare [except] swallows *)
  w_report_failed : option Z
}.

(** What a run does that can be observed from outside. *)
Inductive event :=
  | Ran (c : command)
  | ExceptionIn (phase_name e : string)
  | CleanupException (e : string)
  | FinalSummary (failed_phases : list string).

Global Instance event_eq_dec : EqDecision event.
Proof. solve_decision. Defined.

(** The fields of a [TestRunner] that change during a run, and the trace of
    its observable events. *)
Record runner := {
  results : Results;
  security_group_id : option string;
  trace : list event
}.

Definition pending_result : PhaseResult :=
  {| phase_status := pending; details := [] |}.

(** [TestRunner.__init__] *)
Definition init : runner :=
  {| results := {| pre_deployment := pending_result;
                   terraform_test := pending_result;
                   integration_test := pending_result;
                   post_deployment := pending_result |};
     security_group_id := None;
     trace := [] |}.

Definition log (e : event) (r : runner) : runner :=
  {| results := results r; security_group_id := security_group_id r;
     trace := trace r ++ [e] |}.

Definition set_results (rs : Results) (r : runner) : runner :=
  {| results := rs; security_group_id := security_group_id r; trace := trace r |}.

Definition set_security_group_id (i : option string) (r : runner) : runner :=
  {| results := results r; security_group_id := i; trace := trace r |}.

(** The keys of [self.results]. *)
Inductive phase_key := PreDeployment | TerraformTests | IntegrationTest | PostDeployment.

Global Instance phase_key_eq_dec : EqDecision phase_key.
Proof. solve_decision. Defined.

Definition get_result (k : phase_key) (rs : Results) : PhaseResult :=
  match k with
  | PreDeployment => pre_deployment rs
  | TerraformTests => terraform_test rs
  | IntegrationTest => integration_test rs
  | PostDeployment => post_deployment rs
  end.

Definition put_result (k : phase_key) (p : PhaseResult) (rs : Results) : Results :=
  match k with
  | PreDeployment =>
      {| pre_deployment := p; terraform_test := terraform_test rs;
         integration_test := integration_test rs; post_deployment := post_deployment rs |}
  | TerraformTests =>
      {| pre_deployment := pre_deployment rs; terraform_test := p;
         integration_test := integration_test rs; post_deployment := post_deployment rs |}
  | IntegrationTest =>
      {| pre_deployment := pre_deployment rs; terraform_test := terraform_test rs;
         integration_test := p; post_deployment := post_deployment rs |}
  | PostDeployment =>
      {| pre_deployment := pre_deployment rs; terraform_test := terraform_test rs;
         integration_test := integration_test rs; post_deployment := p |}
  end.

(** [self.results[k]['status'] = s] *)
Definition set_status (k : phase_key) (s : status) (r : runner) : runner :=
  set_results
    (put_result k {| phase_status := s; details := details (get_result k (results r)) |}
                (results r)) r.

(** [self.results[k]['details'].append(d)] *)
Definition add_detail (k : phase_key) (d : string) (r : runner) : runner :=
  set_results
    (put_result k {| phase_status := phase_status (get_result k (results r));
                     details := details (get_result k (results r)) ++ [d] |}
                (results r)) r.

(** How a call of a phase ends. *)
Inductive outcome :=
  | Returned (b : bool)
  | Raised (e : string).

(** [run_command]: it never raises; a timeout or any other exception is
    turned into return code 1. *)
Definition run_command (w : World) (c : command) (r : runner)
    : runner * (Z * string * string) :=
  (log (Ran c) r,
   match w_proc w c with
   | Completed rc out err => (rc, out, err)
   | TimeoutExpired => (1, ""%string, "Command timed out"%string)
   | ProcException e => (1, ""%string, e)
   end).

Definition returncode (x : Z * string * string) : Z := x.1.1.
Definition stdout (x : Z * string * string) : string := x.1.2.

(** [f.endswith(suffix)] *)
Definition endswith (f suffix : string) : bool :=
  String.prefix (String.rev suffix) (String.rev f).

Definition phase_1_pre_deployment_validation (w : World) (cfg : Config)
    (r : runner) : runner * outcome :=
  if negb (config_get (run_pre_deployment cfg) true)
  then (set_status PreDeployment skipped r, Returned true)
  else
    let '(r1, res) := run_command w ValidateTerraform r in
    if returncode res =? 0
    then (add_detail PreDeployment "All validations passed"
            (set_status PreDeployment passed r1), Returned true)
    else (add_detail PreDeployment "Validation failed"
            (set_status PreDeployment failed r1), Returned false).

Definition phase_2_terraform_native_tests (w : World) (cfg : Config)
    (r : runner) : runner * outcome :=
  if negb (config_get (run_terraform_tests cfg) true)
  then (set_status TerraformTests skipped r, Returned true)
  else
    match w_listdir w with
    | inl e => (r, Raised e)
    | inr files =>
        match filter (λ f, endswith f ".tftest.hcl" = true) files with
        | [] => (set_status TerraformTests skipped r, Returned true)
        | _ :: _ =>
            let '(r1, res) := run_command w TerraformTest r in
            if returncode res =? 0
            then (add_detail TerraformTests "All Terraform tests passed"
                    (set_status TerraformTests passed r1), Returned true)
            else (add_detail TerraformTests "Terraform tests failed"
                    (set_status TerraformTests failed r1), Returned false)
        end
    end.

(** Steps 3.4 and 3.5 of phase 3, reached once [terraform apply] has
    succeeded. *)
Definition integration_steps (w : World) (r : runner) : runner * outcome :=
  let '(r1, res) := run_command w TerraformOutput r in
  let extracted : (runner * string) + runner :=
    if returncode res =? 0
    then
      match w_parse_outputs w (stdout res) with
      | inl e => inl (r1, e)
      | inr sg_id =>
          let r2 := set_security_group_id sg_id r1 in
          match w_write_outputs w with
          | Some e => inl (r2, e)
          | None => inr r2
          end
      end
    else inr r1 in
  match extracted with
  | inl (r2, e) => (r2, Raised e)
  | inr r2 =>
      let r3 := log (Ran Pytest) r2 in
      match w_pytest w with
      | Some e => (r3, Raised e)
      | None =>
          match w_report_failed w with
          | Some n =>
              if 0 <? n
              then (add_detail IntegrationTest (pretty n ++ " test(s) failed")
                      (set_status IntegrationTest failed r3), Returned false)
              else (add_detail IntegrationTest "All integration tests passed"
                      (set_status IntegrationTest passed r3), Returned true)
          | None =>
              (add_detail IntegrationTest "All integration tests passed"
                 (set_status IntegrationTest passed r3), Returned true)
          end
      end
  end.

Definition phase_3_deploy_and_integration_test (w : World) (cfg : Config)
    (r : runner) : runner * outcome :=
  if negb (config_get (run_integration_tests cfg) true)
  then (set_status IntegrationTest skipped r, Returned true)
  else
    let '(r1, res) := run_command w TerraformInit r in
    if negb (returncode res =? 0)
    then (set_status IntegrationTest failed r1, Returned false)
    else
      let '(r2, res) := run_command w TerraformPlan r1 in
      if negb (returncode res =? 0)
      then (set_status IntegrationTest failed r2, Returned false)
      else
        let '(r3, res) := run_command w TerraformApply r2 in
        if negb (returncode res =? 0)
        then (set_status IntegrationTest failed r3, Returned false)
        else integration_steps w r3.

Definition phase_4_post_deployment_validation (w : World) (cfg : Config)
    (r : runner) : runner * outcome :=
  if negb (config_get (run_post_deployment cfg) true)
  then (set_status PostDeployment skipped r, Returned true)
  else if negb (truthy_str (security_group_id r))
  then (set_status PostDeployment skipped r, Returned true)
  else
    let '(r1, res) := run_command w ValidatePostDeployment r in
    if returncode res =? 0
    then (add_detail PostDeployment "Post-deployment validation passed"
            (set_status PostDeployment passed r1), Returned true)
    else (add_detail PostDeployment "Post-deployment validation failed"
            (set_status PostDeployment failed r1), Returned false).

(** [cleanup]: the only place where [terraform destroy] is started. *)
Definition cleanup (w : World) (cfg : Config) (r : runner) : runner * outcome :=
  if negb (config_get (cleanup_enabled cfg) true)
  then (r, Returned true)
  else
    let '(r1, res) := run_command w TerraformDestroy r in
    if returncode res =? 0
    then (r1, Returned true)
    else (r1, Returned false).

Definition phase : Type := string * (runner → runner * outcome).

(** The list [phases] of [run_all_phases]. *)
Definition phases (w : World) (cfg : Config) : list (phase_key * phase) :=
  [ (PreDeployment,
      ("Pre-Deployment Validation"%string, phase_1_pre_deployment_validation w cfg));
    (TerraformTests,
      ("Terraform Native Tests"%string, phase_2_terraform_native_tests w cfg));
    (IntegrationTest,
      ("Deployment & Integration"%string, phase_3_deploy_and_integration_test w cfg));
    (PostDeployment,
      ("Post-Deployment Validation"%string, phase_4_post_deployment_validation w cfg)) ].

(** The loop [for phase_name, phase_func in phases] with its [try], entered
    with the current value of [all_passed]. *)
Fixpoint run_phases (cfg : Config) (ps : list phase) (all_passed : bool)
    (r : runner) : runner * bool :=
  match ps with
  | [] => (r, all_passed)
  | (phase_name, phase_func) :: rest =>
      match phase_func r with
      | (r1, Returned true) => run_phases cfg rest all_passed r1
      | (r1, Returned false) =>
          if config_get (fail_fast cfg) false then (r1, false)
          else run_phases cfg rest false r1
      | (r1, Raised e) =>
          let r2 := log (ExceptionIn phase_name e) r1 in
          if config_get (fail_fast cfg) false then (r2, false)
          else run_phases cfg rest false r2
      end
  end.

Definition key_name (k : phase_key) : string :=
  match k with
  | PreDeployment => "pre_deployment"
  | TerraformTests => "terraform_test"
  | IntegrationTest => "integration_test"
  | PostDeployment => "post_deployment"
  end.

Definition all_keys : list phase_key :=
  [PreDeployment; TerraformTests; IntegrationTest; PostDeployment].

(** [[p for p, r in self.results.items() if r['status'] == 'failed']] *)
Definition failed_phases (rs : Results) : list string :=
  key_name <$>
    filter (λ k, phase_status (get_result k rs) = failed) all_keys.

(** [print_final_summary]: it reads the results and changes nothing. *)
Definition print_final_summary (r : runner) : runner :=
  log (FinalSummary (failed_phases (results r))) r.

(** The part of [run_all_phases] after the loop. *)
Definition finish (w : World) (cfg : Config) (r : runner) : runner :=
  let r1 :=
    if config_get (cleanup_enabled cfg) true
    then
      match cleanup w cfg r with
      | (r', Returned _) => r'
      | (r', Raised e) => log (CleanupException e) r'
      end
    else r in
  print_final_summary r1.

Definition run_all_phases (w : World) (cfg : Config) (r : runner) : runner * bool :=
  let '(r1, all_passed) := run_phases cfg ((phases w cfg).*2) true r in
  (finish w cfg r1, all_passed).

(** [main] after the configuration is loaded:
    [sys.exit(0 if success else 1)]. *)
Definition main (w : World) (cfg : Config) : runner * Z :=
  let '(r, success) := run_all_phases w cfg init in
  (r, if success then 0 else 1).

(** *** Scenarios *)

(** Every option at its default. *)
Definition default_config : Config :=
  {| run_pre_deployment := None; run_terraform_tests := None;
     run_integration_tests := None; run_post_deployment := None;
     cleanup_enabled := None; fail_fast := None |}.

(** [--fail-fast] *)
Definition fail_fast_config : Config :=
  {| run_pre_deployment := None; run_terraform_tests := None;
     run_integration_tests := None; run_post_deployment := None;
     cleanup_enabled := None; fail_fast := Some true |}.

(** A world in which every process succeeds, the directory [tests] holds
    one Terraform test file and the deployed group is [sg-1]. *)
Definition healthy : World :=
  {| w_proc := λ _, Completed 0 "" "";
     w_listdir := inr ["main.tftest.hcl"%string];
     w_parse_outputs := λ _, inr (Some "sg-1"%string);
     w_write_outputs := None;
     w_pytest := None;
     w_report_failed := Some 0 |}.

(** The same world with the result [p] for the process [c]. *)
Definition with_proc (w : World) (c : command) (p : proc_result) : World :=
  {| w_proc := λ c', if decide (c' = c) then p else w_proc w c';
     w_listdir := w_listdir w;
     w_parse_outputs := w_parse_outputs w;
     w_write_outputs := w_write_outputs w;
     w_pytest := w_pytest w;
     w_report_failed := w_report_failed w |}.

(** The same world without a directory [tests]. *)
Definition without_tests_dir (w : World) : World :=
  {| w_proc := w_proc w;
     w_listdir := inl "[Errno 2] No such file or directory: 'tests'"%string;
     w_parse_outputs := w_parse_outputs w;
     w_write_outputs := w_write_outputs w;
     w_pytest := w_pytest w;
     w_report_failed := w_report_failed w |}.

(** *** Vocabulary of the properties *)

(** The state in which the loop leaves the runner after a phase named
    [name] has ended in [(r, o)]. *)
Definition after_phase (name : string) (x : runner * outcome) : runner :=
  match x.2 with
  | Raised e => log (ExceptionIn name e) x.1
  | Returned _ => x.1
  end.

(** The phase function leaves the result of the key [k] as it is. *)
Definition keeps (k : phase_key) (f : runner → runner * outcome) : Prop :=
  ∀ r, get_result k (results (f r).1) = get_result k (results r).

(** The phase function only appends to the trace, and never starts
    [terraform destroy]. *)
Definition no_destroy (f : runner → runner * outcome) : Prop :=
  ∀ r, ∃ evs, trace (f r).1 = trace r ++ evs ∧ Ran TerraformDestroy ∉ evs.

(** *** load_config and the command line of main *)

(** The flags of the command line. *)
Record Args := {
  skip_pre : bool;
  skip_terraform_test : bool;
  skip_integration : bool;
  skip_post : bool;
  no_cleanup : bool;
  arg_fail_fast : bool
}.

(** What [os.path.exists] and [json.load] see of the configuration file. *)
Inductive config_file :=
  | ConfigMissing
  | ConfigUnreadable (e : string)
  | ConfigParsed (cfg : Config).

(** The dict that [load_config] returns when there is no file. *)
Definition builtin_config : Config :=
  {| run_pre_deployment := Some true; run_terraform_tests := Some true;
     run_integration_tests := Some true; run_post_deployment := Some true;
     cleanup_enabled := Some true; fail_fast := Some false |}.

Definition load_config (file : config_file) : string + Config :=
  match file with
  | ConfigMissing => inr builtin_config
  | ConfigUnreadable e => inl e
  | ConfigParsed cfg => inr cfg
  end.

(** "Override with CLI args": a flag that is set overwrites the option, a
    flag that is not set leaves it as loaded. *)
Definition override (args : Args) (cfg : Config) : Config :=
  {| run_pre_deployment :=
       if skip_pre args then Some false else run_pre_deployment cfg;
     run_terraform_tests :=
       if skip_terraform_test args then Some false else run_terraform_tests cfg;
     run_integration_tests :=
       if skip_integration args then Some false else run_integration_tests cfg;
     run_post_deployment :=
       if skip_post args then Some false else run_post_deployment cfg;
     cleanup_enabled :=
       if no_cleanup args then Some false else cleanup_enabled cfg;
     fail_fast :=
       if arg_fail_fast args then Some true else fail_fast cfg |}.

(** [main] from the parsed arguments: the final runner, if one was built,
    and the exit status (1 when [load_config] raises). *)
Definition main_with_args (args : Args) (file : config_file) (w : World)
    : option runner * Z :=
  match load_config file with
  | inl _ => (None, 1)
  | inr cfg =>
      let '(r, code) := main w (override args cfg) in
      (Some r, code)
  end.

(** *** Vocabulary of further properties *)

(** The return code that [run_command] reports for a process. *)
Definition rc (w : World) (c : command) : Z :=
  match w_proc w c with
  | Completed code _ _ => code
  | TimeoutExpired => 1
  | ProcException _ => 1
  end.

(** A status that a phase leaves when it returns [b]. *)
Definition agrees (b : bool) (s : status) : Prop :=
  if b then s = passed ∨ s = skipped else s = failed.

Definition phase_name (k : phase_key) : string :=
  match k with
  | PreDeployment => "Pre-Deployment Validation"
  | TerraformTests => "Terraform Native Tests"
  | IntegrationTest => "Deployment & Integration"
  | PostDeployment => "Post-Deployment Validation"
  end.

(** The standard output that [run_command] reports for a process. *)
Definition out (w : World) (c : command) : string :=
  match w_proc w c with
  | Completed _ o _ => o
  | TimeoutExpired => ""
  | ProcException _ => ""
  end.

(** The option is on: present and true, or absent with default [True]. *)
Definition enabled (o : option bool) : Prop := config_get o true = true.

(** [terraform init], [plan] and [apply] are reached and succeed. *)
Definition applied (w : World) (cfg : Config) : Prop :=
  enabled (run_integration_tests cfg) ∧
  rc w TerraformInit = 0 ∧ rc w TerraformPlan = 0 ∧ rc w TerraformApply = 0.

(** The outputs of a successful deployment give a non-empty identifier. *)
Definition deployed (w : World) (cfg : Config) : Prop :=
  applied w cfg ∧ rc w TerraformOutput = 0 ∧
  ∃ sg_id, w_parse_outputs w (out w TerraformOutput) = inr (Some sg_id) ∧
           sg_id ≠ ""%string.

(** What must hold for an event to occur in a run. *)
Definition justified (w : World) (cfg : Config) (ev : event) : Prop :=
  match ev with
  | Ran ValidateTerraform => enabled (run_pre_deployment cfg)
  | Ran TerraformTest =>
      enabled (run_terraform_tests cfg) ∧
      ∃ files f, w_listdir w = inr files ∧ f ∈ files ∧
                 endswith f ".tftest.hcl" = true
  | Ran TerraformInit => enabled (run_integration_tests cfg)
  | Ran TerraformPlan =>
      enabled (run_integration_tests cfg) ∧ rc w TerraformInit = 0
  | Ran TerraformApply =>
      enabled (run_integration_tests cfg) ∧
      rc w TerraformInit = 0 ∧ rc w TerraformPlan = 0
  | Ran TerraformOutput => applied w cfg
  | Ran Pytest => applied w cfg
  | Ran ValidatePostDeployment =>
      enabled (run_post_deployment cfg) ∧ deployed w cfg
  | Ran TerraformDestroy => enabled (cleanup_enabled cfg)
  | ExceptionIn _ _ => True
  | CleanupException _ => True
  | FinalSummary _ => True
  end.

(** The runner holds an identifier only if one was deployed, and every
    event of its trace is justified. *)
Definition sound (w : World) (cfg : Config) (r : runner) : Prop :=
  (truthy_str (security_group_id r) = true → deployed w cfg) ∧
  Forall (justified w cfg) (trace r).

(** The runner has recorded no failed phase and caught no exception. *)
Definition clean (r : runner) : Prop :=
  (∀ k, phase_status (get_result k (results r)) ≠ failed) ∧
  (∀ name e, ExceptionIn name e ∉ trace r).

End Runner.

(** ** Validate_terraform.py: TerraformValidator *)

Module TerraformValidator.

(** The external processes that the validator starts. *)
Inductive command :=
  | Fmt
  | Init
  | Validate
  | Plan
  | WhichCheckov
  | Checkov
  | WhichTflint
  | TflintInit
  | Tflint.

Global Instance command_eq_dec : EqDecision command.
Proof. solve_decision. Defined.

(** What is left of the standard output of [terraform validate -json]
    after [json.loads] and [.get('valid', False)]. *)
Inductive validate_json :=
  | JsonDecodeError
  | JsonNotObject (e : string)
  | JsonObject (valid : bool).

(** What [os.path.exists], [open] and [read] see of a file. *)
Inductive file_read :=
  | Absent
  | Unreadable (e : string)
  | Content (text : string).

(** Everything outside the program that a run reads. *)
Record World := {
  w_proc : command → Runner.proc_result;
  w_validate_json : string → validate_json;
  w_variables_tf : bool;
  w_outputs_tf : file_read
}.

(** [self.errors], [self.warnings], and the processes started so far. *)
Record validator := {
  errors : list string;
  warnings : list string;
  trace : list command
}.

(** [TerraformValidator.__init__] *)
Definition init : validator := {| errors := []; warnings := []; trace := [] |}.

Definition add_error (m : string) (v : validator) : validator :=
  {| errors := errors v ++ [m]; warnings := warnings v; trace := trace v |}.
Definition add_warning (m : string) (v : validator) : validator :=
  {| errors := errors v; warnings := warnings v ++ [m]; trace := trace v |}.

(** [run_command]: a timeout or any other exception is turned into return
    code 1. *)
Definition run_command (w : World) (c : command) (v : validator)
    : validator * (Z * string * string) :=
  ({| errors := errors v; warnings := warnings v; trace := trace v ++ [c] |},
   match w_proc w c with
   | Runner.Completed code out err => (code, out, err)
   | Runner.TimeoutExpired => (1, ""%string, "Command timed out"%string)
   | Runner.ProcException e => (1, ""%string, e)
   end).

Definition test : Type := validator → validator * Runner.outcome.

Definition test_terraform_format (w : World) : test := λ v,
  let '(v1, res) := run_command w Fmt v in
  if negb (Runner.returncode res =? 0)
  then (add_error "Terraform files are not properly formatted" v1,
        Runner.Returned false)
  else (v1, Runner.Returned true).

Definition test_terraform_init (w : World) : test := λ v,
  let '(v1, res) := run_command w Init v in
  if negb (Runner.returncode res =? 0)
  then (add_error "Terraform init failed" v1, Runner.Returned false)
  else (v1, Runner.Returned true).

Definition test_terraform_validate (w : World) : test := λ v,
  let '(v1, res) := run_command w Validate v in
  if negb (Runner.returncode res =? 0)
  then (add_error "Terraform validation failed" v1, Runner.Returned false)
  else
    match w_validate_json w (Runner.stdout res) with
    | JsonDecodeError => (v1, Runner.Returned true)
    | JsonNotObject e => (v1, Runner.Raised e)
    | JsonObject valid =>
        if negb valid
        then (add_error "Configuration is not valid" v1, Runner.Returned false)
        else (v1, Runner.Returned true)
    end.

(** [_analyze_plan_output] only prints. *)
Definition test_terraform_plan (w : World) : test := λ v,
  let '(v1, res) := run_command w Plan v in
  if negb (Runner.returncode res =? 0)
  then (add_error "Terraform plan failed" v1, Runner.Returned false)
  else (v1, Runner.Returned true).

Definition test_security_scan_checkov (w : World) : test := λ v,
  let '(v1, check_cmd) := run_command w WhichCheckov v in
  if negb (Runner.returncode check_cmd =? 0)
  then (add_warning "Checkov not installed, skipping security scan" v1,
        Runner.Returned true)
  else
    let '(v2, _) := run_command w Checkov v1 in
    (v2, Runner.Returned true).

Definition test_tflint (w : World) : test := λ v,
  let '(v1, check_cmd) := run_command w WhichTflint v in
  if negb (Runner.returncode check_cmd =? 0)
  then (add_warning "TFLint not installed, skipping" v1, Runner.Returned true)
  else
    let '(v2, _) := run_command w TflintInit v1 in
    let '(v3, _) := run_command w Tflint v2 in
    (v3, Runner.Returned true).

Definition test_variable_validation (w : World) : test := λ v,
  if negb (w_variables_tf w)
  then (add_warning "variables.tf not found" v, Runner.Returned true)
  else (v, Runner.Returned true).

Definition expected_outputs : list string :=
  ["security_group_id"; "security_group_name"; "security_group_arn"]%string.

Definition double_quote : string := String (Ascii.ascii_of_nat 34) EmptyString.

(** [f'output "{output}"' in content or f"output '{output}'" in content] *)
Definition declares (content output : string) : bool :=
  py_in ("output " ++ double_quote ++ output ++ double_quote) content ||
  py_in ("output '" ++ output ++ "'") content.

Definition test_output_validation (w : World) : test := λ v,
  match w_outputs_tf w with
  | Absent => (add_warning "outputs.tf not found" v, Runner.Returned true)
  | Unreadable e =>
      (add_warning ("Could not read outputs.tf: " ++ e) v, Runner.Returned true)
  | Content content =>
      match filter (λ output, declares content output = true) expected_outputs with
      | [] => (add_warning "No standard outputs found" v, Runner.Returned true)
      | _ :: _ => (v, Runner.Returned true)
      end
  end.

(** The list [tests] of [run_all_tests]. *)
Definition tests (w : World) : list test :=
  [ test_terraform_format w; test_terraform_init w; test_terraform_validate w;
    test_terraform_plan w; test_security_scan_checkov w; test_tflint w;
    test_variable_validation w; test_output_validation w ].

(** The body of the loop of [run_all_tests]: the [try] around one test. *)
Definition attempt (t : test) (v : validator) : validator * bool :=
  match t v with
  | (v', Runner.Returned b) => (v', b)
  | (v', Runner.Raised e) =>
      (add_error ("Test failed with exception: " ++ e) v', false)
  end.

(** The loop [for test in tests]; it returns [results]. *)
Fixpoint run_tests (ts : list test) (v : validator) : validator * list bool :=
  match ts with
  | [] => (v, [])
  | t :: rest =>
      let '(v1, result) := attempt t v in
      let '(v2, results) := run_tests rest v1 in
      (v2, result :: results)
  end.

Definition run_all_tests (w : World) (v : validator) : validator * bool :=
  let '(v1, results) := run_tests (tests w) v in
  (v1, forallb id results &&
       match errors v1 with [] => true | _ :: _ => false end).

(** [main] from the parsed flag [--skip-tools] to the exit status. *)
Definition main (skip_tools : bool) (w : World) : validator * Z :=
  let v :=
    if skip_tools then add_warning "External tool checks skipped" init else init in
  let '(v1, success) := run_all_tests w v in
  (v1, if success then 0 else 1).

(** *** Vocabulary of the properties *)

(** The return code that [run_command] reports for a process. *)
Definition rc (w : World) (c : command) : Z :=
  match w_proc w c with
  | Runner.Completed code _ _ => code
  | Runner.TimeoutExpired => 1
  | Runner.ProcException _ => 1
  end.

(** The standard output that [run_command] reports for a process. *)
Definition out (w : World) (c : command) : string :=
  match w_proc w c with
  | Runner.Completed _ o _ => o
  | Runner.TimeoutExpired => ""
  | Runner.ProcException _ => ""
  end.

(** The four Terraform commands succeed and the validation report, when it
    can be decoded, is an object that says [valid]. *)
Definition terraform_ok (w : World) : bool :=
  (rc w Fmt =? 0) && (rc w Init =? 0) && (rc w Validate =? 0) &&
  match w_validate_json w (out w Validate) with
  | JsonDecodeError => true
  | JsonNotObject _ => false
  | JsonObject valid => valid
  end &&
  (rc w Plan =? 0).

(** The processes that a run starts, in order. *)
Definition expected_trace (w : World) : list command :=
  [Fmt; Init; Validate; Plan; WhichCheckov] ++
  (if rc w WhichCheckov =? 0 then [Checkov] else []) ++
  [WhichTflint] ++
  (if rc w WhichTflint =? 0 then [TflintInit; Tflint] else []).

(** What one test adds to the validator, and the value it contributes to
    [results]. *)
Record effect := {
  e_ok : bool;
  e_errors : list string;
  e_warnings : list string;
  e_trace : list command
}.

Definition apply_effect (x : effect) (v : validator) : validator * bool :=
  ({| errors := errors v ++ e_errors x;
      warnings := warnings v ++ e_warnings x;
      trace := trace v ++ e_trace x |}, e_ok x).

(** The effect of a test that runs one command and fails with [msg] when
    the command fails. *)
Definition command_effect (w : World) (c : command) (msg : string) : effect :=
  {| e_ok := rc w c =? 0;
     e_errors := if rc w c =? 0 then [] else [msg];
     e_warnings := [];
     e_trace := [c] |}.

Definition validate_effect (w : World) : effect :=
  if negb (rc w Validate =? 0)
  then {| e_ok := false; e_errors := ["Terraform validation failed"%string];
          e_warnings := []; e_trace := [Validate] |}
  else
    match w_validate_json w (out w Validate) with
    | JsonDecodeError =>
        {| e_ok := true; e_errors := []; e_warnings := []; e_trace := [Validate] |}
    | JsonNotObject e =>
        {| e_ok := false; e_errors := [("Test failed with exception: " ++ e)%string];
           e_warnings := []; e_trace := [Validate] |}
    | JsonObject valid =>
        {| e_ok := valid;
           e_errors := if valid then [] else ["Configuration is not valid"%string];
           e_warnings := []; e_trace := [Validate] |}
    end.

(** The effect of a test that never fails. *)
Definition advisory (ws : list string) (cs : list command) : effect :=
  {| e_ok := true; e_errors := []; e_warnings := ws; e_trace := cs |}.

Definition outputs_warnings (w : World) : list string :=
  match w_outputs_tf w with
  | Absent => ["outputs.tf not found"%string]
  | Unreadable e => [("Could not read outputs.tf: " ++ e)%string]
  | Content content =>
      match filter (λ output, declares content output = true) expected_outputs with
      | [] => ["No standard outputs found"%string]
      | _ :: _ => []
      end
  end.

(** The effects of the eight tests, in the order of [tests]. *)
Definition effects (w : World) : list effect :=
  [ command_effect w Fmt "Terraform files are not properly formatted";
    command_effect w Init "Terraform init failed";
    validate_effect w;
    command_effect w Plan "Terraform plan failed";
    advisory (if rc w WhichCheckov =? 0 then []
              else ["Checkov not installed, skipping security scan"%string])
             (WhichCheckov :: if rc w WhichCheckov =? 0 then [Checkov] else []);
    advisory (if rc w WhichTflint =? 0 then []
              else ["TFLint not installed, skipping"%string])
             (WhichTflint :: if rc w WhichTflint =? 0 then [TflintInit; Tflint] else []);
    advisory (if w_variables_tf w then [] else ["variables.tf not found"%string]) [];
    advisory (outputs_warnings w) [] ].

End TerraformValidator.

(** * Properties of Validate_post_deployment.py *)

Module PostDeployProps.
Import PostDeploy.

Implicit Types (st d : validation_results) (sg : SgDetails).
Implicit Types (e : ExpectedRule) (rule : IpPermission).

(** ** Rule matching *)

Lemma same_set_spec (xs ys : list string) :
  same_set xs ys = true ↔ ∀ c, c ∈ xs ↔ c ∈ ys.
Proof.
  unfold same_set. rewrite bool_decide_eq_true. split.
  - intros H c. rewrite <- !(elem_of_list_to_set (C := gset string)), H. done.
  - intros H. apply set_eq. intros c. rewrite !elem_of_list_to_set. apply H.
Qed.

Lemma find_ingress_cons e rule rest :
  _find_matching_ingress_rule e (rule :: rest) = true ↔
  hit e rule ∨ _find_matching_ingress_rule e rest = true.
Proof.
  unfold hit. cbn [_find_matching_ingress_rule].
  destruct (decide (IpProtocol rule = protocol e)) as [Hp|Hp];
    [rewrite (bool_decide_eq_true_2 _ Hp) | rewrite (bool_decide_eq_false_2 _ Hp)];
    cbn [negb];
    [|split; [auto | intros [(?&?&?&?)|?]; [congruence|done]]].
  destruct (decide (FromPort rule = from_port e)) as [Hf|Hf];
    [rewrite (bool_decide_eq_true_2 _ Hf) | rewrite (bool_decide_eq_false_2 _ Hf)];
    cbn [negb];
    [|split; [auto | intros [(?&?&?&?)|?]; [congruence|done]]].
  destruct (decide (ToPort rule = to_port e)) as [Ht|Ht];
    [rewrite (bool_decide_eq_true_2 _ Ht) | rewrite (bool_decide_eq_false_2 _ Ht)];
    cbn [negb];
    [|split; [auto | intros [(?&?&?&?)|?]; [congruence|done]]].
  destruct (cidr_blocks e) as [cs|].
  - destruct (same_set (IpRanges rule) cs) eqn:Hs.
    + split; [|done]. intros _. left. split_and!; try done.
      intros cs' [= <-]. by apply same_set_spec.
    + split; [auto|]. intros [(_ & _ & _ & H)|?]; [|done].
      specialize (H cs eq_refl). apply same_set_spec in H. congruence.
  - split; [|done]. intros _. left. by split_and!.
Qed.

Lemma find_ingress_spec e rules :
  _find_matching_ingress_rule e rules = true ↔ ∃ rule, rule ∈ rules ∧ hit e rule.
Proof.
  induction rules as [|rule rest IH].
  - split; [done|]. intros (? & H & _). by apply elem_of_nil in H.
  - rewrite find_ingress_cons, IH. split.
    + intros [Hh | (r & Hin & Hh)].
      * exists rule. split; [by left | done].
      * exists r. split; [by right | done].
    + intros (r & Hin & Hh). apply elem_of_cons in Hin as [-> | Hin]; [by left |].
      right. by exists r.
Qed.

Lemma find_egress_ingress e rules :
  _find_matching_egress_rule e rules = _find_matching_ingress_rule e rules.
Proof. induction rules as [|rule rest IH]; [done|]. cbn. by rewrite IH. Qed.

Lemma find_ingress_mono e rules more :
  rules ⊆ more →
  _find_matching_ingress_rule e rules = true →
  _find_matching_ingress_rule e more = true.
Proof. rewrite !find_ingress_spec. intros Hsub (rule & Hin & Hhit). eauto. Qed.

Lemma find_ingress_perm e rules rules' :
  rules ≡ₚ rules' →
  _find_matching_ingress_rule e rules = _find_matching_ingress_rule e rules'.
Proof.
  intros Hp. apply eq_true_iff_eq. rewrite !find_ingress_spec.
  by setoid_rewrite Hp.
Qed.

(** ** Every step only appends to the results *)

Lemma app_results_initial_l st : app_results initial_results st = st.
Proof. by destruct st. Qed.

Lemma app_results_initial_r st : app_results st initial_results = st.
Proof. destruct st. unfold app_results. cbn. by rewrite !app_nil_r. Qed.

Lemma add_passed_app m st d :
  add_passed m (app_results st d) = app_results st (add_passed m d).
Proof. unfold add_passed, app_results. cbn. by rewrite app_assoc. Qed.

Lemma add_failed_app m st d :
  add_failed m (app_results st d) = app_results st (add_failed m d).
Proof. unfold add_failed, app_results. cbn. by rewrite app_assoc. Qed.

Lemma add_warning_app m st d :
  add_warning m (app_results st d) = app_results st (add_warning m d).
Proof. unfold add_warning, app_results. cbn. by rewrite app_assoc. Qed.

Lemma add_warnings_app ms st d :
  add_warnings ms (app_results st d) = app_results st (add_warnings ms d).
Proof. unfold add_warnings, app_results. cbn. by rewrite app_assoc. Qed.

Ltac push_app :=
  repeat first [ rewrite add_passed_app | rewrite add_failed_app
               | rewrite add_warning_app | rewrite add_warnings_app ];
  try reflexivity.

Lemma basic_app sg cfg st d :
  validate_basic_properties sg cfg (app_results st d) =
  replay Cumulative st (validate_basic_properties sg cfg d).
Proof.
  unfold validate_basic_properties, replay.
  destruct (vpc_id cfg) as [v|]; [case_bool_decide|];
    (destruct (security_group_name cfg) as [n|];
       [destruct (GroupName sg) as [a|]; [|done];
        destruct (py_in n a || py_in a n)|]);
    (destruct (cfg_description cfg) as [c|]; [case_bool_decide|]);
    now push_app.
Qed.

Lemma check_ingress_app idx expected actual st d :
  check_ingress_rules idx expected actual (app_results st d) =
  match check_ingress_rules idx expected actual d with
  | inl e => inl e
  | inr d' => inr (app_results st d')
  end.
Proof.
  revert idx d. induction expected as [|e rest IH]; intros idx d; [done|].
  cbn [check_ingress_rules].
  destruct (_find_matching_ingress_rule e actual).
  - destruct (ingress_found_message (S idx) e) as [x|m]; [done|].
    by rewrite add_passed_app, IH.
  - by rewrite add_failed_app, IH.
Qed.

Lemma ingress_app sg expected st d :
  validate_ingress_rules sg expected (app_results st d) =
  replay Cumulative st (validate_ingress_rules sg expected d).
Proof.
  unfold validate_ingress_rules, replay. rewrite check_ingress_app.
  destruct (check_ingress_rules 0 expected (IpPermissions sg) d) as [x|d']; [done|].
  destruct (length expected <? length (IpPermissions sg))%nat; now push_app.
Qed.

Lemma check_egress_app idx expected actual st d :
  check_egress_rules idx expected actual (app_results st d) =
  app_results st (check_egress_rules idx expected actual d).
Proof.
  revert idx d. induction expected as [|e rest IH]; intros idx d; [done|].
  cbn [check_egress_rules].
  destruct (_find_matching_egress_rule e actual).
  - by rewrite add_passed_app, IH.
  - by rewrite add_failed_app, IH.
Qed.

Lemma egress_app sg expected st d :
  validate_egress_rules sg expected (app_results st d) =
  replay Cumulative st (validate_egress_rules sg expected d).
Proof.
  unfold validate_egress_rules, replay. by rewrite check_egress_app.
Qed.

Lemma check_tag_app actual st d kv :
  check_tag actual (app_results st d) kv = app_results st (check_tag actual d kv).
Proof.
  destruct kv as [key ev]. unfold check_tag.
  case_bool_decide; [now push_app|].
  destruct (actual !! key) as [av|]; [destruct (truthy_str (Some av))|]; now push_app.
Qed.

Lemma check_tags_app actual expected st d :
  foldl (check_tag actual) (app_results st d) expected =
  app_results st (foldl (check_tag actual) d expected).
Proof.
  revert d. induction expected as [|kv rest IH]; intros d; [done|].
  cbn [foldl]. by rewrite check_tag_app, IH.
Qed.

Lemma tags_app sg expected st d :
  validate_tags sg expected (app_results st d) =
  replay Cumulative st (validate_tags sg expected d).
Proof. unfold validate_tags, replay. by rewrite check_tags_app. Qed.

Lemma best_practices_app sg st d :
  validate_security_best_practices sg (app_results st d) =
  replay AlwaysTrue st (validate_security_best_practices sg d).
Proof.
  unfold validate_security_best_practices, replay.
  destruct (best_practice_warnings (IpPermissions sg)); now push_app.
Qed.

Lemma read_outputs_app id sg o st d :
  read_outputs id sg o (app_results st d) =
  match read_outputs id sg o d with
  | inl (e, d') => inl (e, app_results st d')
  | inr d' => inr (app_results st d')
  end.
Proof.
  unfold read_outputs.
  destruct (out_security_group_id o) as [?|oid]; [done|].
  destruct (out_security_group_name o) as [?|oname];
    [case_bool_decide; now push_app|].
  destruct (out_security_group_arn o) as [?|[arn|]];
    repeat case_bool_decide; try destruct (truthy_str (Some arn) && py_in id arn);
    now push_app.
Qed.

Lemma outputs_app id sg file st d :
  validate_terraform_outputs id sg file (app_results st d) =
  replay (outputs_rule file) st (validate_terraform_outputs id sg file d).
Proof.
  unfold validate_terraform_outputs, replay. destruct file as [|x|o]; cbn.
  - now push_app.
  - now push_app.
  - rewrite read_outputs_app.
    destruct (read_outputs id sg o d) as [[x d']|d']; now push_app.
Qed.

(** The form of the preceding lemmas that starts from the empty results. *)
Lemma from_initial (f : validation_results → step bool) (vr : verdict_rule) :
  (∀ st d, f (app_results st d) = replay vr st (f d)) →
  ∀ st, f st = replay vr st (f initial_results).
Proof. intros H st. by rewrite <- H, app_results_initial_r. Qed.

Lemma no_failures_spec st : no_failures st = true ↔ failed st = [].
Proof. unfold no_failures. by destruct (failed st). Qed.

Lemma replay_cumulative f :
  (∀ st, f st = replay Cumulative st (f initial_results)) → cumulative_step f.
Proof.
  intros Hf st b st'. rewrite Hf. unfold replay.
  destruct (f initial_results) as [x|[b0 d]]; [done|].
  intros [= <- <-]. cbn [verdict]. split_and!.
  - apply no_failures_spec.
  - by exists (failed d).
  - intros Hne. apply not_true_is_false. rewrite no_failures_spec. cbn.
    destruct (failed st); [done|]. done.
Qed.

Lemma replay_returns (f : validation_results → step bool) (vr : verdict_rule) :
  (∀ st, f st = replay vr st (f initial_results)) →
  (∃ r, f initial_results = inr r) → returns f.
Proof.
  intros Hf [[b d] Hr] st. rewrite Hf, Hr. cbn. eauto.
Qed.

(** ** Properties of the tag comparison *)

Lemma check_tags_cons actual st kv rest :
  foldl (check_tag actual) st (kv :: rest) =
  app_results (check_tag actual st kv)
              (foldl (check_tag actual) initial_results rest).
Proof.
  cbn [foldl]. by rewrite <- check_tags_app, app_results_initial_r.
Qed.

Lemma tags_warning actual expected st key ev av :
  (key, ev) ∈ expected → actual !! key = Some av → av ≠ ev → av ≠ ""%string →
  TagDiffers key ev av ∈ warnings (foldl (check_tag actual) st expected).
Proof.
  intros Hin Hav Hne Hnz. revert st.
  induction expected as [|kv rest IH]; intros st; [by apply elem_of_nil in Hin|].
  rewrite check_tags_cons. cbn [app_results warnings]. apply elem_of_app.
  apply elem_of_cons in Hin as [<- | Hin]; [left | right; by apply IH].
  unfold check_tag. rewrite Hav.
  rewrite bool_decide_eq_false_2 by congruence.
  cbn [truthy_str]. rewrite bool_decide_eq_false_2 by done.
  cbn. apply elem_of_app. right. by left.
Qed.

Lemma tags_failures actual expected st m :
  m ∈ failed (foldl (check_tag actual) st expected) →
  m ∈ failed st ∨
  ∃ k v, (k, v) ∈ expected ∧ m = TagMissing k ∧ truthy_str (actual !! k) = false.
Proof.
  revert st. induction expected as [|[k v] rest IH]; intros st; [by left|].
  rewrite check_tags_cons. cbn [app_results failed]. rewrite elem_of_app.
  intros [Hm | Hm].
  - unfold check_tag in Hm. case_bool_decide; [by left|].
    destruct (actual !! k) as [av|] eqn:Hav.
    + destruct (truthy_str (Some av)) eqn:Ht; [by left|].
      cbn in Hm. apply elem_of_app in Hm as [Hm | Hm]; [by left|].
      apply list_elem_of_singleton in Hm as ->. right. exists k, v.
      rewrite Hav. split_and!; [by left | done | done].
    + cbn in Hm. apply elem_of_app in Hm as [Hm | Hm]; [by left|].
      apply list_elem_of_singleton in Hm as ->. right. exists k, v.
      rewrite Hav. split_and!; [by left | done | done].
  - apply IH in Hm as [Hm | (k' & v' & Hin & -> & Ht)].
    + by apply elem_of_nil in Hm.
    + right. exists k', v'. split_and!; [by right | done | done].
Qed.

(** C1, as stated, fails: with expected tags [{Environment: prod}] and
    observed tags [{Environment: staging}] the tag comparison records a
    warning and no failure, it returns [True], and the whole run passes with
    exit status 0. *)
Lemma tag_mismatch_scenario_passes :
  validate_tags (group [] [("Environment", "staging")]%string)
                [("Environment", "prod")]%string initial_results =
    inr (true, {| passed := []; failed := [];
                  warnings := [TagDiffers "Environment" "prod" "staging"] |}) ∧
  run_all_validations "sg-1"
      (world (group [] [("Environment", "staging")]%string))
      (expect [] [("Environment", "prod")]%string) =
    inr {| success := true;
           results := [true; true; true; true; true; true];
           report := {| passed := [BestPracticesValidated]; failed := [];
                        warnings := [TagDiffers "Environment" "prod" "staging";
                                     OutputsFileNotFound "outputs.json"] |} |} ∧
  exit_code (run_all_validations "sg-1"
      (world (group [] [("Environment", "staging")]%string))
      (expect [] [("Environment", "prod")]%string)) = 0.
Proof. by vm_compute. Qed.

(** C1, amended: for every expected tag whose key is observed with a
    different, non-empty value, [validate_tags] returns and records the
    warning "Tag differs" with the key and both values; the failures it
    records are "Tag missing" entries of keys without a non-empty observed
    value only, so a value mismatch records no failure; when every expected
    key has a non-empty observed value the step records no failure at all,
    and its verdict is the one of the failures recorded before it. *)
Theorem tag_value_mismatch_is_warning sg (expected_tags : list (string * string))
    st (key ev av : string) :
  (key, ev) ∈ expected_tags →
  actual_tags_of (Tags sg) !! key = Some av →
  av ≠ ev →
  av ≠ ""%string →
  ∃ st', validate_tags sg expected_tags st = inr (no_failures st', st') ∧
    TagDiffers key ev av ∈ warnings st' ∧
    (∀ m, m ∈ failed st' →
       m ∈ failed st ∨
       ∃ k v, (k, v) ∈ expected_tags ∧ m = TagMissing k ∧
              truthy_str (actual_tags_of (Tags sg) !! k) = false) ∧
    ((∀ k v, (k, v) ∈ expected_tags →
        truthy_str (actual_tags_of (Tags sg) !! k) = true) →
     failed st' = failed st ∧ no_failures st' = no_failures st).
Proof.
  intros Hin Hav Hne Hnz. eexists. split; [reflexivity|]. split_and!.
  - by apply tags_warning.
  - apply tags_failures.
  - intros Hall.
    assert (failed (foldl (check_tag (actual_tags_of (Tags sg))) st expected_tags)
            = failed st) as Hf.
    { clear Hin. revert st. induction expected_tags as [|[k v] rest IH]; intros st; [done|].
      cbn [foldl]. rewrite IH.
      - unfold check_tag. case_bool_decide; [done|].
        specialize (Hall k v (list_elem_of_here _ _)).
        destruct (actual_tags_of (Tags sg) !! k) as [a|]; [|done].
        by rewrite Hall.
      - intros k' v' Hin'. apply (Hall k' v'). by right. }
    split; [done|]. unfold no_failures. by rewrite Hf.
Qed.

Lemma tag_value_mismatch_is_warning_witness :
  (("Environment", "prod") : string * string) ∈
    [("Environment", "prod")]%string ∧
  ∃ st', validate_tags (group [] [("Environment", "staging")]%string)
           [("Environment", "prod")]%string initial_results =
           inr (no_failures st', st') ∧
         TagDiffers "Environment" "prod" "staging" ∈ warnings st'.
Proof.
  split; [by left|].
  destruct (tag_value_mismatch_is_warning
              (group [] [("Environment", "staging")]%string)
              [("Environment", "prod")]%string initial_results
              "Environment" "prod" "staging")
    as (st' & Hrun & Hwarn & _); [by left | by vm_compute | done | done |].
  by exists st'.
Defined.

(** ** Properties of the security checks *)

(** A rule whose port range starts above 0 is flagged for every sensitive
    port in its range as soon as one of its sources is [0.0.0.0/0]. *)
Lemma sensitive_port_flagged sg st rule (from_p to_p port : Z) (service : string) :
  rule ∈ IpPermissions sg →
  FromPort rule = Some from_p → ToPort rule = Some to_p →
  from_p ≠ 0 → to_p ≠ 0 →
  (port, service) ∈ sensitive_ports →
  from_p ≤ port ≤ to_p →
  internet ∈ IpRanges rule →
  ∃ st', validate_security_best_practices sg st = inr (true, st') ∧
         OpenToInternet service port ∈ warnings st' ∧
         passed st' = passed st ∧ failed st' = failed st.
Proof.
  intros Hrule Hf Ht Hfz Htz Hport Hrange Hopen.
  assert (OpenToInternet service port ∈
            best_practice_warnings (IpPermissions sg)) as Hw.
  { unfold best_practice_warnings. apply elem_of_app. left.
    apply list_elem_of_In, in_flat_map. exists rule.
    split; [by apply list_elem_of_In|].
    unfold sensitive_port_warnings. rewrite Hf, Ht. cbn [truthy_int].
    rewrite (proj2 (Z.eqb_neq _ _) Hfz), (proj2 (Z.eqb_neq _ _) Htz). cbn [negb andb].
    apply in_flat_map. exists (port, service).
    split; [by apply list_elem_of_In|]. cbn [fst snd].
    rewrite (proj2 (Z.leb_le _ _) (proj1 Hrange)),
            (proj2 (Z.leb_le _ _) (proj2 Hrange)). cbn [andb].
    unfold open_ranges. apply in_flat_map. exists internet.
    split; [by apply list_elem_of_In|].
    rewrite bool_decide_eq_true_2 by done. by left. }
  unfold validate_security_best_practices.
  destruct (best_practice_warnings (IpPermissions sg)) as [|m ms] eqn:Hws.
  { by apply elem_of_nil in Hw. }
  eexists. split; [reflexivity|]. cbn. split; [|done].
  apply elem_of_app. by right.
Qed.

(** C2, evaluated at the failing input: a rule that opens the TCP ports
    0-65535 to [0.0.0.0/0] covers every sensitive port, yet the check
    records no warning for it and reports "Security best practices
    validated", because [if from_port and to_port] takes the port 0 for an
    absent port. *)
Theorem open_range_from_port_zero_not_flagged :
  let rule := {| IpProtocol := Some "tcp"%string; FromPort := Some 0;
                 ToPort := Some 65535; IpRanges := ["0.0.0.0/0"%string] |} in
  (∀ ps, ps ∈ sensitive_ports → 0 ≤ ps.1 ≤ 65535) ∧
  internet ∈ IpRanges rule ∧
  sensitive_port_warnings rule = [] ∧
  validate_security_best_practices (group [rule] []) initial_results =
    inr (true, {| passed := [BestPracticesValidated]; failed := [];
                  warnings := [] |}).
Proof.
  cbn zeta. split_and!; try by vm_compute.
  - intros ps Hps. unfold sensitive_ports in Hps.
    repeat (apply elem_of_cons in Hps as [-> | Hps]; [cbn; lia|]).
    by apply elem_of_nil in Hps.
  - by left.
Qed.

(** The scenario of the specification: 443 expected and observed, 22
    observed in addition, both open to [0.0.0.0/0].  The rule for port 22 is
    flagged, as a warning, and the run passes. *)
Lemma scenario_443_and_22 :
  run_all_validations "sg-1"
      (world (group [tcp_rule 443 ["0.0.0.0/0"%string];
                     tcp_rule 22 ["0.0.0.0/0"%string]] []))
      (expect [expect_tcp 443 ["0.0.0.0/0"%string]] []) =
    inr {| success := true;
           results := [true; true; true; true; true; true];
           report := {| passed := [IngressRuleFound 1 "tcp" 443 443];
                        failed := [];
                        warnings := [AdditionalIngressRules 1;
                                     OpenToInternet "SSH" 22;
                                     OutputsFileNotFound "outputs.json"] |} |}.
Proof. by vm_compute. Qed.

(** ** The verdict of the steps *)

Lemma check_ingress_returns idx expected actual st :
  Forall reportable expected →
  ∃ st', check_ingress_rules idx expected actual st = inr st'.
Proof.
  intros Hall. revert idx st.
  induction Hall as [|e rest ([p Hp] & [f Hf] & [t Ht]) _ IH]; intros idx st.
  - by eexists.
  - cbn [check_ingress_rules].
    destruct (_find_matching_ingress_rule e actual); [|apply IH].
    unfold ingress_found_message. rewrite Hp, Hf, Ht. cbn. apply IH.
Qed.

(** C10, as stated, fails for the step on the Terraform outputs: when the
    outputs file does not exist the step returns [True] although a failure
    is recorded, here by the tag comparison of the same run. *)
Lemma outputs_step_passes_after_failure :
  validate_terraform_outputs "sg-1" (group [] []) FileMissing
      (add_failed (TagMissing "Environment") initial_results) =
    inr (true, {| passed := []; failed := [TagMissing "Environment"];
                  warnings := [OutputsFileNotFound "outputs.json"] |}) ∧
  run_all_validations "sg-1" (world (group [] []))
      (expect [] [("Environment", "prod")]%string) =
    inr {| success := false;
           results := [true; true; true; false; true; true];
           report := {| passed := [BestPracticesValidated];
                        failed := [TagMissing "Environment"];
                        warnings := [OutputsFileNotFound "outputs.json"] |} |} ∧
  ¬ cumulative_step (validate_terraform_outputs "sg-1" (group [] []) FileMissing).
Proof.
  split_and!; try by vm_compute.
  intros Hc.
  destruct (Hc (add_failed (TagMissing "Environment") initial_results) true
               {| passed := []; failed := [TagMissing "Environment"];
                  warnings := [OutputsFileNotFound "outputs.json"] |}
               eq_refl) as (H & _).
  by specialize (proj1 H eq_refl).
Qed.

(** C10, amended: the steps on the basic properties, the ingress rules, the
    egress rules and the tags, and the step on the Terraform outputs when
    the outputs file exists, return [True] iff no failure is recorded by
    them or before them; they keep the failures recorded before them, and
    return [False] once one is recorded.  The steps on egress rules, tags
    and outputs always return; the step on the basic properties returns
    when no name is expected or the group has a name, the step on the
    ingress rules when the expected rules have their protocol and ports.
    (When the outputs file does not exist, the step on the outputs returns
    [True] whatever was recorded.) *)
Theorem steps_verdict_cumulative sg (cfg : ExpectedConfig) (id : string)
    (file : outputs_file) (rules : list ExpectedRule)
    (expected_tags : list (string * string)) :
  file ≠ FileMissing →
  cumulative_step (validate_basic_properties sg cfg) ∧
  cumulative_step (validate_ingress_rules sg rules) ∧
  cumulative_step (validate_egress_rules sg rules) ∧
  cumulative_step (validate_tags sg expected_tags) ∧
  cumulative_step (validate_terraform_outputs id sg file) ∧
  returns (validate_egress_rules sg rules) ∧
  returns (validate_tags sg expected_tags) ∧
  returns (validate_terraform_outputs id sg file) ∧
  (security_group_name cfg = None ∨ is_Some (GroupName sg) →
   returns (validate_basic_properties sg cfg)) ∧
  (Forall reportable rules → returns (validate_ingress_rules sg rules)).
Proof.
  intros Hfile.
  assert (outputs_rule file = Cumulative) as Hrule by by destruct file.
  split_and!.
  - apply replay_cumulative, from_initial, basic_app.
  - apply replay_cumulative, from_initial, ingress_app.
  - apply replay_cumulative, from_initial, egress_app.
  - apply replay_cumulative, from_initial, tags_app.
  - apply replay_cumulative. rewrite <- Hrule. apply from_initial, outputs_app.
  - intros st. by do 2 eexists.
  - intros st. by do 2 eexists.
  - intros st. unfold validate_terraform_outputs. destruct file; by do 2 eexists.
  - intros Hname st. unfold validate_basic_properties.
    destruct (security_group_name cfg) as [n|].
    + destruct Hname as [? | [a Ha]]; [done|]. rewrite Ha.
      destruct (py_in n a || py_in a n); by do 2 eexists.
    + by do 2 eexists.
  - intros Hall st. unfold validate_ingress_rules.
    destruct (check_ingress_returns 0 rules (IpPermissions sg) st Hall) as [st' ->].
    by do 2 eexists.
Qed.

Lemma steps_verdict_cumulative_witness :
  FileUnreadable "truncated" ≠ FileMissing ∧
  cumulative_step (validate_tags (group [] []) [("Environment", "prod")]%string) ∧
  cumulative_step
    (validate_terraform_outputs "sg-1" (group [] []) (FileUnreadable "truncated")).
Proof.
  split; [done|].
  destruct (steps_verdict_cumulative (group [] []) (expect [] []) "sg-1"
              (FileUnreadable "truncated") [] [("Environment", "prod")]%string)
    as (_ & _ & _ & Htags & Hout & _); [done|].
  by split.
Defined.

(** ** What the ingress comparison reports *)

Lemma found_report_cons idx e rest actual m :
  found_report idx (e :: rest) actual m ↔
  (_find_matching_ingress_rule e actual = true ∧
   ∃ p f t, protocol e = Some p ∧ from_port e = Some f ∧ to_port e = Some t ∧
            m = IngressRuleFound (S idx) p f t) ∨
  found_report (S idx) rest actual m.
Proof.
  unfold found_report. split.
  - intros ([|i] & e' & p & f & t & Hi & Hfind & Hp & Hf & Ht & ->).
    + injection Hi as <-. left. rewrite Nat.add_0_r. split; [done|].
      by exists p, f, t.
    + right. exists i, e', p, f, t. cbn in Hi.
      replace (S idx + i)%nat with (idx + S i)%nat by lia. done.
  - intros [(Hfind & p & f & t & Hp & Hf & Ht & ->) |
            (i & e' & p & f & t & Hi & Hfind & Hp & Hf & Ht & ->)].
    + exists 0%nat, e, p, f, t. rewrite Nat.add_0_r. done.
    + exists (S i), e', p, f, t.
      replace (idx + S i)%nat with (S idx + i)%nat by lia. done.
Qed.

Lemma missing_report_cons idx e rest actual m :
  missing_report idx (e :: rest) actual m ↔
  (_find_matching_ingress_rule e actual = false ∧
   m = IngressRuleNotFound (S idx) e) ∨
  missing_report (S idx) rest actual m.
Proof.
  unfold missing_report. split.
  - intros ([|i] & e' & Hi & Hfind & ->).
    + injection Hi as <-. left. by rewrite Nat.add_0_r.
    + right. exists i, e'. cbn in Hi.
      replace (S idx + i)%nat with (idx + S i)%nat by lia. done.
  - intros [(Hfind & ->) | (i & e' & Hi & Hfind & ->)].
    + exists 0%nat, e. by rewrite Nat.add_0_r.
    + exists (S i), e'.
      replace (idx + S i)%nat with (S idx + i)%nat by lia. done.
Qed.

Lemma check_ingress_report idx expected actual st st' :
  check_ingress_rules idx expected actual st = inr st' →
  (∀ m, m ∈ passed st' ↔ m ∈ passed st ∨ found_report idx expected actual m) ∧
  (∀ m, m ∈ failed st' ↔ m ∈ failed st ∨ missing_report idx expected actual m).
Proof.
  revert idx st. induction expected as [|e rest IH]; intros idx st.
  - intros [= <-]. split; intros m; (split; [by left|]).
    + intros [? | (i & ? & ? & ? & ? & Hi & _)]; done.
    + intros [? | (i & ? & Hi & _)]; done.
  - cbn [check_ingress_rules].
    destruct (_find_matching_ingress_rule e actual) eqn:Hfind.
    + unfold ingress_found_message.
      destruct (protocol e) as [p|] eqn:Hp; [|done].
      destruct (from_port e) as [f|] eqn:Hf; [|done].
      destruct (to_port e) as [t|] eqn:Ht; [|done].
      cbn. intros Hrun. apply IH in Hrun as [Hpass Hfail].
      split; intros m.
      * rewrite Hpass, found_report_cons. cbn. rewrite elem_of_app, list_elem_of_singleton.
        split.
        -- intros [[? | ->] | ?]; [by left | | by right; right].
           right. left. split; [done|]. by exists p, f, t.
        -- intros [? | [(_ & p' & f' & t' & Hp' & Hf' & Ht' & Hm) | ?]];
             [by left; left | | by right].
           left; right. congruence.
      * rewrite Hfail, missing_report_cons. cbn.
        split.
        -- intros [? | ?]; [by left | by right; right].
        -- intros [? | [(? & _) | ?]]; [by left | congruence | by right].
    + intros Hrun. apply IH in Hrun as [Hpass Hfail].
      split; intros m.
      * rewrite Hpass, found_report_cons. cbn.
        split.
        -- intros [? | ?]; [by left | by right; right].
        -- intros [? | [(? & _) | ?]]; [by left | congruence | by right].
      * rewrite Hfail, missing_report_cons. cbn. rewrite elem_of_app, list_elem_of_singleton.
        split.
        -- intros [[? | ->] | ?]; [by left | by right; left | by right; right].
        -- intros [? | [(_ & ->) | ?]]; [by left; left | by left; right | by right].
Qed.

(** C6, as stated, fails: an expected rule that gives no [cidr_blocks] is
    reported as found as soon as an observed rule has its protocol and
    ports, whatever the sources of that rule; here they are [10.0.0.0/8],
    which is not the set of sources of the expected rule, however an absent
    [cidr_blocks] is read. *)
Lemma rule_without_cidr_blocks_matches_any_sources :
  let e := {| protocol := Some "tcp"%string; from_port := Some 443;
              to_port := Some 443; cidr_blocks := None; description := None |} in
  let rule := tcp_rule 443 ["10.0.0.0/8"%string] in
  _find_matching_ingress_rule e [rule] = true ∧
  validate_ingress_rules (group [rule] []) [e] initial_results =
    inr (true, {| passed := [IngressRuleFound 1 "tcp" 443 443]; failed := [];
                  warnings := [] |}) ∧
  cidr_blocks e = None ∧
  same_set (IpRanges rule) (default [] (cidr_blocks e)) = false ∧
  ¬ (∃ r cs, r ∈ [rule] ∧ cidr_blocks e = Some cs ∧ same_set (IpRanges r) cs = true).
Proof.
  cbn zeta. split_and!; try by vm_compute.
  intros (r & cs & _ & Hcs & _). done.
Qed.

(** An expected rule that is found but lacks a port makes the ingress step
    raise [KeyError], where the egress step reports "Egress rule 1 found". *)
Lemma found_rule_without_ports_raises :
  let e := {| protocol := Some "-1"%string; from_port := None; to_port := None;
              cidr_blocks := Some ["0.0.0.0/0"%string]; description := None |} in
  let rule := {| IpProtocol := Some "-1"%string; FromPort := None; ToPort := None;
                 IpRanges := ["0.0.0.0/0"%string] |} in
  validate_ingress_rules (group [rule] []) [e] initial_results =
    inl (KeyError "from_port") ∧
  validate_egress_rules (with_rules (group [] []) [] [rule]) [e] initial_results =
    inr (true, {| passed := [EgressRuleFound 1]; failed := []; warnings := [] |}).
Proof. by vm_compute. Qed.

(** C6, amended: an expected rule is matched iff some observed ingress rule
    has the same protocol, the same [FromPort] and the same [ToPort] and,
    when the expected rule gives [cidr_blocks], a set of sources equal to
    them as a set; an expected rule without [cidr_blocks] is matched by
    protocol and ports alone.  The description plays no part.  When the
    expected rules have their protocol and ports, the step returns, and it
    records "found", with the number, protocol and ports of the rule, for
    exactly the matched expected rules, and "not found", with the number
    and the rule itself, as a failure for exactly the others; every
    expected rule is compared with all observed rules, so that several can
    be matched by the same one. *)
Theorem expected_rule_found_iff sg (expected : list ExpectedRule) st :
  Forall reportable expected →
  (∀ e, _find_matching_ingress_rule e (IpPermissions sg) = true ↔
        ∃ rule, rule ∈ IpPermissions sg ∧
          IpProtocol rule = protocol e ∧ FromPort rule = from_port e ∧
          ToPort rule = to_port e ∧
          ∀ cs, cidr_blocks e = Some cs → ∀ c, c ∈ IpRanges rule ↔ c ∈ cs) ∧
  (∀ e (descr : option string),
     _find_matching_ingress_rule (with_description descr e) (IpPermissions sg) =
     _find_matching_ingress_rule e (IpPermissions sg)) ∧
  ∃ st', validate_ingress_rules sg expected st = inr (no_failures st', st') ∧
    (∀ m, m ∈ passed st' ↔
          m ∈ passed st ∨ found_report 0 expected (IpPermissions sg) m) ∧
    (∀ m, m ∈ failed st' ↔
          m ∈ failed st ∨ missing_report 0 expected (IpPermissions sg) m).
Proof.
  intros Hall. split_and!.
  - intros e. apply find_ingress_spec.
  - intros e descr. induction (IpPermissions sg) as [|rule rest IH]; [done|].
    cbn. by rewrite IH.
  - unfold validate_ingress_rules.
    destruct (check_ingress_returns 0 expected (IpPermissions sg) st Hall)
      as [st1 Hrun].
    rewrite Hrun. apply check_ingress_report in Hrun as [Hpass Hfail].
    eexists. split; [reflexivity|].
    destruct (length expected <? length (IpPermissions sg))%nat; by cbn.
Qed.

Lemma expected_rule_found_iff_witness :
  Forall reportable [expect_tcp 443 ["0.0.0.0/0"%string];
                     expect_tcp 80 ["0.0.0.0/0"%string]] ∧
  ∃ st', validate_ingress_rules
           (group [tcp_rule 443 ["0.0.0.0/0"%string]] [])
           [expect_tcp 443 ["0.0.0.0/0"%string]; expect_tcp 80 ["0.0.0.0/0"%string]]
           initial_results = inr (no_failures st', st').
Proof.
  assert (Forall reportable [expect_tcp 443 ["0.0.0.0/0"%string];
                             expect_tcp 80 ["0.0.0.0/0"%string]]) as Hall.
  { repeat constructor; cbn; by eexists. }
  split; [done|].
  destruct (expected_rule_found_iff
              (group [tcp_rule 443 ["0.0.0.0/0"%string]] []) _ initial_results Hall)
    as (_ & _ & st' & Hrun & _).
  by exists st'.
Defined.

(** ** The order of the observed rules *)

Lemma results_equiv_refl st : results_equiv st st.
Proof. by split_and!. Qed.

Lemma outcome_equiv_refl {A} (r : exn + (A * validation_results)) :
  outcome_equiv r r.
Proof. destruct r as [x|[a st]]; cbn; [done|]. split; [done|]. apply results_equiv_refl. Qed.

Lemma app_results_equiv st st' d d' :
  results_equiv st st' → results_equiv d d' →
  results_equiv (app_results st d) (app_results st' d').
Proof.
  intros (Hp & Hf & Hw) (Hp' & Hf' & Hw'). unfold results_equiv. cbn.
  rewrite Hp, Hp', Hf, Hf'. split_and!; [done | done |]. by apply Permutation_app.
Qed.

Lemma verdict_equiv vr st st' :
  results_equiv st st' → verdict vr st = verdict vr st'.
Proof.
  intros (_ & Hf & _). destruct vr; [|done]. cbn. unfold no_failures. by rewrite Hf.
Qed.

Lemma replay_equiv vr st st' (r r' : step bool) :
  results_equiv st st' → outcome_equiv r r' →
  outcome_equiv (replay vr st r) (replay vr st' r').
Proof.
  intros Hst Hr. destruct r as [x|[b d]], r' as [x'|[b' d']]; cbn in *; try done.
  destruct Hr as [_ Hd].
  pose proof (app_results_equiv _ _ _ _ Hst Hd) as Happ.
  split; [by apply verdict_equiv | done].
Qed.

(** Two steps that only append, and that end alike from the empty results,
    end alike from equivalent results. *)
Lemma step_equiv_intro vr (f g : validation_results → step bool) :
  (∀ st d, f (app_results st d) = replay vr st (f d)) →
  (∀ st d, g (app_results st d) = replay vr st (g d)) →
  outcome_equiv (f initial_results) (g initial_results) →
  step_equiv f g.
Proof.
  intros Hf Hg Hinit st st' Hst.
  rewrite (from_initial f vr Hf st), (from_initial g vr Hg st').
  by apply replay_equiv.
Qed.

Lemma check_ingress_perm idx expected actual actual' st :
  actual ≡ₚ actual' →
  check_ingress_rules idx expected actual st =
  check_ingress_rules idx expected actual' st.
Proof.
  intros Hp. revert idx st. induction expected as [|e rest IH]; intros idx st; [done|].
  cbn [check_ingress_rules]. rewrite (find_ingress_perm e _ _ Hp).
  destruct (_find_matching_ingress_rule e actual'); [|apply IH].
  destruct (ingress_found_message (S idx) e); [done | apply IH].
Qed.

Lemma check_egress_perm idx expected actual actual' st :
  actual ≡ₚ actual' →
  check_egress_rules idx expected actual st =
  check_egress_rules idx expected actual' st.
Proof.
  intros Hp. revert idx st. induction expected as [|e rest IH]; intros idx st; [done|].
  cbn [check_egress_rules].
  rewrite (find_egress_ingress e actual), (find_egress_ingress e actual'),
    (find_ingress_perm e _ _ Hp).
  destruct (_find_matching_ingress_rule e actual'); apply IH.
Qed.

Lemma best_practice_warnings_perm ingress ingress' :
  ingress ≡ₚ ingress' →
  best_practice_warnings ingress ≡ₚ best_practice_warnings ingress'.
Proof.
  intros Hp. unfold best_practice_warnings.
  apply Permutation_app; by apply Permutation_flat_map.
Qed.

Lemma best_practices_perm sg sg' :
  IpPermissions sg ≡ₚ IpPermissions sg' →
  outcome_equiv (validate_security_best_practices sg initial_results)
                (validate_security_best_practices sg' initial_results).
Proof.
  intros Hp%best_practice_warnings_perm. unfold validate_security_best_practices.
  destruct (best_practice_warnings (IpPermissions sg)) as [|m ms],
           (best_practice_warnings (IpPermissions sg')) as [|m' ms'].
  - apply outcome_equiv_refl.
  - by apply Permutation_nil_cons in Hp.
  - symmetry in Hp. by apply Permutation_nil_cons in Hp.
  - cbn. split; [done|]. by split_and!.
Qed.

Lemma run_validations_equiv vs vs' st st' :
  Forall2 step_equiv vs vs' → results_equiv st st' →
  outcome_equiv (run_validations vs st) (run_validations vs' st').
Proof.
  intros Hvs. revert st st'.
  induction Hvs as [|f g vs vs' Hfg _ IH]; intros st st' Hst.
  - cbn. by split.
  - cbn [run_validations]. specialize (Hfg st st' Hst).
    destruct (f st) as [x|[b s]], (g st') as [x'|[b' s']]; cbn in Hfg; try done.
    destruct Hfg as [-> Hs]. specialize (IH s s' Hs).
    destruct (run_validations vs s) as [y|[bs t]],
             (run_validations vs' s') as [y'|[bs' t']]; cbn in IH; try done.
    destruct IH as [-> Ht]. by split.
Qed.

(** C9: when the observed ingress rules and the observed egress rules are
    given in another order, the comparison of the rules records the very
    same entries and returns the same value, for every expected rule list
    and from every state; and the whole run ends alike: same exception, or
    same verdict, same value of every step, same entries in [passed] and in
    [failed], and the same warnings up to their order, so that the number
    of entries of each kind is unchanged. *)
Theorem observed_order_irrelevant (id : string) (w : World) (cfg : ExpectedConfig)
    sg (ingress' egress' : list IpPermission) :
  w_fetch w = Fetched sg →
  IpPermissions sg ≡ₚ ingress' →
  IpPermissionsEgress sg ≡ₚ egress' →
  (∀ expected st,
     validate_ingress_rules (with_rules sg ingress' egress') expected st =
     validate_ingress_rules sg expected st ∧
     validate_egress_rules (with_rules sg ingress' egress') expected st =
     validate_egress_rules sg expected st) ∧
  same_outcome (run_all_validations id w cfg)
               (run_all_validations id (with_group w (with_rules sg ingress' egress')) cfg).
Proof.
  intros Hfetch Hin Heg.
  assert (∀ expected st,
     validate_ingress_rules (with_rules sg ingress' egress') expected st =
     validate_ingress_rules sg expected st ∧
     validate_egress_rules (with_rules sg ingress' egress') expected st =
     validate_egress_rules sg expected st) as Hsteps.
  { intros expected st. unfold validate_ingress_rules, validate_egress_rules.
    cbn [with_rules IpPermissions IpPermissionsEgress].
    rewrite <- (check_ingress_perm 0 expected _ _ st Hin),
            <- (check_egress_perm 0 expected _ _ st Heg),
            <- (Permutation_length Hin). done. }
  split; [done|].
  unfold run_all_validations. rewrite Hfetch. cbn [with_group w_fetch].
  assert (Forall2 step_equiv
            (validations id w sg cfg)
            (validations id (with_group w (with_rules sg ingress' egress'))
                         (with_rules sg ingress' egress') cfg)) as Hvs.
  { unfold validations. constructor; [|constructor; [|constructor; [|constructor;
      [|constructor; [|constructor; [|constructor]]]]]].
    - apply (step_equiv_intro Cumulative); [apply basic_app | apply basic_app |].
      apply outcome_equiv_refl.
    - apply (step_equiv_intro Cumulative); [apply ingress_app | apply ingress_app |].
      rewrite (proj1 (Hsteps _ _)). apply outcome_equiv_refl.
    - apply (step_equiv_intro Cumulative); [apply egress_app | apply egress_app |].
      rewrite (proj2 (Hsteps _ _)). apply outcome_equiv_refl.
    - apply (step_equiv_intro Cumulative); [apply tags_app | apply tags_app |].
      apply outcome_equiv_refl.
    - apply (step_equiv_intro AlwaysTrue);
        [apply best_practices_app | apply best_practices_app |].
      by apply best_practices_perm.
    - apply (step_equiv_intro (outputs_rule (w_outputs w)));
        [apply outputs_app | apply outputs_app |].
      apply outcome_equiv_refl. }
  pose proof (run_validations_equiv _ _ _ _ Hvs (results_equiv_refl initial_results))
    as Hrun.
  destruct (run_validations (validations id w sg cfg) initial_results) as [x|[bs t]],
           (run_validations _ initial_results) as [x'|[bs' t']]; cbn in Hrun; try done.
  destruct Hrun as [-> (Hp & Hf & Hw)]. cbn.
  split_and!; try done. by apply Permutation_length.
Qed.

Lemma observed_order_irrelevant_witness :
  [tcp_rule 443 ["0.0.0.0/0"%string]; tcp_rule 22 ["0.0.0.0/0"%string]] ≡ₚ
  [tcp_rule 22 ["0.0.0.0/0"%string]; tcp_rule 443 ["0.0.0.0/0"%string]] ∧
  same_outcome
    (run_all_validations "sg-1"
       (world (group [tcp_rule 443 ["0.0.0.0/0"%string];
                      tcp_rule 22 ["0.0.0.0/0"%string]] []))
       (expect [expect_tcp 443 ["0.0.0.0/0"%string]] []))
    (run_all_validations "sg-1"
       (with_group
          (world (group [tcp_rule 443 ["0.0.0.0/0"%string];
                         tcp_rule 22 ["0.0.0.0/0"%string]] []))
          (with_rules (group [tcp_rule 443 ["0.0.0.0/0"%string];
                              tcp_rule 22 ["0.0.0.0/0"%string]] [])
                      [tcp_rule 22 ["0.0.0.0/0"%string];
                       tcp_rule 443 ["0.0.0.0/0"%string]] []))
       (expect [expect_tcp 443 ["0.0.0.0/0"%string]] [])).
Proof.
  split; [apply Permutation_swap|].
  apply (observed_order_irrelevant "sg-1"
           (world (group [tcp_rule 443 ["0.0.0.0/0"%string];
                          tcp_rule 22 ["0.0.0.0/0"%string]] []))
           (expect [expect_tcp 443 ["0.0.0.0/0"%string]] [])
           (group [tcp_rule 443 ["0.0.0.0/0"%string];
                   tcp_rule 22 ["0.0.0.0/0"%string]] [])).
  - reflexivity.
  - apply Permutation_swap.
  - reflexivity.
Defined.

(** ** Observed rules that nobody expects *)

Lemma check_ingress_failed idx expected actual st d :
  check_ingress_rules idx expected actual st = inr d →
  ∃ fs, failed d = failed st ++ fs.
Proof.
  pose proof (check_ingress_app idx expected actual st initial_results) as H.
  rewrite app_results_initial_r in H. rewrite H.
  destruct (check_ingress_rules idx expected actual initial_results) as [x|d'];
    [done|].
  intros [= <-]. by exists (failed d').
Qed.

Lemma check_egress_failed idx expected actual st :
  ∃ fs, failed (check_egress_rules idx expected actual st) = failed st ++ fs.
Proof.
  pose proof (check_egress_app idx expected actual st initial_results) as H.
  rewrite app_results_initial_r in H. rewrite H. by eexists.
Qed.

Lemma check_ingress_mono idx expected actual more st d :
  actual ⊆ more →
  check_ingress_rules idx expected actual st = inr d →
  failed d = failed st →
  check_ingress_rules idx expected more st = inr d.
Proof.
  intros Hsub. revert idx st.
  induction expected as [|e rest IH]; intros idx st; [done|].
  cbn [check_ingress_rules].
  destruct (_find_matching_ingress_rule e actual) eqn:Hfind.
  - rewrite (find_ingress_mono e actual more Hsub Hfind).
    destruct (ingress_found_message (S idx) e) as [x|m]; [done|].
    intros Hrun Hf. by apply IH.
  - intros Hrun Hf. apply check_ingress_failed in Hrun as [fs Hfs].
    cbn in Hfs. rewrite Hf in Hfs. apply (f_equal length) in Hfs.
    rewrite !length_app in Hfs. cbn in Hfs. lia.
Qed.

Lemma check_egress_mono idx expected actual more st :
  actual ⊆ more →
  failed (check_egress_rules idx expected actual st) = failed st →
  check_egress_rules idx expected more st =
  check_egress_rules idx expected actual st.
Proof.
  intros Hsub. revert idx st.
  induction expected as [|e rest IH]; intros idx st; [done|].
  cbn [check_egress_rules].
  rewrite (find_egress_ingress e actual), (find_egress_ingress e more).
  destruct (_find_matching_ingress_rule e actual) eqn:Hfind.
  - rewrite (find_ingress_mono e actual more Hsub Hfind). intros Hf. by apply IH.
  - intros Hf.
    destruct (check_egress_failed (S idx) rest actual
                (add_failed (EgressRuleNotFound (S idx) e) st)) as [fs Hfs].
    cbn in Hfs. rewrite Hf in Hfs. apply (f_equal length) in Hfs.
    rewrite !length_app in Hfs. cbn in Hfs. lia.
Qed.

Lemma step_mono_intro vr (f g : validation_results → step bool) :
  (∀ st d, f (app_results st d) = replay vr st (f d)) →
  (∀ st d, g (app_results st d) = replay vr st (g d)) →
  (∀ b d, f initial_results = inr (b, d) → (vr = Cumulative → failed d = []) →
     ∃ b' d', g initial_results = inr (b', d') ∧ failed d' = failed d) →
  step_mono f g.
Proof.
  intros Hf Hg Hinit st st' s Hst.
  rewrite (from_initial f vr Hf st), (from_initial g vr Hg st'). unfold replay.
  destruct (f initial_results) as [x|[b d]] eqn:Hfi; [done|].
  intros [= Hv <-].
  destruct (Hinit b d eq_refl) as (b' & d' & -> & Hd).
  { intros ->. cbn in Hv. apply no_failures_spec in Hv. cbn in Hv.
    by apply app_eq_nil in Hv as [_ ?]. }
  assert (failed (app_results st d) = failed (app_results st' d')) as Hfs.
  { cbn. by rewrite Hst, Hd. }
  eexists. split; [|exact Hfs]. f_equal. f_equal.
  destruct vr; [|done]. cbn [verdict] in *. unfold no_failures in *.
  by rewrite <- Hfs.
Qed.

Lemma step_mono_same vr (f : validation_results → step bool) :
  (∀ st d, f (app_results st d) = replay vr st (f d)) → step_mono f f.
Proof. intros Hf. apply (step_mono_intro vr); [done | done |]. intros b d ? _. eauto. Qed.

Lemma run_validations_mono vs vs' st st' bs s :
  Forall2 step_mono vs vs' → failed st = failed st' →
  run_validations vs st = inr (bs, s) → all bs = true →
  ∃ s', run_validations vs' st' = inr (bs, s') ∧ failed s = failed s'.
Proof.
  intros Hvs. revert st st' bs s.
  induction Hvs as [|f g vs vs' Hfg _ IH]; intros st st' bs s Hst.
  - intros [= <- <-] _. by exists st'.
  - cbn [run_validations].
    destruct (f st) as [x|[b t]] eqn:Hf; [done|].
    destruct (run_validations vs t) as [x|[bs0 t0]] eqn:Hrest; [done|].
    intros [= <- <-]. cbn. intros [-> Hall]%andb_prop.
    destruct (Hfg st st' t Hst Hf) as (t' & -> & Ht).
    destruct (IH t t' bs0 t0 Ht Hrest Hall) as (s' & -> & Hs).
    by exists s'.
Qed.

Lemma check_ingress_warnings idx expected actual st d :
  check_ingress_rules idx expected actual st = inr d → warnings d = warnings st.
Proof.
  revert idx st. induction expected as [|e rest IH]; intros idx st.
  - by intros [= <-].
  - cbn [check_ingress_rules].
    destruct (_find_matching_ingress_rule e actual).
    + destruct (ingress_found_message (S idx) e); [done|].
      intros H. by apply IH in H.
    + intros H. by apply IH in H.
Qed.

(** C7, as stated, fails: the observed rule for port 22 is equivalent to
    none of the two expected rules, and the step records no warning, since
    it compares the numbers of rules only (two and two); the egress step
    never reports an observed rule. *)
Lemma unexpected_rule_not_reported :
  _find_matching_ingress_rule (expect_tcp 443 ["0.0.0.0/0"%string])
    [tcp_rule 22 ["0.0.0.0/0"%string]] = false ∧
  _find_matching_ingress_rule (expect_tcp 80 ["0.0.0.0/0"%string])
    [tcp_rule 22 ["0.0.0.0/0"%string]] = false ∧
  validate_ingress_rules
      (group [tcp_rule 443 ["0.0.0.0/0"%string]; tcp_rule 22 ["0.0.0.0/0"%string]] [])
      [expect_tcp 443 ["0.0.0.0/0"%string]; expect_tcp 80 ["0.0.0.0/0"%string]]
      initial_results =
    inr (false,
         {| passed := [IngressRuleFound 1 "tcp" 443 443];
            failed := [IngressRuleNotFound 2 (expect_tcp 80 ["0.0.0.0/0"%string])];
            warnings := [] |}) ∧
  validate_egress_rules
      (with_rules (group [] []) [] [tcp_rule 22 ["0.0.0.0/0"%string]])
      [] initial_results =
    inr (true, initial_results).
Proof. by vm_compute. Qed.

(** C7, amended: the ingress step records one warning, with the difference
    of the two numbers, when there are more observed ingress rules than
    expected ones, and no warning otherwise; it does not tell which
    observed rules are unexpected, and the egress step records no warning.
    These warnings never fail a run: a run that passes still passes, with
    the same failures (none), when observed ingress or egress rules are
    added. *)
Theorem extra_rules_only_warn (id : string) (w : World) (cfg : ExpectedConfig)
    sg (more_ingress more_egress : list IpPermission) :
  w_fetch w = Fetched sg →
  IpPermissions sg ⊆ more_ingress →
  IpPermissionsEgress sg ⊆ more_egress →
  (∀ expected st b st',
     validate_ingress_rules sg expected st = inr (b, st') →
     warnings st' =
       warnings st ++
       if (length expected <? length (IpPermissions sg))%nat
       then [AdditionalIngressRules (length (IpPermissions sg) - length expected)]
       else []) ∧
  (∀ expected st b st',
     validate_egress_rules sg expected st = inr (b, st') →
     warnings st' = warnings st) ∧
  (∀ run, run_all_validations id w cfg = inr run → success run = true →
     ∃ run', run_all_validations id
               (with_group w (with_rules sg more_ingress more_egress)) cfg = inr run' ∧
             success run' = true ∧
             failed (report run') = failed (report run)).
Proof.
  intros Hfetch Hin Heg. split_and!.
  - intros expected st b st'. unfold validate_ingress_rules.
    destruct (check_ingress_rules 0 expected (IpPermissions sg) st)
      as [x|d] eqn:Hd; [done|].
    apply check_ingress_warnings in Hd.
    destruct (length expected <? length (IpPermissions sg))%nat;
      intros [= _ <-]; cbn; rewrite Hd, ?app_nil_r; done.
  - intros expected st b st'. unfold validate_egress_rules. intros [= _ <-].
    generalize 0%nat. revert st.
    induction expected as [|e rest IH]; intros st idx; [done|].
    cbn [check_egress_rules].
    destruct (_find_matching_egress_rule e (IpPermissionsEgress sg)); by rewrite IH.
  - intros run. unfold run_all_validations. rewrite Hfetch. cbn [with_group w_fetch].
    destruct (run_validations (validations id w sg cfg) initial_results)
      as [x|[bs s]] eqn:Hrun; [done|].
    intros [= <-]. cbn [success report]. intros Hall.
    assert (Forall2 step_mono
              (validations id w sg cfg)
              (validations id (with_group w (with_rules sg more_ingress more_egress))
                           (with_rules sg more_ingress more_egress) cfg)) as Hvs.
    { unfold validations. constructor; [|constructor; [|constructor; [|constructor;
        [|constructor; [|constructor; [|constructor]]]]]].
      - apply (step_mono_intro Cumulative); [apply basic_app | apply basic_app |].
        intros b d Hd _. exists b, d. by split.
      - apply (step_mono_intro Cumulative); [apply ingress_app | apply ingress_app |].
        intros b d. unfold validate_ingress_rules.
        cbn [with_rules IpPermissions].
        destruct (check_ingress_rules 0 _ (IpPermissions sg) initial_results)
          as [x|d0] eqn:Hd0; [done|].
        intros [= _ <-] Hf. specialize (Hf eq_refl).
        assert (failed d0 = []) as Hf0.
        { by destruct (length _ <? length _)%nat. }
        rewrite (check_ingress_mono _ _ _ more_ingress _ _ Hin Hd0) by done.
        do 2 eexists. split; [reflexivity|].
        by do 2 destruct (length _ <? length _)%nat.
      - apply (step_mono_intro Cumulative); [apply egress_app | apply egress_app |].
        intros b d. unfold validate_egress_rules.
        cbn [with_rules IpPermissionsEgress].
        intros [= _ <-] Hf. specialize (Hf eq_refl).
        rewrite (check_egress_mono _ _ _ more_egress _ Heg) by by rewrite Hf.
        by do 2 eexists.
      - apply (step_mono_intro Cumulative); [apply tags_app | apply tags_app |].
        intros b d Hd _. exists b, d. by split.
      - apply (step_mono_intro AlwaysTrue);
          [apply best_practices_app | apply best_practices_app |].
        intros b d. unfold validate_security_best_practices.
        intros [= _ <-] _. do 2 eexists. split; [reflexivity|].
        by do 2 destruct (best_practice_warnings _).
      - apply (step_mono_intro (outputs_rule (w_outputs w)));
          [apply outputs_app | apply outputs_app |].
        intros b d Hd _. exists b, d. by split. }
    destruct (run_validations_mono _ _ _ initial_results _ _ Hvs eq_refl Hrun Hall)
      as (s' & -> & Hs).
    eexists. split; [reflexivity|]. cbn. by split.
Qed.

Lemma extra_rules_only_warn_witness :
  [tcp_rule 443 ["0.0.0.0/0"%string]] ⊆
    [tcp_rule 443 ["0.0.0.0/0"%string]; tcp_rule 22 ["0.0.0.0/0"%string]] ∧
  ∃ run',
    run_all_validations "sg-1"
      (with_group (world (group [tcp_rule 443 ["0.0.0.0/0"%string]] []))
         (with_rules (group [tcp_rule 443 ["0.0.0.0/0"%string]] [])
            [tcp_rule 443 ["0.0.0.0/0"%string]; tcp_rule 22 ["0.0.0.0/0"%string]] []))
      (expect [expect_tcp 443 ["0.0.0.0/0"%string]] []) = inr run' ∧
    success run' = true.
Proof.
  assert ([tcp_rule 443 ["0.0.0.0/0"%string]] ⊆
    [tcp_rule 443 ["0.0.0.0/0"%string]; tcp_rule 22 ["0.0.0.0/0"%string]]) as Hsub.
  { intros r Hr. apply elem_of_cons. by left; apply list_elem_of_singleton in Hr. }
  split; [done|].
  destruct (extra_rules_only_warn "sg-1"
              (world (group [tcp_rule 443 ["0.0.0.0/0"%string]] []))
              (expect [expect_tcp 443 ["0.0.0.0/0"%string]] [])
              (group [tcp_rule 443 ["0.0.0.0/0"%string]] [])
              [tcp_rule 443 ["0.0.0.0/0"%string]; tcp_rule 22 ["0.0.0.0/0"%string]] []
              eq_refl Hsub (λ r Hr, Hr))
    as (_ & _ & Hrun).
  destruct (Hrun _ eq_refl eq_refl) as (run' & Hrun' & Hok & _).
  by exists run'.
Defined.
End PostDeployProps.

(** * Properties of Validate_terraform.py *)

Module ConfigCheckProps.
Import ConfigCheck.

Implicit Types (v : validator) (rule : Rule).

Lemma missing_fields_nil rule :
  missing_fields rule = [] ↔
  is_Some (from_port rule) ∧ is_Some (to_port rule) ∧
  is_Some (protocol rule) ∧ is_Some (cidr_blocks rule).
Proof.
  unfold missing_fields, absent.
  destruct (from_port rule), (to_port rule), (protocol rule), (cidr_blocks rule);
    cbn; split; try done; intros (? & ? & ? & ?);
    repeat match goal with H : is_Some None |- _ => by destruct H end.
Qed.

(** The errors of one iteration. *)
Lemma check_rule_errors n rule v m :
  m ∈ errors (check_ingress_rule n rule v) ↔ m ∈ errors v ∨ rule_error n rule m.
Proof.
  unfold check_ingress_rule, rule_error.
  destruct (from_port rule) as [f|] eqn:Hf, (to_port rule) as [t|] eqn:Ht,
           (protocol rule) as [p|] eqn:Hp, (cidr_blocks rule) as [cs|] eqn:Hcs.
  2-16: cbn; rewrite elem_of_app, list_elem_of_singleton; split;
    [ intros [? | ->]; [by left | right; left; split; [|done]];
      unfold missing_fields; rewrite Hf, Ht, Hp, Hcs; done
    | intros [? | [[_ ->] | (? & ? & ? & ? & [? ?] & [? ?] & _)]];
      [by left | by right | done ..] ].
  assert (missing_fields rule = []) as Hm.
  { apply missing_fields_nil. rewrite Hf, Ht, Hp, Hcs. by split_and!. }
  set (v1 := if t <? f then add_error (PortOrder n f t) v else v).
  assert (∀ v2, errors
            (if truthy_str (description rule) then v2
             else add_warning (NoDescription n) v2) = errors v2) as Hd.
  { intros v2. by destruct (truthy_str (description rule)). }
  rewrite Hd.
  assert (∀ v2 ws, errors (if bool_decide (internet ∈ cs) then add_warnings ws v2 else v2)
                   = errors v2) as Hi.
  { intros v2 ws. by destruct (bool_decide (internet ∈ cs)). }
  rewrite Hi.
  assert (errors (if bool_decide (p ∈ valid_protocols) then v1
                  else add_warning (UnusualProtocol n p) v1) = errors v1) as ->.
  { by destruct (bool_decide (p ∈ valid_protocols)). }
  subst v1. destruct (t <? f) eqn:Hlt.
  - apply Z.ltb_lt in Hlt. cbn. rewrite elem_of_app, list_elem_of_singleton. split.
    + intros [? | ->]; [by left|]. right. right. exists f, t. by split_and!.
    + intros [? | [[? _] | (f' & t' & [= <-] & [= <-] & _ & _ & _ & ->)]];
        [by left | done | by right].
  - apply Z.ltb_ge in Hlt. split; [by left|].
    intros [? | [[? _] | (f' & t' & [= <-] & [= <-] & _ & _ & ? & _)]];
      [done | done | lia].
Qed.

Lemma check_rules_errors idx rules v m :
  m ∈ errors (check_ingress_rules idx rules v) ↔
  m ∈ errors v ∨ ∃ j rj, rules !! j = Some rj ∧ rule_error (S (idx + j)) rj m.
Proof.
  revert idx v. induction rules as [|r rest IH]; intros idx v.
  - cbn. split; [by left|]. by intros [? | (j & rj & ? & _)].
  - cbn [check_ingress_rules]. rewrite IH, check_rule_errors. split.
    + intros [[? | Hr] | (j & rj & Hj & Hr)].
      * by left.
      * right. exists 0%nat, r. by rewrite Nat.add_0_r.
      * right. exists (S j), rj.
        replace (idx + S j)%nat with (S idx + j)%nat by lia. done.
    + intros [? | ([|j] & rj & Hj & Hr)].
      * by left; left.
      * injection Hj as <-. rewrite Nat.add_0_r in Hr. by left; right.
      * right. exists j, rj. cbn in Hj.
        replace (idx + S j)%nat with (S idx + j)%nat in Hr by lia. done.
Qed.

Lemma check_rule_warnings_mono n rule v m :
  m ∈ warnings v → m ∈ warnings (check_ingress_rule n rule v).
Proof.
  intros Hm. unfold check_ingress_rule.
  destruct (from_port rule) as [f|], (to_port rule) as [t|],
           (protocol rule) as [p|], (cidr_blocks rule) as [cs|]; try done.
  destruct (t <? f), (bool_decide (p ∈ valid_protocols)),
           (bool_decide (internet ∈ cs)), (truthy_str (description rule));
    cbn; rewrite ?elem_of_app; tauto.
Qed.

Lemma check_rules_warnings_mono idx rules v m :
  m ∈ warnings v → m ∈ warnings (check_ingress_rules idx rules v).
Proof.
  revert idx v. induction rules as [|r rest IH]; intros idx v Hm; [done|].
  cbn [check_ingress_rules]. by apply IH, check_rule_warnings_mono.
Qed.

Lemma check_rule_unusual n rule v p :
  missing_fields rule = [] → protocol rule = Some p → p ∉ valid_protocols →
  UnusualProtocol n p ∈ warnings (check_ingress_rule n rule v).
Proof.
  intros (Hf & Ht & _ & Hcs)%missing_fields_nil Hp Hnot.
  unfold check_ingress_rule. rewrite Hp.
  destruct Hf as [f ->], Ht as [t ->], Hcs as [cs ->].
  rewrite (bool_decide_eq_false_2 _ Hnot).
  destruct (t <? f), (bool_decide (internet ∈ cs)), (truthy_str (description rule));
    cbn; rewrite ?elem_of_app, ?list_elem_of_singleton; tauto.
Qed.

Lemma check_rules_unusual idx rules v j rule p :
  rules !! j = Some rule →
  missing_fields rule = [] → protocol rule = Some p → p ∉ valid_protocols →
  UnusualProtocol (S (idx + j)) p ∈ warnings (check_ingress_rules idx rules v).
Proof.
  revert idx v j. induction rules as [|r rest IH]; intros idx v j Hj Hm Hp Hnot; [done|].
  cbn [check_ingress_rules]. destruct j as [|j].
  - injection Hj as ->. rewrite Nat.add_0_r.
    by apply check_rules_warnings_mono, check_rule_unusual.
  - replace (idx + S j)%nat with (S idx + j)%nat by lia. by apply IH.
Qed.

Lemma no_errors_false v m : m ∈ errors v → no_errors v = false.
Proof. unfold no_errors. destruct (errors v); [by intros ?%elem_of_nil | done]. Qed.

Lemma gre_not_valid : "gre"%string ∉ valid_protocols.
Proof.
  unfold valid_protocols. intros H.
  repeat (apply elem_of_cons in H as [? | H]; [done|]). by apply elem_of_nil in H.
Qed.

(** C8, as stated, fails: a rule with all its fields, a proper port range
    and the protocol [gre] passes the static validation; the unrecognized
    protocol is recorded as a warning, and no error is recorded. *)
Lemma unusual_protocol_only_warns :
  ("gre"%string ∉ valid_protocols) ∧
  validate_ingress_rules [rule_with_protocol "gre"] initial =
    (true, {| errors := []; warnings := [UnusualProtocol 1 "gre"] |}).
Proof. split; [apply gre_not_valid | by vm_compute]. Qed.

(** C8, amended: for every rule of a non-empty specification, the static
    validation, which calls no cloud service, records the error "Missing
    fields" with the missing names when one of [from_port], [to_port],
    [protocol], [cidr_blocks] is absent, and the error "from_port > to_port"
    when all are present and the range is reversed, whatever the protocol;
    in both cases it returns [False].  For a rule with all its fields and a
    protocol outside [tcp], [udp], [icmp], [-1] it records the warning
    "Unusual protocol".  The errors it records are of these two kinds only,
    so an unrecognized protocol does not make the validation fail; the
    value returned is [True] iff no error is recorded. *)
Theorem static_rule_checks (rules : list Rule) v (i : nat) rule :
  rules !! i = Some rule →
  ∃ v', validate_ingress_rules rules v = (no_errors v', v') ∧
    (missing_fields rule ≠ [] →
       MissingFields (S i) (missing_fields rule) ∈ errors v' ∧
       no_errors v' = false) ∧
    (∀ f t, from_port rule = Some f → to_port rule = Some t →
            is_Some (protocol rule) → is_Some (cidr_blocks rule) → t < f →
       PortOrder (S i) f t ∈ errors v' ∧ no_errors v' = false) ∧
    (∀ p, missing_fields rule = [] → protocol rule = Some p →
          p ∉ valid_protocols →
       UnusualProtocol (S i) p ∈ warnings v') ∧
    (∀ m, m ∈ errors v' ↔
          m ∈ errors v ∨ ∃ j rj, rules !! j = Some rj ∧ rule_error (S j) rj m).
Proof.
  intros Hi. unfold validate_ingress_rules.
  destruct rules as [|r0 rest] eqn:Hrules; [done|]. rewrite <- Hrules in *.
  eexists. split; [reflexivity|]. split_and!.
  - intros Hm.
    assert (MissingFields (S i) (missing_fields rule) ∈
              errors (check_ingress_rules 0 rules v)) as Hin.
    { apply check_rules_errors. right. exists i, rule. split; [done|]. by left. }
    split; [done | by eapply no_errors_false].
  - intros f t Hf Ht Hp Hcs Hlt.
    assert (PortOrder (S i) f t ∈ errors (check_ingress_rules 0 rules v)) as Hin.
    { apply check_rules_errors. right. exists i, rule. split; [done|].
      right. exists f, t. by split_and!. }
    split; [done | by eapply no_errors_false].
  - intros p Hm Hp Hnot. by apply (check_rules_unusual 0 rules v i rule p).
  - intros m. apply check_rules_errors.
Qed.

Lemma static_rule_checks_witness :
  [rule_with_protocol "gre"] !! 0%nat = Some (rule_with_protocol "gre") ∧
  ∃ v', validate_ingress_rules [rule_with_protocol "gre"] initial =
          (no_errors v', v') ∧
        UnusualProtocol 1 "gre" ∈ warnings v'.
Proof.
  split; [done|].
  destruct (static_rule_checks [rule_with_protocol "gre"] initial 0
              (rule_with_protocol "gre") eq_refl)
    as (v' & Hrun & _ & _ & Hwarn & _).
  exists v'. split; [done|].
  apply Hwarn; [done | done |].
  apply gre_not_valid.
Defined.

End ConfigCheckProps.

(** * Properties of Run_all_tests.py *)

Module RunnerProps.
Import Runner.

Implicit Types (w : World) (cfg : Config) (r : runner) (k : phase_key).

(** ** What a phase changes *)

Lemma get_put_ne k k' p rs : k' ≠ k → get_result k' (put_result k p rs) = get_result k' rs.
Proof. by destruct k, k'. Qed.

Lemma set_status_keeps k k' s r :
  k' ≠ k → get_result k' (results (set_status k s r)) = get_result k' (results r).
Proof. intros. by apply get_put_ne. Qed.

Lemma add_detail_keeps k k' x r :
  k' ≠ k → get_result k' (results (add_detail k x r)) = get_result k' (results r).
Proof. intros. by apply get_put_ne. Qed.

Ltac keeps_tac :=
  repeat first
    [ progress cbn [fst snd results log set_security_group_id run_command]
    | rewrite add_detail_keeps by done
    | rewrite set_status_keeps by done ];
  try reflexivity.

Lemma phase_1_keeps w cfg k : k ≠ PreDeployment →
  keeps k (phase_1_pre_deployment_validation w cfg).
Proof.
  intros Hk r. unfold phase_1_pre_deployment_validation.
  destruct (negb _); [keeps_tac|]. cbn [run_command].
  destruct (returncode _ =? 0); keeps_tac.
Qed.

Lemma phase_2_keeps w cfg k : k ≠ TerraformTests →
  keeps k (phase_2_terraform_native_tests w cfg).
Proof.
  intros Hk r. unfold phase_2_terraform_native_tests.
  destruct (negb _); [keeps_tac|].
  destruct (w_listdir w) as [x|files]; [done|].
  destruct (filter _ files); [keeps_tac|]. cbn [run_command].
  destruct (returncode _ =? 0); keeps_tac.
Qed.

Lemma integration_steps_keeps w k : k ≠ IntegrationTest →
  keeps k (integration_steps w).
Proof.
  intros Hk r. unfold integration_steps. cbn [run_command].
  destruct (returncode _ =? 0).
  - destruct (w_parse_outputs w _) as [x|sg_id]; [done|].
    destruct (w_write_outputs w); [done|].
    destruct (w_pytest w); [done|].
    destruct (w_report_failed w) as [n|]; [destruct (0 <? n)|]; keeps_tac.
  - destruct (w_pytest w); [done|].
    destruct (w_report_failed w) as [n|]; [destruct (0 <? n)|]; keeps_tac.
Qed.

Lemma phase_3_keeps w cfg k : k ≠ IntegrationTest →
  keeps k (phase_3_deploy_and_integration_test w cfg).
Proof.
  intros Hk r. unfold phase_3_deploy_and_integration_test.
  destruct (negb (config_get _ _)); [keeps_tac|]. cbn [run_command].
  destruct (negb (returncode _ =? 0)); [keeps_tac|].
  destruct (negb (returncode _ =? 0)); [keeps_tac|].
  destruct (negb (returncode _ =? 0)); [keeps_tac|].
  by rewrite integration_steps_keeps.
Qed.

Lemma phase_4_keeps w cfg k : k ≠ PostDeployment →
  keeps k (phase_4_post_deployment_validation w cfg).
Proof.
  intros Hk r. unfold phase_4_post_deployment_validation.
  destruct (negb (config_get _ _)); [keeps_tac|].
  destruct (negb (truthy_str _)); [keeps_tac|]. cbn [run_command].
  destruct (returncode _ =? 0); keeps_tac.
Qed.

Lemma phases_keep w cfg k name f k' :
  (k, (name, f)) ∈ phases w cfg → k' ≠ k → keeps k' f.
Proof.
  unfold phases. intros Hin Hk.
  repeat (apply elem_of_cons in Hin as [[= -> -> ->] | Hin];
          [first [ by apply phase_1_keeps | by apply phase_2_keeps
                 | by apply phase_3_keeps | by apply phase_4_keeps ]|]).
  by apply elem_of_nil in Hin.
Qed.

Lemma run_phases_keeps cfg (ps : list phase) k b r :
  Forall (λ p, keeps k p.2) ps →
  get_result k (results (run_phases cfg ps b r).1) = get_result k (results r).
Proof.
  intros Hps. revert b r. induction Hps as [|[name f] ps Hf _ IH]; intros b r; [done|].
  cbn [run_phases]. specialize (Hf r). cbn in Hf.
  destruct (f r) as [r1 [[]|e]]; cbn [fst] in Hf.
  - by rewrite IH.
  - destruct (config_get (fail_fast cfg) false); [done | by rewrite IH].
  - destruct (config_get (fail_fast cfg) false); [done | by rewrite IH].
Qed.

(** ** What a phase adds to the trace *)

Ltac no_destroy_tac :=
  cbn [fst snd trace log set_status add_detail set_results set_security_group_id
       run_command];
  rewrite <- ?app_assoc;
  first [ exists []; split; [by rewrite app_nil_r | apply not_elem_of_nil]
        | eexists; split; [reflexivity|];
          let H := fresh in
          intros H; repeat (apply elem_of_cons in H as [H | H]; [discriminate H|]);
          by apply elem_of_nil in H ].

Lemma phase_1_no_destroy w cfg : no_destroy (phase_1_pre_deployment_validation w cfg).
Proof.
  intros r. unfold phase_1_pre_deployment_validation.
  destruct (negb _); [no_destroy_tac|]. cbn [run_command].
  destruct (returncode _ =? 0); no_destroy_tac.
Qed.

Lemma phase_2_no_destroy w cfg : no_destroy (phase_2_terraform_native_tests w cfg).
Proof.
  intros r. unfold phase_2_terraform_native_tests.
  destruct (negb _); [no_destroy_tac|].
  destruct (w_listdir w) as [x|files]; [no_destroy_tac|].
  destruct (filter _ files); [no_destroy_tac|]. cbn [run_command].
  destruct (returncode _ =? 0); no_destroy_tac.
Qed.

Lemma integration_steps_no_destroy w : no_destroy (integration_steps w).
Proof.
  intros r. unfold integration_steps. cbn [run_command].
  destruct (returncode _ =? 0).
  - destruct (w_parse_outputs w _) as [x|sg_id]; [no_destroy_tac|].
    destruct (w_write_outputs w); [no_destroy_tac|].
    destruct (w_pytest w); [no_destroy_tac|].
    destruct (w_report_failed w) as [n|]; [destruct (0 <? n)|]; no_destroy_tac.
  - destruct (w_pytest w); [no_destroy_tac|].
    destruct (w_report_failed w) as [n|]; [destruct (0 <? n)|]; no_destroy_tac.
Qed.

Lemma phase_3_no_destroy w cfg :
  no_destroy (phase_3_deploy_and_integration_test w cfg).
Proof.
  intros r. unfold phase_3_deploy_and_integration_test.
  destruct (negb (config_get _ _)); [no_destroy_tac|]. cbn [run_command].
  destruct (negb (returncode _ =? 0)); [no_destroy_tac|].
  destruct (negb (returncode _ =? 0)); [no_destroy_tac|].
  destruct (negb (returncode _ =? 0)); [no_destroy_tac|].
  destruct (integration_steps_no_destroy w
              (log (Ran TerraformApply)
                 (log (Ran TerraformPlan) (log (Ran TerraformInit) r))))
    as (evs & -> & Hevs).
  exists ([Ran TerraformInit; Ran TerraformPlan; Ran TerraformApply] ++ evs).
  split; [cbn; by rewrite <- !app_assoc|].
  intros H. repeat (apply elem_of_cons in H as [H | H]; [discriminate H|]). done.
Qed.

Lemma phase_4_no_destroy w cfg :
  no_destroy (phase_4_post_deployment_validation w cfg).
Proof.
  intros r. unfold phase_4_post_deployment_validation.
  destruct (negb (config_get _ _)); [no_destroy_tac|].
  destruct (negb (truthy_str _)); [no_destroy_tac|]. cbn [run_command].
  destruct (returncode _ =? 0); no_destroy_tac.
Qed.

Lemma phases_no_destroy w cfg :
  Forall (λ p : phase, no_destroy p.2) ((phases w cfg).*2).
Proof.
  unfold phases. cbn. repeat constructor; cbn.
  - apply phase_1_no_destroy.
  - apply phase_2_no_destroy.
  - apply phase_3_no_destroy.
  - apply phase_4_no_destroy.
Qed.

Lemma run_phases_no_destroy cfg (ps : list phase) b r :
  Forall (λ p : phase, no_destroy p.2) ps →
  ∃ evs, trace (run_phases cfg ps b r).1 = trace r ++ evs ∧
         Ran TerraformDestroy ∉ evs.
Proof.
  intros Hps. revert b r. induction Hps as [|[name f] ps Hf _ IH]; intros b r.
  - exists []. split; [by rewrite app_nil_r | apply not_elem_of_nil].
  - cbn [run_phases]. destruct (Hf r) as (evs & Htr & Hevs). cbn in Htr.
    destruct (f r) as [r1 [[]|e]]; cbn [fst] in Htr.
    + destruct (IH b r1) as (evs' & -> & Hevs'). rewrite Htr, <- app_assoc.
      eexists. split; [reflexivity|]. rewrite elem_of_app. tauto.
    + destruct (config_get (fail_fast cfg) false).
      * by exists evs.
      * destruct (IH false r1) as (evs' & -> & Hevs'). rewrite Htr, <- app_assoc.
        eexists. split; [reflexivity|]. rewrite elem_of_app. tauto.
    + assert (Ran TerraformDestroy ∉ evs ++ [ExceptionIn name e]) as Hevs1.
      { rewrite elem_of_app, list_elem_of_singleton. intros [? | ?]; done. }
      destruct (config_get (fail_fast cfg) false).
      * exists (evs ++ [ExceptionIn name e]). split; [|done].
        cbn. by rewrite Htr, <- app_assoc.
      * destruct (IH false (log (ExceptionIn name e) r1)) as (evs' & -> & Hevs').
        cbn. rewrite Htr, <- !app_assoc.
        eexists. split; [reflexivity|].
        rewrite !elem_of_app, list_elem_of_singleton. intros [? | [? | ?]]; done.
Qed.

(** ** The outcome of [terraform destroy] is read by [cleanup] only *)

Lemma phases_destroy_irrelevant w cfg p :
  Forall2 (λ f g : phase, f.1 = g.1 ∧ ∀ r, f.2 r = g.2 r)
          ((phases (with_proc w TerraformDestroy p) cfg).*2) ((phases w cfg).*2).
Proof. unfold phases. cbn. repeat constructor. Qed.

Lemma run_phases_ext cfg (ps qs : list phase) b r :
  Forall2 (λ f g : phase, f.1 = g.1 ∧ ∀ r, f.2 r = g.2 r) ps qs →
  run_phases cfg ps b r = run_phases cfg qs b r.
Proof.
  intros Hps. revert b r.
  induction Hps as [|[n f] [n' g] ps qs [Hn Hfg] _ IH]; intros b r; [done|].
  cbn in Hn, Hfg. subst n'. cbn [run_phases]. rewrite Hfg.
  destruct (g r) as [r1 [[]|e]]; by rewrite ?IH.
Qed.

Lemma finish_results w cfg r : results (finish w cfg r) = results r.
Proof.
  unfold finish, cleanup.
  destruct (config_get (cleanup_enabled cfg) true); cbn; [|done].
  by destruct (returncode _ =? 0).
Qed.

Lemma finish_trace w cfg r :
  trace (finish w cfg r) =
  trace r ++
  (if config_get (cleanup_enabled cfg) true then [Ran TerraformDestroy] else []) ++
  [FinalSummary (failed_phases (results r))].
Proof.
  unfold finish, cleanup.
  destruct (config_get (cleanup_enabled cfg) true); cbn; [|done].
  destruct (returncode _ =? 0); cbn; by rewrite <- app_assoc.
Qed.

Lemma filter_absent (x : event) (l : list event) :
  x ∉ l → filter (λ y, y = x) l = [].
Proof.
  induction l as [|y l IH]; [done|]. intros Hx.
  apply not_elem_of_cons in Hx as [Hne Hx].
  rewrite filter_cons_False by congruence. by apply IH.
Qed.

(** C4: in every run, hence in every run in which a phase fails or raises,
    the phases themselves never start [terraform destroy]; after the loop
    over the phases has ended, [terraform destroy] is started exactly once
    when cleanup is enabled and not at all when it is disabled, and the
    final summary follows.  Whatever the outcome of [terraform destroy]
    (failure, timeout or exception included), the recorded phase results
    are those left by the phases and the exit status is the verdict of the
    phases. *)
Theorem teardown_once_after_phases w cfg :
  ∃ r1 ok, run_phases cfg ((phases w cfg).*2) true init = (r1, ok) ∧
    (Ran TerraformDestroy ∉ trace r1) ∧
    trace (main w cfg).1 =
      trace r1 ++
      (if config_get (cleanup_enabled cfg) true then [Ran TerraformDestroy] else []) ++
      [FinalSummary (failed_phases (results r1))] ∧
    length (filter (λ ev, ev = Ran TerraformDestroy) (trace (main w cfg).1)) =
      (if config_get (cleanup_enabled cfg) true then 1%nat else 0%nat) ∧
    results (main w cfg).1 = results r1 ∧
    (main w cfg).2 = (if ok then 0 else 1) ∧
    ∀ p, results (main (with_proc w TerraformDestroy p) cfg).1 = results r1 ∧
         (main (with_proc w TerraformDestroy p) cfg).2 = (if ok then 0 else 1).
Proof.
  destruct (run_phases cfg ((phases w cfg).*2) true init) as [r1 ok] eqn:Hrun.
  exists r1, ok. split; [done|].
  assert (Ran TerraformDestroy ∉ trace r1) as Hno.
  { destruct (run_phases_no_destroy cfg _ true init (phases_no_destroy w cfg))
      as (evs & Htr & Hevs).
    rewrite Hrun in Htr. cbn in Htr. by rewrite Htr. }
  assert (main w cfg = (finish w cfg r1, if ok then 0 else 1)) as Hmain.
  { unfold main, run_all_phases. by rewrite Hrun. }
  rewrite Hmain. cbn [fst snd]. split_and!; try done.
  - apply finish_trace.
  - rewrite finish_trace, !filter_app, (filter_absent _ _ Hno).
    by destruct (config_get (cleanup_enabled cfg) true).
  - apply finish_results.
  - intros p. unfold main, run_all_phases.
    rewrite (run_phases_ext cfg _ _ true init (phases_destroy_irrelevant w cfg p)), Hrun.
    cbn [fst snd]. split; [apply finish_results | done].
Qed.

(** ** Exceptions raised inside a phase *)

(** A phase that raises has recorded nothing in [self.results]. *)
Lemma raising_phase_records_nothing w cfg k name f r r' e :
  (k, (name, f)) ∈ phases w cfg → f r = (r', Raised e) → results r' = results r.
Proof.
  unfold phases. intros Hin.
  repeat (apply elem_of_cons in Hin as [[= -> -> ->] | Hin]).
  - unfold phase_1_pre_deployment_validation.
    destruct (negb _); [done|]. cbn [run_command].
    by destruct (returncode _ =? 0).
  - unfold phase_2_terraform_native_tests.
    destruct (negb _); [done|].
    destruct (w_listdir w) as [x|files]; [by intros [= <- _]|].
    destruct (filter _ files); [done|]. cbn [run_command].
    by destruct (returncode _ =? 0).
  - unfold phase_3_deploy_and_integration_test.
    destruct (negb (config_get _ _)); [done|]. cbn [run_command].
    destruct (negb (returncode _ =? 0)); [done|].
    destruct (negb (returncode _ =? 0)); [done|].
    destruct (negb (returncode _ =? 0)); [done|].
    unfold integration_steps. cbn [run_command].
    destruct (returncode _ =? 0).
    + destruct (w_parse_outputs w _) as [x|sg_id]; [by intros [= <- _]|].
      destruct (w_write_outputs w); [by intros [= <- _]|].
      destruct (w_pytest w); [by intros [= <- _]|].
      destruct (w_report_failed w) as [n|]; [destruct (0 <? n)|]; done.
    + destruct (w_pytest w); [by intros [= <- _]|].
      destruct (w_report_failed w) as [n|]; [destruct (0 <? n)|]; done.
  - unfold phase_4_post_deployment_validation.
    destruct (negb (config_get _ _)); [done|].
    destruct (negb (truthy_str _)); [done|]. cbn [run_command].
    by destruct (returncode _ =? 0).
  - by apply elem_of_nil in Hin.
Qed.

(** C3, evaluated at the failing input: when the directory [tests] does not
    exist, phase 2 raises.  The exception is caught, the later phases,
    the cleanup and the final summary take place and the exit status is 1;
    but the result of the phase keeps the status [pending] and no detail,
    and the final summary finds no failed phase. *)
Theorem exception_leaves_phase_pending :
  phase_2_terraform_native_tests (without_tests_dir healthy) default_config init =
    (init, Raised "[Errno 2] No such file or directory: 'tests'") ∧
  (main (without_tests_dir healthy) default_config).2 = 1 ∧
  terraform_test (results (main (without_tests_dir healthy) default_config).1) =
    {| phase_status := pending; details := [] |} ∧
  trace (main (without_tests_dir healthy) default_config).1 =
    [Ran ValidateTerraform;
     ExceptionIn "Terraform Native Tests"
                 "[Errno 2] No such file or directory: 'tests'";
     Ran TerraformInit; Ran TerraformPlan; Ran TerraformApply;
     Ran TerraformOutput; Ran Pytest; Ran ValidatePostDeployment;
     Ran TerraformDestroy; FinalSummary []].
Proof. by vm_compute. Qed.

(** ** Fail-fast *)

(** When a prefix of the phases leaves [all_passed] true, every phase of
    the prefix returned [True], and the loop goes on with the rest. *)
Lemma run_phases_app_true cfg (ps qs : list phase) b r r1 :
  run_phases cfg ps b r = (r1, true) →
  b = true ∧ run_phases cfg (ps ++ qs) b r = run_phases cfg qs true r1.
Proof.
  revert b r. induction ps as [|[name f] ps IH]; intros b r.
  - by intros [= -> ->].
  - cbn [run_phases app]. destruct (f r) as [r' [[]|e]].
    + apply IH.
    + destruct (config_get (fail_fast cfg) false); [done|].
      intros H. by apply IH in H as [? _].
    + destruct (config_get (fail_fast cfg) false); [done|].
      intros H. by apply IH in H as [? _].
Qed.

Lemma phase_keys_distinct w cfg : NoDup ((phases w cfg).*1).
Proof. unfold phases. cbn. by apply (bool_decide_unpack _). Qed.

(** C5: with fail-fast enabled, let a phase return [False] or raise after
    all phases before it returned [True].  Then the loop ends right after
    that phase: no later phase function is called, the result of every
    later phase is still the initial one (status [pending], no detail, not
    [failed]), [terraform destroy] is started next when cleanup is enabled,
    the final summary follows, and the exit status is 1. *)
Theorem fail_fast_stops w cfg (before after : list (phase_key * phase))
    k (name : string) (f : runner → runner * outcome) (r_i : runner) :
  config_get (fail_fast cfg) false = true →
  phases w cfg = before ++ (k, (name, f)) :: after →
  run_phases cfg (before.*2) true init = (r_i, true) →
  (f r_i).2 ≠ Returned true →
  run_phases cfg ((phases w cfg).*2) true init = (after_phase name (f r_i), false) ∧
  main w cfg = (finish w cfg (after_phase name (f r_i)), 1) ∧
  (∀ k', k' ∈ after.*1 →
         get_result k' (results (main w cfg).1) = pending_result) ∧
  trace (main w cfg).1 =
    trace (after_phase name (f r_i)) ++
    (if config_get (cleanup_enabled cfg) true then [Ran TerraformDestroy] else []) ++
    [FinalSummary (failed_phases (results (after_phase name (f r_i))))].
Proof.
  intros Hff Hsplit Hbefore Hfail.
  assert (run_phases cfg ((phases w cfg).*2) true init =
          (after_phase name (f r_i), false)) as Hrun.
  { rewrite Hsplit, fmap_app.
    rewrite (proj2 (run_phases_app_true cfg _ _ true init r_i Hbefore)).
    cbn [fmap list_fmap snd run_phases]. unfold after_phase.
    destruct (f r_i) as [r' [[]|e]]; cbn in *; by rewrite ?Hff. }
  assert (main w cfg = (finish w cfg (after_phase name (f r_i)), 1)) as Hmain.
  { unfold main, run_all_phases. by rewrite Hrun. }
  split_and!; try done.
  - intros k' Hk'. rewrite Hmain. cbn [fst]. rewrite finish_results.
    pose proof (phase_keys_distinct w cfg) as Hnd.
    rewrite Hsplit, fmap_app, fmap_cons in Hnd. cbn [fst] in Hnd.
    apply NoDup_app in Hnd as (_ & Hdisj & Hnd).
    apply NoDup_cons in Hnd as [Hk _].
    assert (k' ≠ k) as Hne by (intros ->; done).
    assert (k' ∉ before.*1) as Hnb.
    { intros Hb. apply (Hdisj k' Hb). by right. }
    assert (get_result k' (results (f r_i).1) = pending_result) as Hf.
    { rewrite (phases_keep w cfg k name f k'); [|rewrite Hsplit; apply elem_of_app; right; by left | done].
      replace r_i with (run_phases cfg (before.*2) true init).1 by by rewrite Hbefore.
      rewrite run_phases_keeps; [by destruct k'|].
      apply Forall_fmap, Forall_forall. intros [kb [nb fb]] Hin. cbn.
      apply (phases_keep w cfg kb nb fb k').
      - rewrite Hsplit. apply elem_of_app. by left.
      - intros ->. apply Hnb. apply list_elem_of_fmap. by exists (kb, (nb, fb)). }
    unfold after_phase. by destruct ((f r_i).2).
  - rewrite Hmain. cbn [fst]. apply finish_trace.
Qed.

Lemma fail_fast_stops_witness :
  config_get (fail_fast fail_fast_config) false = true ∧
  main (with_proc healthy ValidateTerraform (Completed 1 "" "")) fail_fast_config =
    (finish (with_proc healthy ValidateTerraform (Completed 1 "" "")) fail_fast_config
       (after_phase "Pre-Deployment Validation"
          (phase_1_pre_deployment_validation
             (with_proc healthy ValidateTerraform (Completed 1 "" ""))
             fail_fast_config init)), 1).
Proof.
  split; [reflexivity|].
  apply (fail_fast_stops
           (with_proc healthy ValidateTerraform (Completed 1 "" "")) fail_fast_config
           []
           (tail (phases (with_proc healthy ValidateTerraform (Completed 1 "" ""))
                         fail_fast_config))
           PreDeployment "Pre-Deployment Validation"
           (phase_1_pre_deployment_validation
              (with_proc healthy ValidateTerraform (Completed 1 "" ""))
              fail_fast_config) init).
  - reflexivity.
  - reflexivity.
  - reflexivity.
  - by vm_compute.
Defined.

End RunnerProps.

(** * Further properties of Validate_post_deployment.py *)

Module PostDeployExtra.
Import PostDeploy PostDeployProps.

Implicit Types (st : validation_results) (sg : SgDetails).

(** ** The name check *)

Lemma app_String a (p q : string) : (String a p ++ q = String a (p ++ q))%string.
Proof. reflexivity. Qed.

Lemma app_empty (q : string) : ("" ++ q = q)%string.
Proof. reflexivity. Qed.

Lemma prefix_spec (p s : string) :
  String.prefix p s = true ↔ ∃ post, s = (p ++ post)%string.
Proof.
  revert s. induction p as [|a p IH]; intros s.
  - destruct s; cbn; (split; [intros _; by eexists | done]).
  - destruct s as [|b s]; cbn.
    + split; [done|]. by intros [post ?].
    + destruct (Ascii.ascii_dec a b) as [<-|Hne].
      * rewrite IH. split; intros [post H]; exists post;
          rewrite app_String in *; congruence.
      * split; [done|]. intros [post H]. rewrite app_String in H. congruence.
Qed.

Lemma py_in_spec (sub s : string) :
  py_in sub s = true ↔ ∃ pre post, s = (pre ++ sub ++ post)%string.
Proof.
  induction s as [|b s IH]; cbn [py_in].
  - rewrite orb_false_r, prefix_spec. split.
    + intros [post H]. by exists ""%string, post.
    + intros (pre & post & H). destruct pre; [by exists post|done].
  - rewrite orb_true_iff, prefix_spec, IH. split.
    + intros [[post H] | (pre & post & H)].
      * by exists ""%string, post.
      * exists (String b pre), post. by rewrite app_String, H.
    + intros (pre & post & H). destruct pre as [|a pre].
      * left. by exists post.
      * right. exists pre, post. rewrite app_String in H. congruence.
Qed.

Ltac in_list :=
  cbn; rewrite ?elem_of_app, ?elem_of_cons, ?elem_of_nil;
  intuition (discriminate || congruence).

(** X1. The name check of [validate_basic_properties], on a fresh
    validator: when a name is expected and the group has one, the step
    returns; it records "Name matches" iff one of the two names is a
    contiguous part of the other (so an empty expected name matches every
    group), and the failure "Name mismatch" otherwise. *)
Theorem name_check_is_containment sg (cfg : ExpectedConfig) (n a : string) :
  security_group_name cfg = Some n →
  GroupName sg = Some a →
  ∃ b st', validate_basic_properties sg cfg initial_results = inr (b, st') ∧
    (NameMatches a ∈ passed st' ↔ part_of n a ∨ part_of a n) ∧
    (NameMismatch n a ∈ failed st' ↔ ¬ (part_of n a ∨ part_of a n)).
Proof.
  intros Hn Ha. unfold validate_basic_properties. rewrite Hn, Ha.
  assert (py_in n a || py_in a n = true ↔ part_of n a ∨ part_of a n) as Hspec.
  { rewrite orb_true_iff, !py_in_spec. done. }
  destruct (py_in n a || py_in a n).
  - assert (part_of n a ∨ part_of a n) as Hp by by apply Hspec.
    do 2 eexists. split; [reflexivity|].
    destruct (vpc_id cfg) as [v|]; [case_bool_decide|];
      (destruct (cfg_description cfg) as [c|]; [case_bool_decide|]); in_list.
  - assert (¬ (part_of n a ∨ part_of a n)) as Hp.
    { intros H. apply Hspec in H. done. }
    do 2 eexists. split; [reflexivity|].
    destruct (vpc_id cfg) as [v|]; [case_bool_decide|];
      (destruct (cfg_description cfg) as [c|]; [case_bool_decide|]); in_list.
Qed.

Lemma name_check_is_containment_witness :
  ∃ b st', validate_basic_properties (group [] [])
             {| vpc_id := None; security_group_name := Some "";
                cfg_description := None; ingress_rules := None;
                egress_rules := None; tags := None |}
             initial_results = inr (b, st') ∧
           (NameMatches "web" ∈ passed st' ↔ part_of "" "web" ∨ part_of "web" "").
Proof.
  destruct (name_check_is_containment (group [] [])
              {| vpc_id := None; security_group_name := Some "";
                 cfg_description := None; ingress_rules := None;
                 egress_rules := None; tags := None |} "" "web" eq_refl eq_refl)
    as (b & st' & Hrun & Hmatch & _).
  by exists b, st'.
Defined.

(** X2. A description that differs is a warning only: the value returned by
    [validate_basic_properties] and the failures it records do not depend on
    the expected or the deployed description. *)
Theorem description_never_fails sg sg' (cfg cfg' : ExpectedConfig) st st' :
  vpc_id cfg = vpc_id cfg' →
  security_group_name cfg = security_group_name cfg' →
  VpcId sg = VpcId sg' →
  GroupName sg = GroupName sg' →
  failed st = failed st' →
  same_verdict (validate_basic_properties sg cfg st)
               (validate_basic_properties sg' cfg' st').
Proof.
  intros Hv Hn Hsv Hsn Hst. unfold validate_basic_properties.
  rewrite <- Hv, <- Hn, <- Hsv, <- Hsn.
  destruct (vpc_id cfg) as [v|]; [case_bool_decide|];
    (destruct (security_group_name cfg) as [n|];
       [destruct (GroupName sg) as [a|]; [|done];
        destruct (py_in n a || py_in a n)|]);
    (destruct (cfg_description cfg) as [c|]; [case_bool_decide|]);
    (destruct (cfg_description cfg') as [c'|]; [case_bool_decide|]);
    cbn; unfold no_failures; cbn; rewrite Hst; done.
Qed.

Lemma description_never_fails_witness :
  same_verdict
    (validate_basic_properties (group [] [])
       {| vpc_id := None; security_group_name := None;
          cfg_description := Some "web tier"; ingress_rules := None;
          egress_rules := None; tags := None |} initial_results)
    (validate_basic_properties (group [] [])
       {| vpc_id := None; security_group_name := None;
          cfg_description := Some "database tier"; ingress_rules := None;
          egress_rules := None; tags := None |} initial_results).
Proof. by apply description_never_fails. Defined.

(** ** The verdict of a run *)

Lemma cumulative_from (f : validation_results → step bool) st b st' :
  (∀ st d, f (app_results st d) = replay Cumulative st (f d)) →
  f st = inr (b, st') →
  (b = true ↔ failed st' = []) ∧ failed st `prefix_of` failed st'.
Proof.
  intros Hf Hrun.
  destruct (replay_cumulative f (from_initial f Cumulative Hf) st b st' Hrun)
    as (? & ? & _). done.
Qed.

Lemma neutral_from (f : validation_results → step bool) st b st' :
  (∀ st d, f (app_results st d) = replay AlwaysTrue st (f d)) →
  (∀ b d, f initial_results = inr (b, d) → failed d = []) →
  f st = inr (b, st') →
  b = true ∧ failed st' = failed st.
Proof.
  intros Hf Hd. rewrite (from_initial f AlwaysTrue Hf st). unfold replay.
  destruct (f initial_results) as [x|[b0 d]] eqn:Hi; [done|].
  intros [= <- <-]. split; [done|]. cbn. rewrite (Hd b0 d eq_refl). apply app_nil_r.
Qed.

Lemma steps_of_run (sgid : string) (w : World) sg (cfg : ExpectedConfig) bs st :
  run_validations (validations sgid w sg cfg) initial_results = inr (bs, st) →
  forallb id bs = true ↔ failed st = [].
Proof.
  unfold validations. cbn [run_validations].
  destruct (validate_basic_properties sg cfg initial_results)
    as [x|[b1 s1]] eqn:H1; [done|].
  destruct (validate_ingress_rules sg _ s1) as [x|[b2 s2]] eqn:H2; [done|].
  destruct (validate_egress_rules sg _ s2) as [x|[b3 s3]] eqn:H3; [done|].
  destruct (validate_tags sg _ s3) as [x|[b4 s4]] eqn:H4; [done|].
  destruct (validate_security_best_practices sg s4) as [x|[b5 s5]] eqn:H5; [done|].
  destruct (validate_terraform_outputs sgid sg (w_outputs w) s5)
    as [x|[b6 s6]] eqn:H6; [done|].
  intros [= <- <-].
  apply (cumulative_from _ _ _ _ (basic_app sg cfg)) in H1 as [E1 P1].
  apply (cumulative_from _ _ _ _ (ingress_app sg _)) in H2 as [E2 P2].
  apply (cumulative_from _ _ _ _ (egress_app sg _)) in H3 as [E3 P3].
  apply (cumulative_from _ _ _ _ (tags_app sg _)) in H4 as [E4 P4].
  apply (neutral_from _ _ _ _ (best_practices_app sg)) in H5 as [B5 F5].
  2:{ intros b d. unfold validate_security_best_practices.
      intros [= _ <-]. by destruct (best_practice_warnings _). }
  assert ((b6 = true ↔ failed s6 = []) ∧ failed s5 `prefix_of` failed s6
          ∨ b6 = true ∧ failed s6 = failed s5) as [[E6 P6] | [B6 F6]].
  { destruct (w_outputs w) as [|e|o] eqn:Hfile.
    - right. cbn in H6. injection H6 as <- <-. by split.
    - left. apply (cumulative_from _ _ _ _ (outputs_app sgid sg (FileUnreadable e))) in H6.
      done.
    - left. apply (cumulative_from _ _ _ _ (outputs_app sgid sg (FileParsed o))) in H6.
      done. }
  - cbn. rewrite !andb_true_iff. unfold id. split.
    + intros (_ & _ & _ & _ & _ & ? & _). by apply E6.
    + intros H6'. rewrite H6' in P6. apply prefix_nil_inv in P6.
      rewrite F5 in P6. rewrite P6 in P4. apply prefix_nil_inv in P4.
      rewrite P4 in P3. apply prefix_nil_inv in P3.
      rewrite P3 in P2. apply prefix_nil_inv in P2.
      rewrite P2 in P1. apply prefix_nil_inv in P1.
      split_and!; try done; [by apply E1 | by apply E2 | by apply E3 |
                             apply E4; congruence | by apply E6].
  - cbn. rewrite !andb_true_iff. unfold id. rewrite F6, F5. split.
    + intros (_ & _ & _ & ? & _). by apply E4.
    + intros H4'. rewrite H4' in P4. apply prefix_nil_inv in P4.
      rewrite P4 in P3. apply prefix_nil_inv in P3.
      rewrite P3 in P2. apply prefix_nil_inv in P2.
      rewrite P2 in P1. apply prefix_nil_inv in P1.
      split_and!; try done; [by apply E1 | by apply E2 | by apply E3 | by apply E4].
Qed.

(** X3. When the group is fetched and no step raises, the run passes iff
    no failure is recorded, whatever the warnings (the warnings of the
    security checks included); the summary is printed, it lists the recorded
    failures, its closing line is "Validation failed" iff the exit status is
    1, and "All validations passed successfully" iff the exit status is 0
    and there is no warning. *)
Theorem verdict_and_summary (sgid : string) (w : World) (cfg : ExpectedConfig)
    sg (run : Run) :
  w_fetch w = Fetched sg →
  run_all_validations sgid w cfg = inr run →
  (success run = true ↔ failed (report run) = []) ∧
  printed_summary sgid w cfg = Some (print_summary (report run)) ∧
  listed_failures (print_summary (report run)) = failed (report run) ∧
  (closing (print_summary (report run)) = ValidationFailed ↔
     exit_code (inr run) = 1) ∧
  (closing (print_summary (report run)) = AllPassed ↔
     exit_code (inr run) = 0 ∧ warnings (report run) = []).
Proof.
  intros Hfetch Hrun.
  assert (success run = true ↔ failed (report run) = []) as Hiff.
  { unfold run_all_validations in Hrun. rewrite Hfetch in Hrun.
    destruct (run_validations (validations sgid w sg cfg) initial_results)
      as [x|[bs st]] eqn:Hvs; [done|].
    injection Hrun as <-. cbn [success report]. by apply steps_of_run in Hvs. }
  split; [done|]. split.
  { unfold printed_summary. by rewrite Hfetch, Hrun. }
  unfold print_summary, exit_code. cbn.
  destruct (success run) eqn:Hs.
  - rewrite (proj1 Hiff eq_refl). cbn.
    destruct (warnings (report run)); cbn; split_and!; try done;
      split; try done; by intros [_ ?].
  - destruct (failed (report run)) as [|m ms] eqn:Hf.
    { by specialize (proj2 Hiff eq_refl). }
    cbn. split_and!; try done. split; [done | by intros [? _]].
Qed.

Lemma verdict_and_summary_witness :
  ∃ run, run_all_validations "sg-1"
           (world (group [] [("Environment", "staging")]%string))
           (expect [] [("Environment", "prod")]%string) = inr run ∧
         (success run = true ↔ failed (report run) = []) ∧
         closing (print_summary (report run)) = PassedWithWarnings.
Proof.
  eexists. split; [reflexivity|].
  destruct (verdict_and_summary "sg-1"
              (world (group [] [("Environment", "staging")]%string))
              (expect [] [("Environment", "prod")]%string) _ _ eq_refl eq_refl)
    as (Hiff & _).
  split; [exact Hiff | reflexivity].
Defined.

(** ** Runs without a configuration *)

Lemma outputs_depend_on_name (sgid : string) sg sg' file st :
  GroupName sg = GroupName sg' →
  validate_terraform_outputs sgid sg file st =
  validate_terraform_outputs sgid sg' file st.
Proof.
  intros Hn. unfold validate_terraform_outputs, read_outputs. by rewrite Hn.
Qed.

Lemma harmless_prefix (vs : list (validation_results → step bool))
    (f : validation_results → step bool) st :
  Forall (λ g, ∀ s, failed s = [] → ∃ s', g s = inr (true, s') ∧ failed s' = []) vs →
  failed st = [] →
  ∃ st5, failed st5 = [] ∧
    run_validations (vs ++ [f]) st =
    match f st5 with
    | inl e => inl e
    | inr (b, s) => inr (replicate (length vs) true ++ [b], s)
    end.
Proof.
  intros Hvs. revert st. induction Hvs as [|g vs Hg _ IH]; intros st Hst.
  - exists st. split; [done|]. cbn. by destruct (f st) as [x|[b s]].
  - destruct (Hg st Hst) as (s' & Hrun & Hs').
    destruct (IH s' Hs') as (st5 & H5 & Hrest).
    exists st5. split; [done|]. cbn [app run_validations]. rewrite Hrun, Hrest.
    by destruct (f st5) as [x|[b s]].
Qed.

Lemma minimal_run (sgid : string) (w : World) sg :
  exit_code (run_all_validations sgid (with_group w sg) minimal_config) =
  match validate_terraform_outputs sgid sg (w_outputs w) initial_results with
  | inl _ => 1
  | inr (_, d) => if verdict (outputs_rule (w_outputs w)) d then 0 else 1
  end.
Proof.
  unfold run_all_validations. cbn [with_group w_fetch].
  change (validations sgid (with_group w sg) sg minimal_config) with
    ([ validate_basic_properties sg minimal_config;
       validate_ingress_rules sg [];
       validate_egress_rules sg [];
       validate_tags sg [];
       validate_security_best_practices sg ] ++
     [validate_terraform_outputs sgid sg (w_outputs w)]).
  destruct (harmless_prefix
              [ validate_basic_properties sg minimal_config;
                validate_ingress_rules sg [];
                validate_egress_rules sg [];
                validate_tags sg [];
                validate_security_best_practices sg ]
              (validate_terraform_outputs sgid sg (w_outputs w))
              initial_results) as (s5 & H5 & ->); [|done|].
  { repeat apply Forall_cons_2; [..|apply Forall_nil_2]; intros s Hs.
    - exists s. split; [|done]. cbn. by rewrite (proj2 (no_failures_spec s) Hs).
    - unfold validate_ingress_rules. cbn [check_ingress_rules].
      assert (∀ m, no_failures (add_warning m s) = true) as Hw.
      { intros m. by apply no_failures_spec. }
      destruct (_ <? _)%nat;
        rewrite ?Hw, ?(proj2 (no_failures_spec s) Hs);
        eexists; (split; [reflexivity | done]).
    - exists s. split; [|done]. unfold validate_egress_rules.
      cbn [check_egress_rules]. by rewrite (proj2 (no_failures_spec s) Hs).
    - exists s. split; [|done]. unfold validate_tags.
      cbn [foldl]. by rewrite (proj2 (no_failures_spec s) Hs).
    - unfold validate_security_best_practices. eexists. split; [reflexivity|].
      by destruct (best_practice_warnings _). }
  rewrite (from_initial _ _ (outputs_app sgid sg (w_outputs w)) s5).
  unfold replay.
  destruct (validate_terraform_outputs sgid sg (w_outputs w) initial_results)
    as [x|[b d]]; [done|].
  cbn [exit_code success all forallb id andb length replicate app].
  assert (verdict (outputs_rule (w_outputs w)) (app_results s5 d) =
          verdict (outputs_rule (w_outputs w)) d) as ->.
  { destruct (outputs_rule (w_outputs w)); [|done]. cbn. unfold no_failures.
    cbn. by rewrite H5. }
  by destruct (verdict _ d).
Qed.

(** X4. When the configuration file does not exist, or its name does not
    end in [.json], [main] compares nothing with the deployed group: the
    exit status is the same for any two groups of the same name, whatever
    their rules, tags, VPC and description; when the outputs file does not
    exist either, it is 0. *)
Theorem without_config_nothing_is_compared (sgid config : string)
    (file : tfvars) (w : World) sg sg' :
  file = TfvarsMissing ∨ is_json config = false →
  GroupName sg = GroupName sg' →
  main sgid config file (with_group w sg) =
    main sgid config file (with_group w sg') ∧
  (w_outputs w = FileMissing → main sgid config file (with_group w sg) = 0).
Proof.
  intros Hfile Hname.
  assert (load_config_from_tfvars config file = inr empty_dict) as Hload.
  { unfold load_config_from_tfvars.
    destruct Hfile as [-> | ->]; [done | by destruct file]. }
  unfold main. rewrite Hload. cbn [is_empty empty_dict known other_keys negb andb
    no_expectations vpc_id security_group_name cfg_description ingress_rules
    egress_rules tags].
  rewrite !minimal_run, (outputs_depend_on_name sgid sg sg' _ _ Hname).
  split; [done|]. by intros ->.
Qed.

Lemma without_config_nothing_is_compared_witness :
  main "sg-1" "terraform.tfvars" (TfvarsParsed
         {| known := expect [expect_tcp 443 ["0.0.0.0/0"%string]] [];
            other_keys := false |})
       (with_group (world (group [] [])) (group [] [])) = 0.
Proof.
  apply (without_config_nothing_is_compared "sg-1" "terraform.tfvars" _
           (world (group [] [])) (group [] []) (group [] [])).
  - right. reflexivity.
  - reflexivity.
  - reflexivity.
Defined.

(** ** The step on the Terraform outputs *)

(** X5. [validate_terraform_outputs] never raises: whatever goes wrong
    while the outputs file is read becomes a warning.  The only failures it
    records are the mismatches of the identifier and of the name; when both
    agree with the group it records no failure, whatever the ARN entry is
    (absent, foreign, or not readable at all). *)
Theorem outputs_step_failures (sgid : string) sg (file : outputs_file) st :
  ∃ b st', validate_terraform_outputs sgid sg file st = inr (b, st') ∧
    (∀ m, m ∈ failed st' →
          m ∈ failed st ∨ m = OutputIdMismatch ∨ m = OutputNameMismatch) ∧
    (∀ o, file = FileParsed o →
          out_security_group_id o = LookupValue (Some sgid) →
          out_security_group_name o = LookupValue (GroupName sg) →
          failed st' = failed st ∧ b = no_failures st).
Proof.
  unfold validate_terraform_outputs. destruct file as [|x|o].
  - do 2 eexists. split; [reflexivity|]. split; [by left | done].
  - do 2 eexists. split; [reflexivity|]. split; [by left | done].
  - do 2 eexists. split; [reflexivity|]. unfold read_outputs. split.
    + intros m.
      destruct (out_security_group_id o) as [?|oid]; [by left|].
      destruct (out_security_group_name o) as [?|oname];
        [case_bool_decide; in_list|].
      destruct (out_security_group_arn o) as [?|[arn|]];
        repeat case_bool_decide;
        try destruct (truthy_str (Some arn) && py_in sgid arn); in_list.
    + intros o' [= <-] -> ->.
      rewrite !bool_decide_eq_true_2 by done.
      destruct (out_security_group_arn o) as [?|[arn|]];
        try destruct (truthy_str (Some arn) && py_in sgid arn); done.
Qed.

(** ** The security checks *)

Lemma open_ranges_spec (m m' : message) (ranges : list string) :
  m' ∈ open_ranges m ranges ↔ m' = m ∧ internet ∈ ranges.
Proof.
  unfold open_ranges. rewrite list_elem_of_In, in_flat_map. split.
  - intros (c & Hc & Hm). case_bool_decide; [|done]. subst c.
    apply list_elem_of_In in Hc, Hm. by apply list_elem_of_singleton in Hm.
  - intros [-> Hin]. exists internet. split; [by apply list_elem_of_In|].
    rewrite bool_decide_eq_true_2 by done. by left.
Qed.

Lemma best_practice_warning_spec (ingress : list IpPermission) (m : message) :
  m ∈ best_practice_warnings ingress →
  ∃ rule, rule ∈ ingress ∧ exposed rule.
Proof.
  unfold best_practice_warnings. rewrite elem_of_app, !list_elem_of_In, !in_flat_map.
  intros [(rule & Hrule & Hm) | (rule & Hrule & Hm)];
    exists rule; (split; [by apply list_elem_of_In|]).
  - unfold sensitive_port_warnings in Hm.
    destruct (FromPort rule) as [f|] eqn:Hf; [|done].
    destruct (ToPort rule) as [t|] eqn:Ht; [|by destruct (truthy_int _)].
    cbn [truthy_int] in Hm.
    destruct (f =? 0) eqn:Hfz; [done|]. destruct (t =? 0) eqn:Htz; [done|].
    cbn [negb andb] in Hm. apply in_flat_map in Hm as (ps & Hps & Hm).
    destruct ((f <=? ps.1) && (ps.1 <=? t)) eqn:Hr; [|done].
    apply andb_true_iff in Hr as [H1%Z.leb_le H2%Z.leb_le].
    apply list_elem_of_In, open_ranges_spec in Hm as [_ Hopen].
    split; [done|]. right. exists f, t, ps.
    apply Z.eqb_neq in Hfz, Htz. apply list_elem_of_In in Hps. by split_and!.
  - unfold all_protocol_warnings in Hm. case_bool_decide; [|done].
    apply list_elem_of_In, open_ranges_spec in Hm as [_ Hopen].
    split; [done|]. by left.
Qed.

Lemma exposed_rule_warns (ingress : list IpPermission) (rule : IpPermission) :
  rule ∈ ingress → exposed rule → best_practice_warnings ingress ≠ [].
Proof.
  intros Hrule [Hopen Hkind].
  assert (∃ m, m ∈ best_practice_warnings ingress) as [m Hm].
  { unfold best_practice_warnings. destruct Hkind as [Hall | (f & t & ps & Hf & Ht & Hfz & Htz & Hps & Hr)].
    - exists AllProtocolsFromInternet. apply elem_of_app. right.
      apply list_elem_of_In, in_flat_map. exists rule.
      split; [by apply list_elem_of_In|].
      unfold all_protocol_warnings. rewrite bool_decide_eq_true_2 by done.
      by apply list_elem_of_In, open_ranges_spec.
    - exists (OpenToInternet ps.2 ps.1). apply elem_of_app. left.
      apply list_elem_of_In, in_flat_map. exists rule.
      split; [by apply list_elem_of_In|].
      unfold sensitive_port_warnings. rewrite Hf, Ht. cbn [truthy_int].
      rewrite (proj2 (Z.eqb_neq _ _) Hfz), (proj2 (Z.eqb_neq _ _) Htz).
      cbn [negb andb]. apply in_flat_map. exists ps.
      split; [by apply list_elem_of_In|].
      rewrite (proj2 (Z.leb_le _ _) (proj1 Hr)), (proj2 (Z.leb_le _ _) (proj2 Hr)).
      by apply list_elem_of_In, open_ranges_spec. }
  intros Hnil. rewrite Hnil in Hm. by apply elem_of_nil in Hm.
Qed.

(** X6. [validate_security_best_practices] always returns [True] and
    records no failure.  It records "Security best practices validated",
    and no warning, exactly when no ingress rule admits [0.0.0.0/0] for all
    protocols or for a port range, starting and ending above 0, that covers
    a sensitive port; otherwise it records warnings and not that entry.
    Egress rules are not looked at. *)
Theorem security_check_validated_iff_clean sg st :
  ∃ st', validate_security_best_practices sg st = inr (true, st') ∧
    failed st' = failed st ∧
    ((∃ rule, rule ∈ IpPermissions sg ∧ exposed rule) →
       passed st' = passed st ∧ length (warnings st) < length (warnings st'))%nat ∧
    ((¬ ∃ rule, rule ∈ IpPermissions sg ∧ exposed rule) →
       passed st' = passed st ++ [BestPracticesValidated] ∧
       warnings st' = warnings st) ∧
    (∀ egress, validate_security_best_practices
                 (with_rules sg (IpPermissions sg) egress) st =
               validate_security_best_practices sg st).
Proof.
  assert (∀ egress, validate_security_best_practices
                      (with_rules sg (IpPermissions sg) egress) st =
                    validate_security_best_practices sg st) as Heg by done.
  revert Heg. unfold validate_security_best_practices. intros Heg.
  eexists. split; [reflexivity|].
  destruct (best_practice_warnings (IpPermissions sg)) as [|m ms] eqn:Hws.
  - split_and!; [done | | | exact Heg].
    + intros (rule & Hrule & Hexp). by destruct (exposed_rule_warns _ _ Hrule Hexp).
    + intros _. cbn. by rewrite app_nil_r.
  - split_and!; [done | | | exact Heg].
    + intros _. cbn. split; [done|]. rewrite length_app. cbn. lia.
    + intros Hclean. exfalso. apply Hclean.
      apply (best_practice_warning_spec _ m). rewrite Hws. by left.
Qed.

(** X7. Every ingress rule for all protocols ([IpProtocol] -1) that admits
    [0.0.0.0/0] is flagged with the warning "All protocols allowed from
    internet", whatever its ports. *)
Theorem all_protocol_rule_flagged sg st (rule : IpPermission) :
  rule ∈ IpPermissions sg →
  IpProtocol rule = Some "-1"%string →
  internet ∈ IpRanges rule →
  ∃ st', validate_security_best_practices sg st = inr (true, st') ∧
         AllProtocolsFromInternet ∈ warnings st' ∧
         BestPracticesValidated ∉ drop (length (passed st)) (passed st').
Proof.
  intros Hrule Hall Hopen.
  assert (AllProtocolsFromInternet ∈ best_practice_warnings (IpPermissions sg)) as Hw.
  { unfold best_practice_warnings. apply elem_of_app. right.
    apply list_elem_of_In, in_flat_map. exists rule.
    split; [by apply list_elem_of_In|].
    unfold all_protocol_warnings. rewrite bool_decide_eq_true_2 by done.
    by apply list_elem_of_In, open_ranges_spec. }
  unfold validate_security_best_practices.
  destruct (best_practice_warnings (IpPermissions sg)) as [|m ms] eqn:Hws.
  { by apply elem_of_nil in Hw. }
  eexists. split; [reflexivity|]. cbn. split.
  - apply elem_of_app. by right.
  - rewrite drop_all. apply not_elem_of_nil.
Qed.

Lemma all_protocol_rule_flagged_witness :
  ∃ st', validate_security_best_practices
           (group [{| IpProtocol := Some "-1"%string; FromPort := None;
                      ToPort := None; IpRanges := ["0.0.0.0/0"%string] |}] [])
           initial_results = inr (true, st') ∧
         AllProtocolsFromInternet ∈ warnings st'.
Proof.
  destruct (all_protocol_rule_flagged
              (group [{| IpProtocol := Some "-1"%string; FromPort := None;
                         ToPort := None; IpRanges := ["0.0.0.0/0"%string] |}] [])
              initial_results
              {| IpProtocol := Some "-1"%string; FromPort := None;
                 ToPort := None; IpRanges := ["0.0.0.0/0"%string] |})
    as (st' & Hrun & Hw & _); [by left | done | by left |].
  by exists st'.
Defined.

(** ** The tag comparison *)

Lemma tags_in_passed actual (expected : list (string * string)) st m :
  m ∈ passed st → m ∈ passed (foldl (check_tag actual) st expected).
Proof.
  intros Hm. rewrite <- (app_results_initial_r st), check_tags_app.
  cbn. apply elem_of_app. by left.
Qed.

Lemma tags_in_failed actual (expected : list (string * string)) st m :
  m ∈ failed st → m ∈ failed (foldl (check_tag actual) st expected).
Proof.
  intros Hm. rewrite <- (app_results_initial_r st), check_tags_app.
  cbn. apply elem_of_app. by left.
Qed.

(** X8. For every expected tag, [validate_tags] records "matches" when the
    observed value is the expected one, and the failure "missing", with
    the value [False], when the key is not observed; an observed empty
    value that is not the expected one is reported as missing too. *)
Theorem expected_tag_outcomes sg (expected : list (string * string)) st
    (key ev : string) :
  (key, ev) ∈ expected →
  ∃ b st', validate_tags sg expected st = inr (b, st') ∧
    (actual_tags_of (Tags sg) !! key = Some ev → TagMatches key ∈ passed st') ∧
    (actual_tags_of (Tags sg) !! key = None →
       TagMissing key ∈ failed st' ∧ b = false) ∧
    (actual_tags_of (Tags sg) !! key = Some ""%string → ev ≠ ""%string →
       TagMissing key ∈ failed st' ∧ b = false).
Proof.
  intros Hin. unfold validate_tags. do 2 eexists. split; [reflexivity|].
  set (actual := actual_tags_of (Tags sg)).
  assert (∀ m, m ∈ failed (foldl (check_tag actual) st expected) →
               no_failures (foldl (check_tag actual) st expected) = false) as Hfalse.
  { intros m Hm. unfold no_failures.
    destruct (failed _); [by apply elem_of_nil in Hm | done]. }
  assert (∀ m, (m ∈ passed (check_tag actual initial_results (key, ev)) →
                m ∈ passed (foldl (check_tag actual) st expected)) ∧
               (m ∈ failed (check_tag actual initial_results (key, ev)) →
                m ∈ failed (foldl (check_tag actual) st expected))) as Hone.
  { intros m. clear Hfalse. revert st.
    induction expected as [|kv rest IH]; intros st; [by apply elem_of_nil in Hin|].
    apply elem_of_cons in Hin as [<- | Hin].
    - cbn [foldl]. split; intros Hm.
      + apply tags_in_passed.
        rewrite <- (app_results_initial_r st), check_tag_app. cbn.
        apply elem_of_app. by right.
      + apply tags_in_failed.
        rewrite <- (app_results_initial_r st), check_tag_app. cbn.
        apply elem_of_app. by right.
    - cbn [foldl]. by apply IH. }
  split_and!.
  - intros Ha. apply Hone. unfold check_tag. rewrite Ha.
    rewrite bool_decide_eq_true_2 by done. by left.
  - intros Ha.
    assert (TagMissing key ∈ failed (foldl (check_tag actual) st expected)) as Hm.
    { apply Hone. unfold check_tag. rewrite Ha.
      rewrite bool_decide_eq_false_2 by done. by left. }
    split; [done | by eapply Hfalse].
  - intros Ha Hne.
    assert (TagMissing key ∈ failed (foldl (check_tag actual) st expected)) as Hm.
    { apply Hone. unfold check_tag. rewrite Ha.
      rewrite bool_decide_eq_false_2 by congruence. by left. }
    split; [done | by eapply Hfalse].
Qed.

Lemma expected_tag_outcomes_witness :
  ∃ b st', validate_tags (group [] []) [("Environment", "prod")]%string
             initial_results = inr (b, st') ∧
           TagMissing "Environment" ∈ failed st' ∧ b = false.
Proof.
  destruct (expected_tag_outcomes (group [] []) [("Environment", "prod")]%string
              initial_results "Environment" "prod")
    as (b & st' & Hrun & _ & Hmiss & _); [by left|].
  exists b, st'. split; [done|]. by apply Hmiss.
Defined.

(** X9. Observed tags that are not expected play no part: two groups whose
    tags agree on the expected keys give the same result, entry by entry. *)
Theorem unexpected_tags_ignored sg sg' (expected : list (string * string)) st :
  (∀ k v, (k, v) ∈ expected →
          actual_tags_of (Tags sg) !! k = actual_tags_of (Tags sg') !! k) →
  validate_tags sg expected st = validate_tags sg' expected st.
Proof.
  intros Hagree. unfold validate_tags.
  assert (foldl (check_tag (actual_tags_of (Tags sg))) st expected =
          foldl (check_tag (actual_tags_of (Tags sg'))) st expected) as ->; [|done].
  revert st. induction expected as [|[k v] rest IH]; intros st; [done|].
  cbn [foldl]. rewrite IH.
  - f_equal. unfold check_tag. by rewrite (Hagree k v (list_elem_of_here _ _)).
  - intros k' v' Hin. apply (Hagree k' v'). by right.
Qed.

Lemma unexpected_tags_ignored_witness :
  validate_tags (group [] [("Environment", "prod"); ("Owner", "ops")]%string)
                [("Environment", "prod")]%string initial_results =
  validate_tags (group [] [("Environment", "prod")]%string)
                [("Environment", "prod")]%string initial_results.
Proof.
  apply unexpected_tags_ignored. intros k v Hin.
  apply list_elem_of_singleton in Hin. injection Hin as -> ->. by vm_compute.
Defined.

(** X10. The observed tags are read like a dict comprehension: when a key
    occurs several times the last value counts, a key that does not occur
    has no value, and appending a tag leaves the other keys alone. *)
Theorem duplicate_tag_last_wins (ts : list (string * string)) (k v : string) :
  actual_tags_of (ts ++ [(k, v)]) !! k = Some v ∧
  (∀ k', k' ≠ k →
         actual_tags_of (ts ++ [(k, v)]) !! k' = actual_tags_of ts !! k') ∧
  (k ∉ ts.*1 → actual_tags_of ts !! k = None).
Proof.
  unfold actual_tags_of. rewrite foldl_app. cbn. split_and!.
  - apply lookup_insert_eq.
  - intros k' Hne. by apply lookup_insert_ne.
  - induction ts as [|[k0 v0] ts IH] using rev_ind; [done|].
    rewrite fmap_app, not_elem_of_app. cbn. intros [Hts Hk0].
    rewrite foldl_app. cbn. rewrite lookup_insert_ne; [by apply IH|].
    intros ->. apply Hk0. by left.
Qed.

(** ** The egress comparison *)

Lemma check_egress_found idx (expected : list ExpectedRule)
    (actual : list IpPermission) st i e :
  expected !! i = Some e →
  (_find_matching_egress_rule e actual = true →
     EgressRuleFound (S (idx + i)) ∈ passed (check_egress_rules idx expected actual st)) ∧
  (_find_matching_egress_rule e actual = false →
     EgressRuleNotFound (S (idx + i)) e ∈
       failed (check_egress_rules idx expected actual st)).
Proof.
  revert idx st i. induction expected as [|e0 rest IH]; intros idx st i Hi; [done|].
  cbn [check_egress_rules]. destruct i as [|i].
  - injection Hi as ->. rewrite Nat.add_0_r.
    destruct (_find_matching_egress_rule e actual); split; intros Hb; try done.
    + pose proof (check_egress_app (S idx) rest actual
                    (add_passed (EgressRuleFound (S idx)) st) initial_results) as H.
      rewrite app_results_initial_r in H. rewrite H. cbn.
      rewrite !elem_of_app, list_elem_of_singleton. tauto.
    + pose proof (check_egress_app (S idx) rest actual
                    (add_failed (EgressRuleNotFound (S idx) e) st) initial_results) as H.
      rewrite app_results_initial_r in H. rewrite H. cbn.
      rewrite !elem_of_app, list_elem_of_singleton. tauto.
  - cbn in Hi. replace (idx + S i)%nat with (S idx + i)%nat by lia.
    destruct (_find_matching_egress_rule e0 actual); by apply IH.
Qed.

(** X11. [validate_egress_rules] never raises and records no warning.  An
    expected egress rule is matched under the same condition as an ingress
    rule (protocol, ports and, when given, the set of CIDR blocks); it is
    then recorded as "Egress rule n found", and otherwise as the failure
    "Egress rule n not found" with the rule, in which case the step returns
    [False]. *)
Theorem egress_rules_report sg (expected : list ExpectedRule) st
    (i : nat) (e : ExpectedRule) :
  expected !! i = Some e →
  ∃ b st', validate_egress_rules sg expected st = inr (b, st') ∧
    ((∃ rule, rule ∈ IpPermissionsEgress sg ∧ hit e rule) →
       EgressRuleFound (S i) ∈ passed st') ∧
    ((¬ ∃ rule, rule ∈ IpPermissionsEgress sg ∧ hit e rule) →
       EgressRuleNotFound (S i) e ∈ failed st' ∧ b = false) ∧
    warnings st' = warnings st.
Proof.
  intros Hi. unfold validate_egress_rules. do 2 eexists. split; [reflexivity|].
  destruct (check_egress_found 0 expected (IpPermissionsEgress sg) st i e Hi)
    as [Hfound Hmissing].
  rewrite find_egress_ingress in Hfound, Hmissing. split_and!.
  - intros Hex. apply Hfound. by apply find_ingress_spec.
  - intros Hno.
    assert (_find_matching_ingress_rule e (IpPermissionsEgress sg) = false) as Hf.
    { apply not_true_is_false. intros Ht. by apply find_ingress_spec in Ht. }
    specialize (Hmissing Hf). split; [done|].
    unfold no_failures. destruct (failed _); [by apply elem_of_nil in Hmissing | done].
  - clear. generalize 0%nat. revert st.
    induction expected as [|e0 rest IH]; intros st idx; [done|].
    cbn [check_egress_rules].
    destruct (_find_matching_egress_rule e0 (IpPermissionsEgress sg)); by rewrite IH.
Qed.

Lemma egress_rules_report_witness :
  ∃ b st', validate_egress_rules
             (with_rules (group [] []) [] [tcp_rule 443 ["0.0.0.0/0"%string]])
             [expect_tcp 443 ["0.0.0.0/0"%string]] initial_results = inr (b, st') ∧
           warnings st' = [].
Proof.
  destruct (egress_rules_report
              (with_rules (group [] []) [] [tcp_rule 443 ["0.0.0.0/0"%string]])
              [expect_tcp 443 ["0.0.0.0/0"%string]] initial_results 0
              (expect_tcp 443 ["0.0.0.0/0"%string]) eq_refl)
    as (b & st' & Hrun & _ & _ & Hw).
  by exists b, st'.
Defined.

End PostDeployExtra.

(** * Further properties of SecurityGroupConfigValidator *)

Module ConfigCheckExtra.
Import ConfigCheck ConfigCheckProps.

Implicit Types (v : validator) (rule : Rule).

Lemma check_egress_errors idx (rules : list Rule) v m :
  m ∈ errors (check_egress_rules idx rules v) ↔
  m ∈ errors v ∨
  ∃ j rj, rules !! j = Some rj ∧ missing_fields rj ≠ [] ∧
          m = EgressMissingFields (S (idx + j)) (missing_fields rj).
Proof.
  revert idx v. induction rules as [|r rest IH]; intros idx v.
  - cbn. split; [by left|]. by intros [? | (j & rj & ? & _)].
  - cbn [check_egress_rules]. rewrite IH. unfold check_egress_rule.
    destruct (missing_fields r) as [|f fs] eqn:Hm.
    + split.
      * intros [? | (j & rj & Hj & Hne & ->)]; [by left|].
        right. exists (S j), rj.
        replace (idx + S j)%nat with (S idx + j)%nat by lia. done.
      * intros [? | ([|j] & rj & Hj & Hne & ->)]; [by left | |].
        -- injection Hj as <-. done.
        -- right. exists j, rj.
           replace (idx + S j)%nat with (S idx + j)%nat by lia. done.
    + cbn. rewrite elem_of_app, list_elem_of_singleton. split.
      * intros [[? | ->] | (j & rj & Hj & Hne & ->)]; [by left | |].
        -- right. exists 0%nat, r. rewrite Nat.add_0_r, Hm. done.
        -- right. exists (S j), rj.
           replace (idx + S j)%nat with (S idx + j)%nat by lia. done.
      * intros [? | ([|j] & rj & Hj & Hne & ->)]; [by left; left | |].
        -- injection Hj as <-. rewrite Nat.add_0_r, Hm. by left; right.
        -- right. exists j, rj.
           replace (idx + S j)%nat with (S idx + j)%nat by lia. done.
Qed.





(** X13. In the static validation of ingress rules, a rule with its four
    fields whose CIDR blocks contain [0.0.0.0/0] and whose port range covers
    one of the ports 22, 3389, 3306, 5432, 27017 gets the warning "Port p
    open to internet"; a range that starts at port 0 is covered as well. *)
Theorem open_sensitive_port_warns (rules : list Rule) v (i : nat) rule
    (f t port : Z) (cs : list string) :
  rules !! i = Some rule →
  from_port rule = Some f → to_port rule = Some t →
  is_Some (protocol rule) → cidr_blocks rule = Some cs →
  internet ∈ cs →
  port ∈ sensitive_ports →
  f ≤ port ≤ t →
  PortOpenToInternet (S i) port ∈ warnings (validate_ingress_rules rules v).2.
Proof.
  intros Hi Hf Ht [p Hp] Hcs Hopen Hport Hrange.
  unfold validate_ingress_rules.
  destruct rules as [|r0 rest] eqn:Hrules; [done|]. rewrite <- Hrules in *. cbn [snd].
  clear Hrules r0 rest.
  assert (∀ idx, PortOpenToInternet (S (idx + i)) port ∈
                   warnings (check_ingress_rules idx rules v)) as H; [|apply (H 0%nat)].
  revert v i Hi. induction rules as [|r rest IH]; intros v i Hi idx; [done|].
  cbn [check_ingress_rules]. destruct i as [|i].
  - injection Hi as ->. rewrite Nat.add_0_r. apply check_rules_warnings_mono.
    unfold check_ingress_rule. rewrite Hf, Ht, Hp, Hcs.
    rewrite (bool_decide_eq_true_2 _ Hopen).
    assert (PortOpenToInternet (S idx) port ∈
              flat_map (λ port0, if (f <=? port0) && (port0 <=? t)
                                 then [PortOpenToInternet (S idx) port0] else [])
                       sensitive_ports) as Hin.
    { apply list_elem_of_In, in_flat_map. exists port.
      split; [by apply list_elem_of_In|].
      rewrite (proj2 (Z.leb_le _ _) (proj1 Hrange)),
              (proj2 (Z.leb_le _ _) (proj2 Hrange)). by left. }
    set (ws := flat_map _ sensitive_ports) in *. clearbody ws.
    destruct (t <? f), (bool_decide (p ∈ valid_protocols)),
             (truthy_str (description rule));
      cbn; rewrite ?elem_of_app; tauto.
  - cbn in Hi. replace (idx + S i)%nat with (S idx + i)%nat by lia. by apply IH.
Qed.

Lemma open_sensitive_port_warns_witness :
  PortOpenToInternet 1 22 ∈
    warnings (validate_ingress_rules
                [{| from_port := Some 0; to_port := Some 65535;
                    protocol := Some "tcp"%string;
                    cidr_blocks := Some ["0.0.0.0/0"%string];
                    description := Some "everything"%string |}] initial).2.
Proof.
  apply (open_sensitive_port_warns _ initial 0
           {| from_port := Some 0; to_port := Some 65535;
              protocol := Some "tcp"%string;
              cidr_blocks := Some ["0.0.0.0/0"%string];
              description := Some "everything"%string |}
           0 65535 22 ["0.0.0.0/0"%string]);
    try reflexivity.
  - by eexists.
  - by left.
  - by left.
  - lia.
Defined.

(** X14. The errors are kept on the validator: once an error is recorded,
    a later validation of a non-empty list of ingress or egress rules
    returns [False] even when its own rules are in order, whereas the
    validation of an empty list returns [True] all the same. *)
Theorem earlier_errors_fail_later_validation (rules : list Rule) v :
  errors v ≠ [] →
  (validate_ingress_rules [] v).1 = true ∧
  (validate_egress_rules [] v).1 = true ∧
  (rules ≠ [] → (validate_ingress_rules rules v).1 = false ∧
                (validate_egress_rules rules v).1 = false).
Proof.
  intros Herr. split; [done|]. split; [done|]. intros Hne.
  destruct (errors v) as [|m ms] eqn:Hv; [done|].
  destruct rules as [|r0 rest]; [done|].
  unfold validate_ingress_rules, validate_egress_rules.
  cbn [fst]. split.
  - apply (no_errors_false _ m), check_rules_errors. left. rewrite Hv. by left.
  - apply (no_errors_false _ m), check_egress_errors. left. rewrite Hv. by left.
Qed.

Lemma earlier_errors_fail_later_validation_witness :
  (validate_egress_rules [rule_with_protocol "tcp"]
     (add_error (MissingFields 1 ["protocol"%string]) initial)).1 = false.
Proof.
  apply (earlier_errors_fail_later_validation [rule_with_protocol "tcp"]
           (add_error (MissingFields 1 ["protocol"%string]) initial)); done.
Defined.

End ConfigCheckExtra.

(** * Properties of TerraformValidator *)

Module TerraformValidatorProps.
Import TerraformValidator.

Implicit Types (w : World) (v : validator).

Lemma run_command_rc w c v :
  Runner.returncode (run_command w c v).2 = rc w c ∧
  Runner.stdout (run_command w c v).2 = out w c ∧
  (run_command w c v).1 =
    {| errors := errors v; warnings := warnings v; trace := trace v ++ [c] |}.
Proof. unfold run_command, rc, out. by destruct (w_proc w c). Qed.

Ltac effect_eq :=
  unfold apply_effect, add_error, add_warning; cbn;
  rewrite ?app_nil_r, <- ?app_assoc; reflexivity.

Lemma command_test_effect w c msg v :
  attempt (λ v,
     let '(v1, res) := run_command w c v in
     if negb (Runner.returncode res =? 0)
     then (add_error msg v1, Runner.Returned false)
     else (v1, Runner.Returned true)) v =
  apply_effect (command_effect w c msg) v.
Proof.
  unfold attempt, command_effect.
  destruct (run_command_rc w c v) as (Hrc & _ & Hv).
  destruct (run_command w c v) as [v1 res]. cbn [fst snd] in *. rewrite Hrc, Hv.
  destruct (rc w c =? 0); effect_eq.
Qed.

Lemma validate_test_effect w v :
  attempt (test_terraform_validate w) v = apply_effect (validate_effect w) v.
Proof.
  unfold attempt, test_terraform_validate, validate_effect.
  destruct (run_command_rc w Validate v) as (Hrc & Hout & Hv).
  destruct (run_command w Validate v) as [v1 res]. cbn [fst snd] in *.
  rewrite Hrc, Hout, Hv.
  destruct (rc w Validate =? 0); cbn [negb]; [|effect_eq].
  destruct (w_validate_json w (out w Validate)) as [|e|[]]; effect_eq.
Qed.

Lemma checkov_test_effect w v :
  attempt (test_security_scan_checkov w) v =
  apply_effect
    (advisory (if rc w WhichCheckov =? 0 then []
               else ["Checkov not installed, skipping security scan"%string])
              (WhichCheckov :: if rc w WhichCheckov =? 0 then [Checkov] else [])) v.
Proof.
  unfold attempt, test_security_scan_checkov, advisory.
  destruct (run_command_rc w WhichCheckov v) as (Hrc & _ & Hv).
  destruct (run_command w WhichCheckov v) as [v1 res]. cbn [fst snd] in *.
  rewrite Hrc, Hv. destruct (rc w WhichCheckov =? 0); cbn [negb]; [|effect_eq].
  destruct (run_command_rc w Checkov
              {| errors := errors v; warnings := warnings v;
                 trace := trace v ++ [WhichCheckov] |}) as (_ & _ & Hv2).
  destruct (run_command w Checkov _) as [v2 res2]. cbn [fst] in Hv2. rewrite Hv2.
  effect_eq.
Qed.

Lemma tflint_test_effect w v :
  attempt (test_tflint w) v =
  apply_effect
    (advisory (if rc w WhichTflint =? 0 then []
               else ["TFLint not installed, skipping"%string])
              (WhichTflint :: if rc w WhichTflint =? 0 then [TflintInit; Tflint] else []))
    v.
Proof.
  unfold attempt, test_tflint, advisory.
  destruct (run_command_rc w WhichTflint v) as (Hrc & _ & Hv).
  destruct (run_command w WhichTflint v) as [v1 res]. cbn [fst snd] in *.
  rewrite Hrc, Hv. destruct (rc w WhichTflint =? 0); cbn [negb]; [|effect_eq].
  destruct (run_command_rc w TflintInit
              {| errors := errors v; warnings := warnings v;
                 trace := trace v ++ [WhichTflint] |}) as (_ & _ & Hv2).
  destruct (run_command w TflintInit _) as [v2 res2]. cbn [fst] in Hv2. rewrite Hv2.
  destruct (run_command_rc w Tflint
              {| errors := errors v; warnings := warnings v;
                 trace := (trace v ++ [WhichTflint]) ++ [TflintInit] |}) as (_ & _ & Hv3).
  destruct (run_command w Tflint _) as [v3 res3]. cbn [fst] in Hv3. rewrite Hv3.
  effect_eq.
Qed.

Lemma variables_test_effect w v :
  attempt (test_variable_validation w) v =
  apply_effect
    (advisory (if w_variables_tf w then [] else ["variables.tf not found"%string]) []) v.
Proof.
  unfold attempt, test_variable_validation, advisory.
  destruct v. destruct (w_variables_tf w); effect_eq.
Qed.

Lemma outputs_test_effect w v :
  attempt (test_output_validation w) v =
  apply_effect (advisory (outputs_warnings w) []) v.
Proof.
  unfold attempt, test_output_validation, advisory, outputs_warnings.
  destruct v. destruct (w_outputs_tf w) as [|e|content]; [effect_eq | effect_eq |].
  destruct (filter _ expected_outputs); effect_eq.
Qed.

Lemma tests_effects w :
  Forall2 (λ (t : test) (x : effect), ∀ v, attempt t v = apply_effect x v)
          (tests w) (effects w).
Proof.
  unfold tests, effects.
  constructor; [|constructor; [|constructor; [|constructor; [|constructor;
    [|constructor; [|constructor; [|constructor; [|constructor]]]]]]]].
  - intros v. apply (command_test_effect w Fmt).
  - intros v. apply (command_test_effect w Init).
  - apply validate_test_effect.
  - intros v. apply (command_test_effect w Plan).
  - apply checkov_test_effect.
  - apply tflint_test_effect.
  - apply variables_test_effect.
  - apply outputs_test_effect.
Qed.

Lemma run_tests_effects (ts : list test) (xs : list effect) v :
  Forall2 (λ (t : test) (x : effect), ∀ v, attempt t v = apply_effect x v) ts xs →
  run_tests ts v =
  ({| errors := errors v ++ concat (e_errors <$> xs);
      warnings := warnings v ++ concat (e_warnings <$> xs);
      trace := trace v ++ concat (e_trace <$> xs) |}, e_ok <$> xs).
Proof.
  intros H. revert v. induction H as [|t x ts xs Ht _ IH]; intros v.
  - cbn. rewrite !app_nil_r. by destruct v.
  - cbn [run_tests]. rewrite Ht. unfold apply_effect. rewrite IH. cbn.
    by rewrite <- !app_assoc.
Qed.

Lemma run_all_tests_eq w v :
  run_all_tests w v =
  ({| errors := errors v ++ concat (e_errors <$> effects w);
      warnings := warnings v ++ concat (e_warnings <$> effects w);
      trace := trace v ++ concat (e_trace <$> effects w) |},
   forallb id (e_ok <$> effects w) &&
   match errors v ++ concat (e_errors <$> effects w) with
   | [] => true
   | _ :: _ => false
   end).
Proof.
  unfold run_all_tests. by rewrite (run_tests_effects _ _ v (tests_effects w)).
Qed.

Lemma effects_ok w : forallb id (e_ok <$> effects w) = terraform_ok w.
Proof.
  unfold effects, terraform_ok, command_effect, validate_effect, advisory. cbn.
  unfold id.
  destruct (rc w Fmt =? 0), (rc w Init =? 0), (rc w Validate =? 0),
           (w_validate_json w (out w Validate)) as [|e|[]], (rc w Plan =? 0);
    reflexivity.
Qed.

Lemma effects_errors w :
  concat (e_errors <$> effects w) = [] ↔ terraform_ok w = true.
Proof.
  unfold effects, terraform_ok, command_effect, validate_effect, advisory. cbn.
  destruct (rc w Fmt =? 0), (rc w Init =? 0), (rc w Validate =? 0),
           (w_validate_json w (out w Validate)) as [|e|[]], (rc w Plan =? 0);
    cbn; split; done.
Qed.

Lemma effects_trace w : concat (e_trace <$> effects w) = expected_trace w.
Proof.
  unfold effects, expected_trace, command_effect, validate_effect, advisory. cbn.
  destruct (rc w Validate =? 0); cbn;
    [destruct (w_validate_json w (out w Validate)) as [|e|[]]|];
    destruct (rc w WhichCheckov =? 0), (rc w WhichTflint =? 0); reflexivity.
Qed.

(** X15. [run_all_tests] passes iff the four Terraform commands ([fmt],
    [init], [validate], [plan]) exit with 0 and the validation report,
    where it can be decoded, is an object whose [valid] is true, and no
    error was recorded before; Checkov, TFLint and the files [variables.tf]
    and [outputs.tf] never change the result.  The result is [True] iff
    [self.errors] is empty at the end, and errors recorded before are
    kept. *)
Theorem run_all_tests_verdict w v :
  (run_all_tests w v).2 =
    terraform_ok w && match errors v with [] => true | _ :: _ => false end ∧
  ((run_all_tests w v).2 = true ↔ errors (run_all_tests w v).1 = []) ∧
  errors v `prefix_of` errors (run_all_tests w v).1.
Proof.
  rewrite run_all_tests_eq. cbn [fst snd errors]. rewrite effects_ok.
  pose proof (effects_errors w) as He.
  destruct (terraform_ok w).
  - rewrite (proj2 He eq_refl), app_nil_r. cbn.
    split_and!; [done | | done]. by destruct (errors v).
  - destruct (concat (e_errors <$> effects w)) as [|m ms] eqn:Hc.
    { by specialize (proj1 He eq_refl). }
    cbn. split_and!; [done | | by eexists].
    split; [done|]. by destruct (errors v).
Qed.

(** X16. There is no fail-fast among the tests: every run starts
    [terraform fmt], [init], [validate] and [plan] and looks for Checkov
    and TFLint, in this order, whatever failed before; Checkov is started
    iff [which checkov] succeeds, and [tflint --init] followed by [tflint]
    iff [which tflint] succeeds. *)
Theorem every_test_is_run w v :
  trace (run_all_tests w v).1 = trace v ++ expected_trace w.
Proof. rewrite run_all_tests_eq. cbn [fst trace]. by rewrite effects_trace. Qed.

(** X17. The flag [--skip-tools] skips nothing: with and without it the
    same processes are started, Checkov and TFLint included, the same
    errors are recorded and the exit status is the same; the flag only puts
    the warning "External tool checks skipped" in front of the others. *)
Theorem skip_tools_skips_nothing w :
  (main true w).2 = (main false w).2 ∧
  trace (main true w).1 = trace (main false w).1 ∧
  errors (main true w).1 = errors (main false w).1 ∧
  warnings (main true w).1 =
    "External tool checks skipped"%string :: warnings (main false w).1 ∧
  (Checkov ∈ trace (main true w).1 ↔ rc w WhichCheckov = 0).
Proof.
  unfold main. rewrite !run_all_tests_eq.
  cbn [fst snd trace errors warnings add_warning init app].
  split_and!; try done.
  rewrite effects_trace. unfold expected_trace.
  destruct (rc w WhichCheckov =? 0) eqn:Hc, (rc w WhichTflint =? 0);
    cbn; rewrite ?elem_of_cons, elem_of_nil;
    (apply Z.eqb_eq in Hc || apply Z.eqb_neq in Hc);
    intuition (discriminate || congruence).
Qed.

End TerraformValidatorProps.

(** * Further properties of Run_all_tests.py *)

Module RunnerExtra.
Import Runner RunnerProps.

Implicit Types (w : World) (cfg : Config) (r : runner) (k : phase_key).

(** ** The phases in terms of the return codes *)

Lemma run_command_eq w c r :
  ∃ err, run_command w c r = (log (Ran c) r, (rc w c, out w c, err)).
Proof. unfold run_command, rc, out. destruct (w_proc w c); by eexists. Qed.

Lemma phase_1_eq w cfg r :
  phase_1_pre_deployment_validation w cfg r =
  if negb (config_get (run_pre_deployment cfg) true)
  then (set_status PreDeployment skipped r, Returned true)
  else if rc w ValidateTerraform =? 0
  then (add_detail PreDeployment "All validations passed"
          (set_status PreDeployment passed (log (Ran ValidateTerraform) r)),
        Returned true)
  else (add_detail PreDeployment "Validation failed"
          (set_status PreDeployment failed (log (Ran ValidateTerraform) r)),
        Returned false).
Proof.
  unfold phase_1_pre_deployment_validation.
  destruct (run_command_eq w ValidateTerraform r) as [err ->]. done.
Qed.

Lemma phase_2_eq w cfg r :
  phase_2_terraform_native_tests w cfg r =
  if negb (config_get (run_terraform_tests cfg) true)
  then (set_status TerraformTests skipped r, Returned true)
  else
    match w_listdir w with
    | inl e => (r, Raised e)
    | inr files =>
        match filter (λ f, endswith f ".tftest.hcl" = true) files with
        | [] => (set_status TerraformTests skipped r, Returned true)
        | _ :: _ =>
            if rc w TerraformTest =? 0
            then (add_detail TerraformTests "All Terraform tests passed"
                    (set_status TerraformTests passed (log (Ran TerraformTest) r)),
                  Returned true)
            else (add_detail TerraformTests "Terraform tests failed"
                    (set_status TerraformTests failed (log (Ran TerraformTest) r)),
                  Returned false)
        end
    end.
Proof.
  unfold phase_2_terraform_native_tests.
  destruct (run_command_eq w TerraformTest r) as [err ->]. done.
Qed.

Lemma integration_steps_eq w r :
  integration_steps w r =
  let r1 := log (Ran TerraformOutput) r in
  let extracted : (runner * string) + runner :=
    if rc w TerraformOutput =? 0
    then
      match w_parse_outputs w (out w TerraformOutput) with
      | inl e => inl (r1, e)
      | inr sg_id =>
          match w_write_outputs w with
          | Some e => inl (set_security_group_id sg_id r1, e)
          | None => inr (set_security_group_id sg_id r1)
          end
      end
    else inr r1 in
  match extracted with
  | inl (r2, e) => (r2, Raised e)
  | inr r2 =>
      match w_pytest w with
      | Some e => (log (Ran Pytest) r2, Raised e)
      | None =>
          if match w_report_failed w with Some n => 0 <? n | None => false end
          then (add_detail IntegrationTest
                  (pretty (default 0 (w_report_failed w)) ++ " test(s) failed")
                  (set_status IntegrationTest failed (log (Ran Pytest) r2)),
                Returned false)
          else (add_detail IntegrationTest "All integration tests passed"
                  (set_status IntegrationTest passed (log (Ran Pytest) r2)),
                Returned true)
      end
  end.
Proof.
  unfold integration_steps.
  destruct (run_command_eq w TerraformOutput r) as [err ->]. cbn zeta.
  unfold returncode, stdout. cbn [fst snd].
  destruct (rc w TerraformOutput =? 0).
  - destruct (w_parse_outputs w _) as [e|sg_id]; [done|].
    destruct (w_write_outputs w); [done|].
    destruct (w_pytest w); [done|].
    destruct (w_report_failed w) as [n|]; [destruct (0 <? n)|]; done.
  - destruct (w_pytest w); [done|].
    destruct (w_report_failed w) as [n|]; [destruct (0 <? n)|]; done.
Qed.

Lemma phase_3_eq w cfg r :
  phase_3_deploy_and_integration_test w cfg r =
  if negb (config_get (run_integration_tests cfg) true)
  then (set_status IntegrationTest skipped r, Returned true)
  else if negb (rc w TerraformInit =? 0)
  then (set_status IntegrationTest failed (log (Ran TerraformInit) r), Returned false)
  else if negb (rc w TerraformPlan =? 0)
  then (set_status IntegrationTest failed
          (log (Ran TerraformPlan) (log (Ran TerraformInit) r)), Returned false)
  else if negb (rc w TerraformApply =? 0)
  then (set_status IntegrationTest failed
          (log (Ran TerraformApply)
             (log (Ran TerraformPlan) (log (Ran TerraformInit) r))), Returned false)
  else integration_steps w
         (log (Ran TerraformApply)
            (log (Ran TerraformPlan) (log (Ran TerraformInit) r))).
Proof.
  unfold phase_3_deploy_and_integration_test.
  destruct (run_command_eq w TerraformInit r) as [e1 ->].
  destruct (run_command_eq w TerraformPlan (log (Ran TerraformInit) r)) as [e2 ->].
  destruct (run_command_eq w TerraformApply
              (log (Ran TerraformPlan) (log (Ran TerraformInit) r))) as [e3 ->].
  done.
Qed.

Lemma phase_4_eq w cfg r :
  phase_4_post_deployment_validation w cfg r =
  if negb (config_get (run_post_deployment cfg) true)
  then (set_status PostDeployment skipped r, Returned true)
  else if negb (truthy_str (security_group_id r))
  then (set_status PostDeployment skipped r, Returned true)
  else if rc w ValidatePostDeployment =? 0
  then (add_detail PostDeployment "Post-deployment validation passed"
          (set_status PostDeployment passed (log (Ran ValidatePostDeployment) r)),
        Returned true)
  else (add_detail PostDeployment "Post-deployment validation failed"
          (set_status PostDeployment failed (log (Ran ValidatePostDeployment) r)),
        Returned false).
Proof.
  unfold phase_4_post_deployment_validation.
  destruct (run_command_eq w ValidatePostDeployment r) as [err ->]. done.
Qed.

(** ** The status that a phase leaves *)

Ltac status_tac :=
  intros [= <- <-]; cbn; first [done | by left | by right].

Lemma phase_returns_status w cfg k name f r r' b :
  (k, (name, f)) ∈ phases w cfg → f r = (r', Returned b) →
  agrees b (phase_status (get_result k (results r'))).
Proof.
  unfold phases. intros Hin.
  repeat (apply elem_of_cons in Hin as [[= -> -> ->] | Hin]).
  - rewrite phase_1_eq. destruct (negb _); [status_tac|].
    destruct (rc w ValidateTerraform =? 0); status_tac.
  - rewrite phase_2_eq. destruct (negb _); [status_tac|].
    destruct (w_listdir w) as [x|files]; [done|].
    destruct (filter _ files); [status_tac|].
    destruct (rc w TerraformTest =? 0); status_tac.
  - rewrite phase_3_eq. destruct (negb (config_get _ _)); [status_tac|].
    destruct (negb (rc w TerraformInit =? 0)); [status_tac|].
    destruct (negb (rc w TerraformPlan =? 0)); [status_tac|].
    destruct (negb (rc w TerraformApply =? 0)); [status_tac|].
    rewrite integration_steps_eq. cbn zeta.
    destruct (rc w TerraformOutput =? 0).
    + destruct (w_parse_outputs w _) as [x|sg_id]; [done|].
      destruct (w_write_outputs w); [done|].
      destruct (w_pytest w); [done|].
      destruct (match w_report_failed w with Some n => 0 <? n | None => false end);
        status_tac.
    + destruct (w_pytest w); [done|].
      destruct (match w_report_failed w with Some n => 0 <? n | None => false end);
        status_tac.
  - rewrite phase_4_eq. destruct (negb (config_get _ _)); [status_tac|].
    destruct (negb (truthy_str _)); [status_tac|].
    destruct (rc w ValidatePostDeployment =? 0); status_tac.
  - by apply elem_of_nil in Hin.
Qed.

(** X18. A phase that returns has left its own result in a final status
    that agrees with the value returned: [passed] or [skipped] with [True],
    [failed] with [False]; the results of the other phases are untouched.
    A phase that raises has changed no result at all. *)
Theorem phase_status_matches_return w cfg k (name : string)
    (f : runner → runner * outcome) r :
  (k, (name, f)) ∈ phases w cfg →
  (∀ k', k' ≠ k →
         get_result k' (results (f r).1) = get_result k' (results r)) ∧
  match (f r).2 with
  | Returned b => agrees b (phase_status (get_result k (results (f r).1)))
  | Raised _ => results (f r).1 = results r
  end.
Proof.
  intros Hin. split.
  - intros k' Hne. by apply (phases_keep w cfg k name f k' Hin Hne).
  - destruct (f r) as [r' [b|e]] eqn:Hf; cbn [fst snd].
    + by apply (phase_returns_status w cfg k name f r r' b).
    + by apply (raising_phase_records_nothing w cfg k name f r r' e).
Qed.

Lemma phase_status_matches_return_witness :
  agrees false
    (phase_status
       (get_result IntegrationTest
          (results (phase_3_deploy_and_integration_test
                      (with_proc healthy TerraformPlan TimeoutExpired)
                      default_config init).1))).
Proof.
  apply (phase_status_matches_return
           (with_proc healthy TerraformPlan TimeoutExpired) default_config
           IntegrationTest "Deployment & Integration"
           (phase_3_deploy_and_integration_test
              (with_proc healthy TerraformPlan TimeoutExpired) default_config) init).
  unfold phases. do 2 right. left.
Defined.

(** ** Every event of a run is justified *)

Lemma sound_log w cfg r ev :
  sound w cfg r → justified w cfg ev → sound w cfg (log ev r).
Proof.
  intros [Hid Htr] Hev. split; [done|]. cbn. apply Forall_app. split; [done|].
  by constructor.
Qed.

Lemma sound_set_status w cfg r k s :
  sound w cfg r → sound w cfg (set_status k s r).
Proof. by intros [Hid Htr]. Qed.

Lemma sound_add_detail w cfg r k x :
  sound w cfg r → sound w cfg (add_detail k x r).
Proof. by intros [Hid Htr]. Qed.

Ltac sound_tac :=
  cbn [fst];
  repeat first [ apply sound_add_detail | apply sound_set_status | apply sound_log ];
  try done.

Lemma is_enabled (o : option bool) :
  negb (config_get o true) = false → enabled o.
Proof. unfold enabled. by destruct (config_get o true). Qed.

Lemma rc_zero w c : negb (rc w c =? 0) = false → rc w c = 0.
Proof. intros H%negb_false_iff. by apply Z.eqb_eq. Qed.

Lemma integration_steps_sound w cfg r :
  applied w cfg → sound w cfg r → sound w cfg (integration_steps w r).1.
Proof.
  intros Happ Hr. rewrite integration_steps_eq. cbn zeta.
  assert (sound w cfg (log (Ran TerraformOutput) r)) as H1 by by apply sound_log.
  destruct (rc w TerraformOutput =? 0) eqn:Hrc.
  - apply Z.eqb_eq in Hrc.
    destruct (w_parse_outputs w (out w TerraformOutput)) as [x|sg_id] eqn:Hparse;
      [done|].
    assert (sound w cfg (set_security_group_id sg_id (log (Ran TerraformOutput) r)))
      as H2.
    { destruct H1 as [_ Htr]. split; [|done]. cbn. intros Ht.
      destruct sg_id as [i|]; [|done]. split_and!; [done | done |].
      exists i. split; [done|]. intros ->. done. }
    destruct (w_write_outputs w); [done|].
    destruct (w_pytest w); [by apply sound_log|].
    destruct (match w_report_failed w with Some n => 0 <? n | None => false end);
      sound_tac.
  - destruct (w_pytest w); [by apply sound_log|].
    destruct (match w_report_failed w with Some n => 0 <? n | None => false end);
      sound_tac.
Qed.

Lemma phase_sound w cfg k name f r :
  (k, (name, f)) ∈ phases w cfg → sound w cfg r → sound w cfg (f r).1.
Proof.
  unfold phases. intros Hin Hr.
  repeat (apply elem_of_cons in Hin as [[= -> -> ->] | Hin]).
  - rewrite phase_1_eq. destruct (negb _) eqn:Hen; [sound_tac|].
    apply is_enabled in Hen.
    destruct (rc w ValidateTerraform =? 0); sound_tac.
  - rewrite phase_2_eq. destruct (negb _) eqn:Hen; [sound_tac|].
    apply is_enabled in Hen.
    destruct (w_listdir w) as [x|files] eqn:Hls; [done|].
    destruct (filter _ files) as [|f0 fs] eqn:Hfiles; [sound_tac|].
    assert (justified w cfg (Ran TerraformTest)) as Hj.
    { split; [done|]. exists files, f0.
      assert (f0 ∈ filter (λ f, endswith f ".tftest.hcl" = true) files) as Hf0
        by (rewrite Hfiles; by left).
      apply list_elem_of_filter in Hf0 as [? ?]. done. }
    destruct (rc w TerraformTest =? 0); sound_tac.
  - rewrite phase_3_eq. destruct (negb (config_get _ _)) eqn:Hen; [sound_tac|].
    apply is_enabled in Hen.
    destruct (negb (rc w TerraformInit =? 0)) eqn:Hi; [sound_tac|].
    apply rc_zero in Hi.
    destruct (negb (rc w TerraformPlan =? 0)) eqn:Hp; [sound_tac|].
    apply rc_zero in Hp.
    destruct (negb (rc w TerraformApply =? 0)) eqn:Ha; [sound_tac|].
    apply rc_zero in Ha.
    apply integration_steps_sound; [done|]. sound_tac.
  - rewrite phase_4_eq. destruct (negb (config_get _ _)) eqn:Hen; [sound_tac|].
    apply is_enabled in Hen.
    destruct (negb (truthy_str _)) eqn:Hid; [sound_tac|].
    apply negb_false_iff in Hid.
    assert (justified w cfg (Ran ValidatePostDeployment)) as Hj.
    { split; [done|]. by apply Hr. }
    destruct (rc w ValidatePostDeployment =? 0); sound_tac.
  - by apply elem_of_nil in Hin.
Qed.

Lemma run_phases_sound w cfg (kps : list (phase_key * phase)) b r :
  (∀ kp, kp ∈ kps → kp ∈ phases w cfg) →
  sound w cfg r → sound w cfg (run_phases cfg (kps.*2) b r).1.
Proof.
  revert b r. induction kps as [|[k [name f]] kps IH]; intros b r Hsub Hr; [done|].
  cbn [fmap list_fmap snd run_phases].
  assert (sound w cfg (f r).1) as Hf.
  { apply (phase_sound w cfg k name f); [|done]. apply Hsub. by left. }
  assert (∀ kp, kp ∈ kps → kp ∈ phases w cfg) as Hsub'.
  { intros kp Hkp. apply Hsub. by right. }
  destruct (f r) as [r1 [[]|e]]; cbn [fst] in Hf.
  - by apply IH.
  - destruct (config_get (fail_fast cfg) false); [done | by apply IH].
  - assert (sound w cfg (log (ExceptionIn name e) r1)) as Hl by by apply sound_log.
    destruct (config_get (fail_fast cfg) false); [done | by apply IH].
Qed.

Lemma main_trace_justified w cfg ev :
  ev ∈ trace (main w cfg).1 → justified w cfg ev.
Proof.
  unfold main, run_all_phases.
  pose proof (run_phases_sound w cfg (phases w cfg) true init (λ kp H, H)) as Hs.
  destruct (run_phases cfg ((phases w cfg).*2) true init) as [r1 ok].
  cbn [fst snd] in *. rewrite finish_trace.
  destruct Hs as [_ Htr]; [by split|].
  rewrite !elem_of_app. intros [Hev | [Hev | Hev]].
  - by apply (proj1 (Forall_forall _ _) Htr).
  - unfold enabled. destruct (config_get (cleanup_enabled cfg) true) eqn:Hc.
    + apply list_elem_of_singleton in Hev as ->. done.
    + by apply elem_of_nil in Hev.
  - by apply list_elem_of_singleton in Hev as ->.
Qed.

(** X19. The steps of a run come in order: [terraform plan] is started
    only after [terraform init] succeeded, [terraform apply] only after both
    succeeded, and the reading of the outputs and pytest only after the
    three succeeded; [terraform test] only when the directory [tests] holds
    a file whose name ends in [.tftest.hcl]; the post-deployment validation
    only when the outputs of a successful deployment gave a non-empty
    identifier. *)
Theorem steps_have_prerequisites w cfg :
  (Ran TerraformPlan ∈ trace (main w cfg).1 → rc w TerraformInit = 0) ∧
  (Ran TerraformApply ∈ trace (main w cfg).1 →
     rc w TerraformInit = 0 ∧ rc w TerraformPlan = 0) ∧
  (Ran TerraformOutput ∈ trace (main w cfg).1 → applied w cfg) ∧
  (Ran Pytest ∈ trace (main w cfg).1 → applied w cfg) ∧
  (Ran ValidatePostDeployment ∈ trace (main w cfg).1 → deployed w cfg) ∧
  (Ran TerraformTest ∈ trace (main w cfg).1 →
     ∃ files f, w_listdir w = inr files ∧ f ∈ files ∧
                endswith f ".tftest.hcl" = true).
Proof.
  split_and!; intros H%main_trace_justified; cbn in H; tauto.
Qed.

(** X20. A flag of the command line switches its phase off whatever the
    configuration file says: with [--skip-pre], [--skip-terraform-test],
    [--skip-post] or [--no-cleanup] the process of that phase is never
    started, and with [--skip-integration] neither Terraform, pytest nor
    the post-deployment validation is.  When the configuration file cannot
    be read, no runner is built and the exit status is 1. *)
Theorem flags_switch_phases_off (args : Args) (file : config_file) w :
  match main_with_args args file w with
  | (None, code) => code = 1 ∧ ∃ e, file = ConfigUnreadable e
  | (Some r, _) =>
      (skip_pre args = true → Ran ValidateTerraform ∉ trace r) ∧
      (skip_terraform_test args = true → Ran TerraformTest ∉ trace r) ∧
      (skip_integration args = true →
         ∀ c, c ∈ [TerraformInit; TerraformPlan; TerraformApply; TerraformOutput;
                   Pytest; ValidatePostDeployment] → Ran c ∉ trace r) ∧
      (skip_post args = true → Ran ValidatePostDeployment ∉ trace r) ∧
      (no_cleanup args = true → Ran TerraformDestroy ∉ trace r)
  end.
Proof.
  unfold main_with_args, load_config. destruct file as [|e|cfg0].
  2:{ split; [done | by exists e]. }
  all: match goal with |- context [main ?w0 ?c] =>
         pose proof (main_trace_justified w0 c) as Hj;
         destruct (main w0 c) as [r code] end;
       cbn [fst] in Hj; split_and!.
  all: try (intros Hflag Hin; apply Hj in Hin; cbn in Hin;
            unfold enabled, override in Hin; cbn in Hin; rewrite Hflag in Hin;
            cbn in Hin; intuition discriminate).
  all: intros Hflag c Hc Hin; apply Hj in Hin;
       repeat (apply elem_of_cons in Hc as [-> | Hc]);
       [..| by apply elem_of_nil in Hc];
       cbn in Hin; unfold deployed, applied, enabled, override in Hin; cbn in Hin;
       rewrite Hflag in Hin; cbn in Hin; intuition discriminate.
Qed.

(** ** The exit status *)

Ltac only_runs_tac :=
  cbn [fst trace log set_status add_detail set_results set_security_group_id];
  rewrite <- ?app_assoc;
  first [ exists []; by rewrite app_nil_r
        | by eexists [_] | by eexists [_; _] | by eexists [_; _; _]
        | by eexists [_; _; _; _] | by eexists [_; _; _; _; _] ].

Lemma phase_only_runs w cfg k name f r :
  (k, (name, f)) ∈ phases w cfg →
  ∃ cs, trace (f r).1 = trace r ++ (Ran <$> cs).
Proof.
  unfold phases. intros Hin.
  repeat (apply elem_of_cons in Hin as [[= -> -> ->] | Hin]).
  - rewrite phase_1_eq. destruct (negb _); [only_runs_tac|].
    destruct (rc w ValidateTerraform =? 0); only_runs_tac.
  - rewrite phase_2_eq. destruct (negb _); [only_runs_tac|].
    destruct (w_listdir w) as [x|files]; [only_runs_tac|].
    destruct (filter _ files); [only_runs_tac|].
    destruct (rc w TerraformTest =? 0); only_runs_tac.
  - rewrite phase_3_eq. destruct (negb (config_get _ _)); [only_runs_tac|].
    destruct (negb (rc w TerraformInit =? 0)); [only_runs_tac|].
    destruct (negb (rc w TerraformPlan =? 0)); [only_runs_tac|].
    destruct (negb (rc w TerraformApply =? 0)); [only_runs_tac|].
    rewrite integration_steps_eq. cbn zeta.
    destruct (rc w TerraformOutput =? 0).
    + destruct (w_parse_outputs w _) as [x|sg_id]; [only_runs_tac|].
      destruct (w_write_outputs w); [only_runs_tac|].
      destruct (w_pytest w); [only_runs_tac|].
      destruct (match w_report_failed w with Some n => 0 <? n | None => false end);
        only_runs_tac.
    + destruct (w_pytest w); [only_runs_tac|].
      destruct (match w_report_failed w with Some n => 0 <? n | None => false end);
        only_runs_tac.
  - rewrite phase_4_eq. destruct (negb (config_get _ _)); [only_runs_tac|].
    destruct (negb (truthy_str _)); [only_runs_tac|].
    destruct (rc w ValidatePostDeployment =? 0); only_runs_tac.
  - by apply elem_of_nil in Hin.
Qed.

Lemma exception_in_runs (tr : list event) (cs : list command) name e :
  ExceptionIn name e ∈ tr ++ (Ran <$> cs) ↔ ExceptionIn name e ∈ tr.
Proof.
  rewrite elem_of_app. split; [|by left]. intros [? | H]; [done|].
  apply list_elem_of_fmap in H as (c & Hc & _). done.
Qed.

Lemma run_phases_clean w cfg (kps : list (phase_key * phase)) b r :
  (∀ kp, kp ∈ kps → kp ∈ phases w cfg) →
  NoDup (kps.*1) →
  (∀ k, k ∈ kps.*1 → phase_status (get_result k (results r)) ≠ failed) →
  (b = true ↔ clean r) →
  (run_phases cfg (kps.*2) b r).2 = true ↔ clean (run_phases cfg (kps.*2) b r).1.
Proof.
  revert b r. induction kps as [|[k [name f]] kps IH]; intros b r Hsub Hnd Hpend Hb;
    [done|].
  cbn [fmap list_fmap fst snd] in Hnd, Hpend. apply NoDup_cons in Hnd as [Hk Hnd].
  assert ((k, (name, f)) ∈ phases w cfg) as Hin by (apply Hsub; by left).
  assert (∀ kp, kp ∈ kps → kp ∈ phases w cfg) as Hsub'
    by (intros kp Hkp; apply Hsub; by right).
  destruct (phase_only_runs w cfg k name f r Hin) as [cs Htr].
  pose proof (phases_keep w cfg k name f) as Hkeep.
  pose proof (phase_returns_status w cfg k name f r) as Hret.
  cbn [fmap list_fmap snd run_phases].
  destruct (f r) as [r1 [b1|e]] eqn:Hf; cbn [fst] in Htr.
  - specialize (Hret r1 b1 Hin eq_refl).
    assert (∀ k', k' ≠ k → phase_status (get_result k' (results r1)) =
                           phase_status (get_result k' (results r))) as Hother.
    { intros k' Hne. specialize (Hkeep k' Hin Hne r). rewrite Hf in Hkeep.
      cbn in Hkeep. by rewrite Hkeep. }
    assert (∀ k', k' ∈ kps.*1 →
                  phase_status (get_result k' (results r1)) ≠ failed) as Hpend'.
    { intros k' Hk'. rewrite Hother; [|intros ->; done].
      apply Hpend. by right. }
    destruct b1; cbn in Hret.
    + apply IH; try done. rewrite Hb. unfold clean. rewrite Htr. split.
      * intros [Hs He]. split.
        -- intros k'. destruct (decide (k' = k)) as [->|Hne];
             [destruct Hret as [-> | ->]; done | rewrite Hother; done].
        -- intros n x. rewrite exception_in_runs. apply He.
      * intros [Hs He]. split.
        -- intros k'. destruct (decide (k' = k)) as [->|Hne];
             [apply Hpend; by left | rewrite <- Hother; done].
        -- intros n x. specialize (He n x). by rewrite exception_in_runs in He.
    + assert (¬ clean r1) as Hdirty.
      { intros [Hs _]. by apply (Hs k). }
      destruct (config_get (fail_fast cfg) false); [done|].
      apply IH; try done.
  - assert (¬ clean (log (ExceptionIn name e) r1)) as Hdirty.
    { intros [_ He]. apply (He name e). cbn. apply elem_of_app. right. by left. }
    destruct (config_get (fail_fast cfg) false); [done|].
    apply IH; try done.
    intros k' Hk'. cbn.
    assert (k' ≠ k) as Hne by (intros ->; done).
    specialize (Hkeep k' Hin Hne r). rewrite Hf in Hkeep. cbn in Hkeep.
    rewrite Hkeep. apply Hpend. by right.
Qed.

Lemma failed_phases_nil rs :
  failed_phases rs = [] ↔ ∀ k, phase_status (get_result k rs) ≠ failed.
Proof.
  unfold failed_phases. split.
  - intros Hnil%fmap_nil_inv k Hk.
    apply (filter_nil_not_elem_of _ _ k Hnil Hk).
    unfold all_keys. destruct k.
    + by left.
    + right. by left.
    + do 2 right. by left.
    + do 3 right. by left.
  - intros Hall.
    assert (filter (λ k, phase_status (get_result k rs) = failed) all_keys = [])
      as ->; [|done].
    generalize all_keys. intros l. induction l as [|k l IH]; [done|].
    rewrite filter_cons_False; [done | apply Hall].
Qed.

(** X21. The exit status is 0 or 1, and it is 0 iff, at the end, no phase
    has the status [failed] and no exception was caught in a phase.  So the
    final summary, which looks at the statuses only, announces that all
    tests passed while the exit status is 1 exactly when a phase raised and
    no other phase failed. *)
Theorem exit_status_iff_clean w cfg :
  ((main w cfg).2 = 0 ∨ (main w cfg).2 = 1) ∧
  ((main w cfg).2 = 0 ↔
     failed_phases (results (main w cfg).1) = [] ∧
     ∀ name e, ExceptionIn name e ∉ trace (main w cfg).1).
Proof.
  unfold main, run_all_phases.
  pose proof (run_phases_clean w cfg (phases w cfg) true init (λ kp H, H)
                (phase_keys_distinct w cfg)) as Hc.
  destruct (run_phases cfg ((phases w cfg).*2) true init) as [r1 ok].
  cbn [fst snd] in *.
  assert (ok = true ↔ clean r1) as Hok.
  { apply Hc.
    - intros k _. by destruct k.
    - split; [|done]. intros _. split; [by intros [] | intros n e; apply not_elem_of_nil]. }
  split; [destruct ok; auto|].
  rewrite finish_results, finish_trace, failed_phases_nil.
  assert ((if ok then 0 else 1) = 0 ↔ ok = true) as -> by (by destruct ok).
  rewrite Hok. unfold clean. split.
  - intros [Hs He]. split; [done|]. intros n e.
    rewrite !elem_of_app. intros [? | [H | H]].
    + by apply (He n e).
    + destruct (config_get (cleanup_enabled cfg) true);
        [by apply list_elem_of_singleton in H | by apply elem_of_nil in H].
    + by apply list_elem_of_singleton in H.
  - intros [Hs He]. split; [done|]. intros n e H. apply (He n e).
    apply elem_of_app. by left.
Qed.

(** ** Runs without fail-fast *)

Lemma phase_names w cfg k name f :
  (k, (name, f)) ∈ phases w cfg → name = phase_name k.
Proof.
  unfold phases. intros Hin.
  repeat (apply elem_of_cons in Hin as [[= -> -> ->] | Hin]; [done|]).
  by apply elem_of_nil in Hin.
Qed.

Lemma phase_no_destroy w cfg k name f :
  (k, (name, f)) ∈ phases w cfg → no_destroy f.
Proof.
  intros Hin.
  apply (proj1 (Forall_forall _ _) (phases_no_destroy w cfg) (name, f)).
  apply list_elem_of_fmap. by exists (k, (name, f)).
Qed.

Lemma run_phases_all_end w cfg (kps : list (phase_key * phase)) b r k :
  config_get (fail_fast cfg) false = false →
  (∀ kp, kp ∈ kps → kp ∈ phases w cfg) →
  NoDup (kps.*1) →
  k ∈ kps.*1 →
  phase_status (get_result k (results (run_phases cfg (kps.*2) b r).1)) ≠ pending ∨
  ∃ e, ExceptionIn (phase_name k) e ∈ trace (run_phases cfg (kps.*2) b r).1.
Proof.
  intros Hff. revert b r.
  induction kps as [|[k0 [n0 f0]] kps IH]; intros b r Hsub Hnd Hk;
    [by apply elem_of_nil in Hk|].
  cbn [fmap list_fmap fst snd] in Hnd, Hk. apply NoDup_cons in Hnd as [Hk0 Hnd].
  assert ((k0, (n0, f0)) ∈ phases w cfg) as Hin by (apply Hsub; by left).
  assert (∀ kp, kp ∈ kps → kp ∈ phases w cfg) as Hsub'
    by (intros kp Hkp; apply Hsub; by right).
  assert (Forall (λ p : phase, keeps k0 p.2) (kps.*2)) as Hkeeps.
  { apply Forall_fmap, Forall_forall. intros [k1 [n1 f1]] H1. cbn.
    apply (phases_keep w cfg k1 n1 f1 k0); [by apply Hsub'|].
    intros ->. apply Hk0. apply list_elem_of_fmap. by exists (k1, (n1, f1)). }
  assert (Forall (λ p : phase, no_destroy p.2) (kps.*2)) as Hgrow.
  { apply Forall_fmap, Forall_forall. intros [k1 [n1 f1]] H1. cbn.
    apply (phase_no_destroy w cfg k1 n1 f1). by apply Hsub'. }
  pose proof (phase_returns_status w cfg k0 n0 f0 r) as Hret.
  cbn [fmap list_fmap snd run_phases]. rewrite Hff.
  apply elem_of_cons in Hk as [-> | Hk].
  - destruct (f0 r) as [r1 [b1|e]] eqn:Hf.
    + left. specialize (Hret r1 b1 Hin eq_refl).
      assert (phase_status (get_result k0 (results r1)) ≠ pending) as Hne.
      { destruct b1; cbn in Hret; [destruct Hret as [-> | ->]|rewrite Hret]; done. }
      destruct b1; by rewrite run_phases_keeps.
    + right. exists e. rewrite (phase_names w cfg k0 n0 f0 Hin).
      destruct (run_phases_no_destroy cfg (kps.*2) false
                  (log (ExceptionIn (phase_name k0) e) r1) Hgrow) as (evs & -> & _).
      cbn. rewrite !elem_of_app, list_elem_of_singleton. tauto.
  - destruct (f0 r) as [r1 [[]|e]]; by apply IH.
Qed.

(** X22. Without fail-fast every phase is attempted: at the end of the run
    each of the four phases has left the status [pending] (it is [passed],
    [failed] or [skipped]), unless it raised, in which case the exception
    was caught under the name of that phase. *)
Theorem without_fail_fast_every_phase_ends w cfg k :
  config_get (fail_fast cfg) false = false →
  phase_status (get_result k (results (main w cfg).1)) ≠ pending ∨
  ∃ e, ExceptionIn (phase_name k) e ∈ trace (main w cfg).1.
Proof.
  intros Hff. unfold main, run_all_phases.
  assert (k ∈ (phases w cfg).*1) as Hk.
  { unfold phases. cbn. destruct k.
    - by left.
    - right. by left.
    - do 2 right. by left.
    - do 3 right. by left. }
  pose proof (run_phases_all_end w cfg (phases w cfg) true init k Hff (λ kp H, H)
                (phase_keys_distinct w cfg) Hk) as Hend.
  destruct (run_phases cfg ((phases w cfg).*2) true init) as [r1 ok].
  cbn [fst snd] in *. rewrite finish_results, finish_trace.
  destruct Hend as [? | [e He]]; [by left|].
  right. exists e. apply elem_of_app. by left.
Qed.

Lemma without_fail_fast_every_phase_ends_witness :
  phase_status
    (get_result PostDeployment
       (results (main (with_proc healthy ValidateTerraform TimeoutExpired)
                      default_config).1)) ≠ pending ∨
  ∃ e, ExceptionIn (phase_name PostDeployment) e ∈
         trace (main (with_proc healthy ValidateTerraform TimeoutExpired)
                     default_config).1.
Proof.
  apply (without_fail_fast_every_phase_ends
           (with_proc healthy ValidateTerraform TimeoutExpired) default_config
           PostDeployment).
  reflexivity.
Defined.

End RunnerExtra.
